(** * IcrFS: the in-memory iRule file system of vscode-iRule

    A shallow embedding of [src/fsProvider.ts] (class [IcrFS] with its node
    classes [File] and [Directory]) and of the [icrfs.connect] command of the
    extension's activation code, followed by the properties established
    about them.

    Conventions of the embedding.
    - JavaScript objects live in an object store ([heap]); a reference is an
      index into it.  [Directory.entries] maps names to references, so two
      containers may share a child and a container may contain itself,
      exactly as in the source.
    - A JavaScript [Map] is an association list in insertion order.
    - A thrown exception leaves the state as it is at the [throw]: methods
      are functions in a state-and-exception monad.
    - [Date.now()], the timers armed by [setTimeout], the deliveries made by
      the event emitter and the HTTP requests handed to [request] are fields
      of the state.
    - A [vscode.Uri] is represented by its [path]; strings are sequences of
      one-byte characters (one character per UTF-16 code unit). *)

From Stdlib Require Import ZArith Lia Ascii String List Bool.
From stdpp Require Import base list strings.
Import ListNotations.

Local Open Scope string_scope.
Local Open Scope Z_scope.

(** ** Strings and POSIX paths *)

Module Path.

Definition slash : ascii := "/"%char.

Definition is_slash (c : ascii) : bool := Ascii.eqb c slash.

(** [s.split('/')] on the characters of [s]: never empty, [""] gives [[""]]. *)
Fixpoint split_chars (l : list ascii) : list (list ascii) :=
  match l with
  | [] => [[]]
  | c :: r =>
      if is_slash c then [] :: split_chars r
      else match split_chars r with
           | h :: t => (c :: h) :: t
           | [] => [[c]]
           end
  end.

Definition split (s : string) : list string :=
  map string_of_list_ascii (split_chars (list_ascii_of_string s)).

Fixpoint drop_while (p : ascii -> bool) (l : list ascii) : list ascii :=
  match l with
  | [] => []
  | c :: r => if p c then drop_while p r else l
  end.

Fixpoint take_while (p : ascii -> bool) (l : list ascii) : list ascii :=
  match l with
  | [] => []
  | c :: r => if p c then c :: take_while p r else []
  end.

Definition not_slash (c : ascii) : bool := negb (is_slash c).

(** [path.posix.basename(p)]: the scan runs from the last character down;
    trailing slashes are skipped, then the characters up to the next slash
    are the result. *)
Definition basename_chars (p : list ascii) : list ascii :=
  rev (take_while not_slash (drop_while is_slash (rev p))).

(** [path.posix.dirname(p)]: the scan runs from the last character down to
    index 1; it skips trailing slashes, then the last component, and [end]
    is the index of the slash before it. *)
Definition dirname_chars (p : list ascii) : list ascii :=
  match p with
  | [] => ["."%char]
  | c0 :: tl =>
      let hasRoot := is_slash c0 in
      match drop_while not_slash (drop_while is_slash (rev tl)) with
      | [] => if hasRoot then [slash] else ["."%char]
      | _ :: r3 =>
          if hasRoot && (Nat.eqb (List.length r3) 0) then [slash; slash]
          else c0 :: rev r3
      end
  end.

Definition basename (p : string) : string :=
  string_of_list_ascii (basename_chars (list_ascii_of_string p)).

Definition dirname (p : string) : string :=
  string_of_list_ascii (dirname_chars (list_ascii_of_string p)).

(** The parts of a path that [_lookup] does not skip. *)
Definition nonempty (s : string) : bool :=
  match s with EmptyString => false | _ => true end.

Definition segments (p : string) : list string := List.filter nonempty (split p).

Definition absolute (p : string) : Prop :=
  match p with String c _ => c = slash | EmptyString => False end.

Definition nonnil (l : list ascii) : bool :=
  match l with [] => false | _ => true end.

Definition segments_chars (l : list ascii) : list (list ascii) :=
  List.filter nonnil (split_chars l).

End Path.

(** ** JavaScript [Map] with string keys, in insertion order *)

Module JsMap.

Section Ops.
Context {V : Type}.

Fixpoint get (k : string) (m : list (string * V)) : option V :=
  match m with
  | [] => None
  | (k', v) :: r => if String.eqb k' k then Some v else get k r
  end.

Definition has (k : string) (m : list (string * V)) : bool :=
  match get k m with Some _ => true | None => false end.

(** [m.set(k, v)]: an existing key keeps its position. *)
Fixpoint set (k : string) (v : V) (m : list (string * V)) : list (string * V) :=
  match m with
  | [] => [(k, v)]
  | (k', v') :: r => if String.eqb k' k then (k, v) :: r else (k', v') :: set k v r
  end.

Fixpoint delete (k : string) (m : list (string * V)) : list (string * V) :=
  match m with
  | [] => []
  | (k', v') :: r => if String.eqb k' k then delete k r else (k', v') :: delete k r
  end.

End Ops.

End JsMap.

(** ** Node model *)

(** A reference to an object of the store. *)
Abbreviation ref := nat (only parsing).

Module File.
Record t := mk {
  name : string;
  ctime : Z;
  mtime : Z;
  size : Z;
  data : option (list Byte.byte)
}.
(** [new File(name)] at time [now]. *)
Definition new (name : string) (now : Z) : t := mk name now now 0 None.
End File.

Module Directory.
Record t := mk {
  name : string;
  ctime : Z;
  mtime : Z;
  size : Z;
  entries : list (string * ref)
}.
(** [new Directory(name)] at time [now]. *)
Definition new (name : string) (now : Z) : t := mk name now now 0 [].
End Directory.

Inductive Entry :=
| EFile (f : File.t)
| EDirectory (d : Directory.t).

Inductive FileType := FileType_File | FileType_Directory.

Definition Entry_type (e : Entry) : FileType :=
  match e with EFile _ => FileType_File | EDirectory _ => FileType_Directory end.

Definition Entry_name (e : Entry) : string :=
  match e with EFile f => File.name f | EDirectory d => Directory.name d end.

Definition Entry_set_name (n : string) (e : Entry) : Entry :=
  match e with
  | EFile f => EFile (File.mk n (File.ctime f) (File.mtime f) (File.size f) (File.data f))
  | EDirectory d =>
      EDirectory (Directory.mk n (Directory.ctime d) (Directory.mtime d) (Directory.size d)
                    (Directory.entries d))
  end.

(** ** Change events, exceptions, HTTP requests *)

Inductive FileChangeType := Changed | Created | Deleted.

Record FileChangeEvent := mkEvent { type : FileChangeType; uri : string }.

Inductive Exn :=
| FileNotFound
| FileExists
| FileNotADirectory
| FileIsADirectory
| TypeError
| SyntaxError
| EvalError
| JsError (msg : string).

Inductive Method := GET | PUT.

(** The fields of [this.options] that the code sets. *)
Record Options := mkOptions {
  method : Method;
  url : string;
  Host : string;
  content_type_json : bool;
  rejectUnauthorized : bool;
  username : string;
  password : string;
  body : option (list Byte.byte);
  json : bool
}.

(** Which completion callback an issued request carries. *)
Inductive Callback := FolderCallback (apiUrl : string) | RuleCallback | SaveCallback.

Record Request := mkRequest { req_url : string; req_options : Options; req_callback : Callback }.

(** ** The state: an [IcrFS] instance and the runtime around it *)

Record IcrFS := mkIcrFS {
  heap : list Entry;                          (* the objects; [root] is reference 0 *)
  options : option Options;
  _bufferedEvents : list FileChangeEvent;
  _fireSoonHandle : option nat;
  (* runtime *)
  now : Z;                                    (* Date.now() *)
  timers : list (nat * Z);                    (* armed timeouts: handle, deadline *)
  next_timer : nat;
  fired : list (list FileChangeEvent);        (* arguments of _emitter.fire, in order *)
  requests : list Request                     (* calls of request(...), in order *)
}.

Definition root : ref := 0%nat.

(** [new IcrFS()] at time [t]. *)
Definition IcrFS_new (t : Z) : IcrFS :=
  mkIcrFS [EDirectory (Directory.new "" t)] None [] None t [] 0%nat [] [].

Definition set_heap (h : list Entry) (st : IcrFS) : IcrFS :=
  mkIcrFS h (options st) (_bufferedEvents st) (_fireSoonHandle st)
    (now st) (timers st) (next_timer st) (fired st) (requests st).

(** ** The state-and-exception monad *)

Inductive completion (A : Type) :=
| Return (a : A)
| Throw (e : Exn).
Arguments Return {A} a.
Arguments Throw {A} e.

Definition M (A : Type) : Type := IcrFS -> completion A * IcrFS.

Definition ret {A} (a : A) : M A := fun st => (Return a, st).
Definition throw {A} (e : Exn) : M A := fun st => (Throw e, st).
Definition bind {A B} (m : M A) (k : A -> M B) : M B :=
  fun st => match m st with
            | (Return a, st') => k a st'
            | (Throw e, st') => (Throw e, st')
            end.
Definition get_state : M IcrFS := fun st => (Return st, st).
Definition modify (f : IcrFS -> IcrFS) : M unit := fun st => (Return tt, f st).
(** [try { m } catch (error) { console.log(error) }] *)
Definition try_catch_log (m : M unit) : M unit :=
  fun st => match m st with
            | (Return a, st') => (Return a, st')
            | (Throw _, st') => (Return tt, st')
            end.

Declare Scope icr_scope.
Delimit Scope icr_scope with icr.
Notation "x <- c1 ;; c2" := (bind c1 (fun x => c2))
  (at level 100, c1 at next level, right associativity) : icr_scope.
Notation "c1 ;; c2" := (bind c1 (fun _ => c2))
  (at level 100, right associativity) : icr_scope.
Local Open Scope icr_scope.

(** ** Lookup *)

Definition is_Directory (h : list Entry) (r : ref) : bool :=
  match h !! r with Some (EDirectory _) => true | _ => false end.

Definition is_File (h : list Entry) (r : ref) : bool :=
  match h !! r with Some (EFile _) => true | _ => false end.

Definition entries_of (h : list Entry) (r : ref) : list (string * ref) :=
  match h !! r with Some (EDirectory d) => Directory.entries d | _ => [] end.

Definition name_of (h : list Entry) (r : ref) : string :=
  match h !! r with Some e => Entry_name e | None => "" end.

(** The loop of [_lookup] over [uri.path.split('/')], started at [entry];
    [None] is the point where [child] is undefined. *)
Fixpoint _lookup_parts (h : list Entry) (entry : ref) (parts : list string) : option ref :=
  match parts with
  | [] => Some entry
  | part :: rest =>
      if negb (Path.nonempty part) then _lookup_parts h entry rest
      else
        let child := if is_Directory h entry then JsMap.get part (entries_of h entry) else None in
        match child with
        | None => None
        | Some c => _lookup_parts h c rest
        end
  end.

Definition _lookup (path : string) (silent : bool) : M (option ref) :=
  st <- get_state;;
  match _lookup_parts (heap st) root (Path.split path) with
  | Some entry => ret (Some entry)
  | None => if silent then ret None else throw FileNotFound
  end.

Definition _lookupAsDirectory (path : string) (silent : bool) : M ref :=
  entry <- _lookup path silent;;
  st <- get_state;;
  match entry with
  | Some e => if is_Directory (heap st) e then ret e else throw FileNotADirectory
  | None => throw FileNotADirectory
  end.

Definition _lookupAsFile (path : string) (silent : bool) : M ref :=
  entry <- _lookup path silent;;
  st <- get_state;;
  match entry with
  | Some e => if is_File (heap st) e then ret e else throw FileIsADirectory
  | None => throw FileIsADirectory
  end.

Definition _lookupParentDirectory (path : string) : M ref :=
  _lookupAsDirectory (Path.dirname path) false.

(** ** Change notifier *)

Definition setTimeout (delay : Z) : M nat :=
  fun st =>
    (Return (next_timer st),
     mkIcrFS (heap st) (options st) (_bufferedEvents st) (_fireSoonHandle st)
       (now st) (timers st ++ [(next_timer st, now st + delay)]) (S (next_timer st))
       (fired st) (requests st)).

Definition clearTimeout (handle : nat) : M unit :=
  modify (fun st =>
    mkIcrFS (heap st) (options st) (_bufferedEvents st) (_fireSoonHandle st)
      (now st) (List.filter (fun t => negb (Nat.eqb (fst t) handle)) (timers st))
      (next_timer st) (fired st) (requests st)).

Definition push_events (events : list FileChangeEvent) : M unit :=
  modify (fun st =>
    mkIcrFS (heap st) (options st) (_bufferedEvents st ++ events) (_fireSoonHandle st)
      (now st) (timers st) (next_timer st) (fired st) (requests st)).

Definition set_fireSoonHandle (handle : nat) : M unit :=
  modify (fun st =>
    mkIcrFS (heap st) (options st) (_bufferedEvents st) (Some handle)
      (now st) (timers st) (next_timer st) (fired st) (requests st)).

Definition fireSoon_delay : Z := 5.

Definition _fireSoon (events : list FileChangeEvent) : M unit :=
  push_events events;;
  st <- get_state;;
  match _fireSoonHandle st with
  | Some handle => clearTimeout handle
  | None => ret tt
  end;;
  handle <- setTimeout fireSoon_delay;;
  set_fireSoonHandle handle.

(** The timeout callback: [_emitter.fire(_bufferedEvents); _bufferedEvents.length = 0]. *)
Definition fire_callback (st : IcrFS) : IcrFS :=
  mkIcrFS (heap st) (options st) [] (_fireSoonHandle st)
    (now st) (timers st) (next_timer st) (fired st ++ [_bufferedEvents st]) (requests st).

(** Wall-clock time passes; nothing runs. *)
Definition elapse (dt : Z) (st : IcrFS) : IcrFS :=
  mkIcrFS (heap st) (options st) (_bufferedEvents st) (_fireSoonHandle st)
    (now st + dt) (timers st) (next_timer st) (fired st) (requests st).

Definition due (t : Z) (timer : nat * Z) : bool := snd timer <=? t.

(** One turn of the event loop: every armed timeout whose deadline has been
    reached is removed and its callback runs. *)
Definition run_timers (st : IcrFS) : IcrFS :=
  let expired := List.filter (due (now st)) (timers st) in
  let st' :=
    mkIcrFS (heap st) (options st) (_bufferedEvents st) (_fireSoonHandle st)
      (now st) (List.filter (fun t => negb (due (now st) t)) (timers st))
      (next_timer st) (fired st) (requests st) in
  fold_left (fun s _ => fire_callback s) expired st'.

(** ** Heap updates *)

Definition alloc (e : Entry) : M ref :=
  fun st => (Return (List.length (heap st)), set_heap (heap st ++ [e]) st).

Definition update (r : ref) (f : Entry -> Entry) : M unit :=
  modify (fun st => set_heap (alter f r (heap st)) st).

Definition Entry_set_entries (m : list (string * ref) -> list (string * ref)) (e : Entry) : Entry :=
  match e with
  | EDirectory d =>
      EDirectory (Directory.mk (Directory.name d) (Directory.ctime d) (Directory.mtime d)
                    (Directory.size d) (m (Directory.entries d)))
  | EFile f => EFile f
  end.

Definition Entry_set_mtime (t : Z) (e : Entry) : Entry :=
  match e with
  | EDirectory d =>
      EDirectory (Directory.mk (Directory.name d) (Directory.ctime d) t
                    (Directory.size d) (Directory.entries d))
  | EFile f => EFile (File.mk (File.name f) (File.ctime f) t (File.size f) (File.data f))
  end.

Definition Entry_set_size (s : Z -> Z) (e : Entry) : Entry :=
  match e with
  | EDirectory d =>
      EDirectory (Directory.mk (Directory.name d) (Directory.ctime d) (Directory.mtime d)
                    (s (Directory.size d)) (Directory.entries d))
  | EFile f => EFile (File.mk (File.name f) (File.ctime f) (File.mtime f) (s (File.size f)) (File.data f))
  end.

Definition Entry_set_data (content : list Byte.byte) (e : Entry) : Entry :=
  match e with
  | EDirectory d => EDirectory d
  | EFile f => EFile (File.mk (File.name f) (File.ctime f) (File.mtime f) (File.size f) (Some content))
  end.

(** ** Readers *)

Definition stat (path : string) : M (option Entry) :=
  entry <- _lookup path false;;
  st <- get_state;;
  ret (match entry with Some e => heap st !! e | None => None end).

Definition readDirectory (path : string) : M (list (string * FileType)) :=
  entry <- _lookupAsDirectory path false;;
  st <- get_state;;
  ret (flat_map
         (fun kv =>
            if negb (Path.nonempty (fst kv)) then []
            else match heap st !! snd kv with
                 | Some child => [(fst kv, Entry_type child)]
                 | None => []
                 end)
         (entries_of (heap st) entry)).

Definition readFile (path : string) : M (list Byte.byte) :=
  file <- _lookupAsFile path false;;
  st <- get_state;;
  match heap st !! file with
  | Some (EFile f) =>
      match File.data f with
      | Some data => ret data
      | None => throw FileNotFound
      end
  | _ => throw FileNotFound
  end.

(** ** Tree mutators *)

Definition cacheRule (path : string) (content : list Byte.byte) (create overwrite : bool) : M unit :=
  let basename := Path.basename path in
  parent <- _lookupParentDirectory path;;
  st <- get_state;;
  let entry := JsMap.get basename (entries_of (heap st) parent) in
  if match entry with Some e => is_Directory (heap st) e | None => false end
  then throw FileIsADirectory
  else if match entry with None => negb create | Some _ => false end
  then throw FileNotFound
  else if match entry with Some _ => create && negb overwrite | None => false end
  then throw FileExists
  else
    entry <- match entry with
             | None =>
                 e <- alloc (EFile (File.new basename (now st)));;
                 update parent (Entry_set_entries (JsMap.set basename e));;
                 _fireSoon [mkEvent Created path];;
                 ret e
             | Some e => ret e
             end;;
    st <- get_state;;
    update entry (Entry_set_mtime (now st));;
    update entry (Entry_set_size (fun _ => Z.of_nat (List.length content)));;
    update entry (Entry_set_data content);;
    _fireSoon [mkEvent Changed path].

Definition rename (oldPath newPath : string) (overwrite : bool) : M unit :=
  target <- (if negb overwrite then _lookup newPath true else ret None);;
  match target with
  | Some _ => throw FileExists
  | None =>
      found <- _lookup oldPath false;;
      match found with
      | None => throw FileNotFound
      | Some entry =>
          oldParent <- _lookupParentDirectory oldPath;;
          newParent <- _lookupParentDirectory newPath;;
          let newName := Path.basename newPath in
          st <- get_state;;
          update oldParent (Entry_set_entries (JsMap.delete (name_of (heap st) entry)));;
          update entry (Entry_set_name newName);;
          update newParent (Entry_set_entries (JsMap.set newName entry));;
          _fireSoon [mkEvent Deleted oldPath; mkEvent Created newPath]
      end
  end.

Definition delete (path : string) : M unit :=
  let dirname := Path.dirname path in
  let basename := Path.basename path in
  parent <- _lookupAsDirectory dirname false;;
  st <- get_state;;
  if negb (JsMap.has basename (entries_of (heap st) parent))
  then throw FileNotFound
  else
    update parent (Entry_set_entries (JsMap.delete basename));;
    st <- get_state;;
    update parent (Entry_set_mtime (now st));;
    update parent (Entry_set_size (fun s => s - 1));;
    _fireSoon [mkEvent Changed dirname; mkEvent Deleted path].

Definition createDirectory (path : string) : M unit :=
  let basename := Path.basename path in
  let dirname := Path.dirname path in
  parent <- _lookupAsDirectory dirname false;;
  st <- get_state;;
  entry <- alloc (EDirectory (Directory.new basename (now st)));;
  update parent (Entry_set_entries (JsMap.set basename entry));;
  st <- get_state;;
  update parent (Entry_set_mtime (now st));;
  update parent (Entry_set_size (fun s => s + 1));;
  _fireSoon [mkEvent Changed dirname; mkEvent Created path].

(** The four mutators as one call type. *)
Inductive MutatorCall :=
| CreateDirectory (path : string)
| CacheRule (path : string) (content : list Byte.byte) (create overwrite : bool)
| Rename (oldPath newPath : string) (overwrite : bool)
| Delete (path : string).

Definition run_mutator (c : MutatorCall) : M unit :=
  match c with
  | CreateDirectory path => createDirectory path
  | CacheRule path content create overwrite => cacheRule path content create overwrite
  | Rename oldPath newPath overwrite => rename oldPath newPath overwrite
  | Delete path => delete path
  end.

(** ** Write-through persister *)

(** [s.replace(/\//g, '~')] *)
Fixpoint replace_slashes (s : string) : string :=
  match s with
  | EmptyString => EmptyString
  | String c r => String (if Path.is_slash c then "~"%char else c) (replace_slashes r)
  end.

(** [s.substr(0, n)] with [n] an integer that may be negative. *)
Definition substr0 (s : string) (n : Z) : string := substring 0 (Z.to_nat n) s.

(** The last path segment of the PUT url:
    [uri.path.replace(/\//g,'~').substr(0, uri.path.length-5)]. *)
Definition remote_identifier (path : string) : string :=
  substr0 (replace_slashes path) (Z.of_nat (String.length path) - 5).

Definition set_options (o : Options) : M unit :=
  modify (fun st =>
    mkIcrFS (heap st) (Some o) (_bufferedEvents st) (_fireSoonHandle st)
      (now st) (timers st) (next_timer st) (fired st) (requests st)).

(** [request(url, options, callback)]: the request is handed to the HTTP
    client with the options as they are at the call. *)
Definition request (u : string) (o : Options) (cb : Callback) : M unit :=
  modify (fun st =>
    mkIcrFS (heap st) (options st) (_bufferedEvents st) (_fireSoonHandle st)
      (now st) (timers st) (next_timer st) (fired st) (requests st ++ [mkRequest u o cb])).

(** [this.options!]: reading a property of [undefined] is a TypeError. *)
Definition the_options : M Options :=
  st <- get_state;;
  match options st with
  | Some o => ret o
  | None => throw TypeError
  end.

(** [writeFile] does not read the tree.  The request body carries
    [content.toString()], kept here as the bytes themselves. *)
Definition writeFile (path : string) (content : list Byte.byte) (create overwrite : bool) : M unit :=
  o <- the_options;;
  let apiUrl := "https://" ++ Host o ++ "/mgmt/tm" in
  let o' :=
    mkOptions PUT (apiUrl ++ "/ltm/rule/" ++ remote_identifier path) (Host o) true
      (rejectUnauthorized o) (username o) (password o) (Some content) true in
  set_options o';;
  request (url o') o' SaveCallback.

(** ** Remote sync: [connect] and its two completion callbacks *)

Record Item := mkItem { fullPath : string; apiAnonymous : string }.

(** What the HTTP client passes to a completion callback: an [error], or a
    [body] that [JSON.parse] rejects, or a body that parses but holds no
    [items] array (then [items.forEach] is a TypeError), or a body whose
    [items] are given. *)
Inductive Response :=
| ResponseError (error : string)
| ResponseUnparseable
| ResponseWithoutItems
| ResponseItems (items : list Item).

(** [vscode.Uri.parse('icrfs://' + rest).path]: the authority runs up to the
    first slash, question mark or hash, the path from there up to the first
    question mark or hash (percent-decoding and the validation of the
    components are left out). *)
Definition Uri_stop (c : ascii) : bool :=
  Ascii.eqb c "?"%char || Ascii.eqb c "#"%char.

Definition Uri_parse_path (rest : string) : string :=
  string_of_list_ascii
    (Path.take_while (fun c => negb (Uri_stop c))
       (Path.drop_while (fun c => negb (Path.is_slash c || Uri_stop c))
          (list_ascii_of_string rest))).

(** [Buffer.from(s)] for a string of one-byte characters. *)
Definition Buffer_from (s : string) : list Byte.byte := list_byte_of_string s.

Fixpoint forEach {A} (f : A -> M unit) (l : list A) : M unit :=
  match l with
  | [] => ret tt
  | x :: r => f x;; forEach f r
  end.

Definition connect (hostname user pass : string) (validateCert : bool) : M unit :=
  let apiUrl := "https://" ++ hostname ++ "/mgmt/tm" in
  let o := mkOptions GET (apiUrl ++ "/sys/folder") hostname false validateCert user pass None false in
  set_options o;;
  request (url o) o (FolderCallback apiUrl).

Definition rule_callback (r : Response) : M unit :=
  match r with
  | ResponseError error => throw (JsError error)
  | ResponseUnparseable => throw SyntaxError
  | ResponseWithoutItems => throw TypeError
  | ResponseItems items =>
      forEach (fun item =>
                 if String.eqb (fullPath item) "/" then ret tt
                 else try_catch_log
                        (cacheRule (Uri_parse_path (fullPath item ++ ".irul"))
                           (Buffer_from (apiAnonymous item)) true true))
              items
  end.

Definition folder_callback (apiUrl : string) (r : Response) : M unit :=
  match r with
  | ResponseError error => throw (JsError error)
  | ResponseUnparseable => throw SyntaxError
  | ResponseWithoutItems => throw TypeError
  | ResponseItems items =>
      forEach (fun item =>
                 if String.eqb (fullPath item) "/" then ret tt
                 else try_catch_log (createDirectory (Uri_parse_path (fullPath item ++ "/"))))
              items;;
      o <- the_options;;
      let o' :=
        mkOptions (method o) (apiUrl ++ "/ltm/rule") (Host o) (content_type_json o)
          (rejectUnauthorized o) (username o) (password o) (body o) (json o) in
      set_options o';;
      request (url o') o' RuleCallback
  end.

Definition run_callback (cb : Callback) (r : Response) : M unit :=
  match cb with
  | FolderCallback apiUrl => folder_callback apiUrl r
  | RuleCallback => rule_callback r
  | SaveCallback => ret tt
  end.

(** ** The extension: the [icrfs.connect] command and request completion *)

Record Extension := mkExtension {
  icrFs : IcrFS;
  initialized : bool;
  uncaught : list Exn     (* exceptions that left a completion callback *)
}.

Definition Extension_new (t : Z) : Extension := mkExtension (IcrFS_new t) false [].

(** The handler of [icrfs.connect]; the three strings and the flag are the
    configured hostname, username, password and validateCert. *)
Definition connect_command (hostname user pass : string) (validateCert : bool)
  (x : Extension) : completion unit * Extension :=
  if initialized x then (Return tt, x)
  else
    let x1 := mkExtension (icrFs x) true (uncaught x) in
    if String.eqb hostname "" then (Throw EvalError, x1)
    else if String.eqb user "" then (Throw EvalError, x1)
    else if String.eqb pass "" then (Throw EvalError, x1)
    else
      match connect hostname user pass validateCert (icrFs x1) with
      | (r, fs) => (r, mkExtension fs true (uncaught x1))
      end.

(** The HTTP client completes a request: its callback runs on a fresh stack,
    so an exception that leaves it reaches no caller of the extension. *)
Definition complete_request (cb : Callback) (r : Response) (x : Extension) : Extension :=
  match run_callback cb r (icrFs x) with
  | (Return _, fs) => mkExtension fs (initialized x) (uncaught x)
  | (Throw e, fs) => mkExtension fs (initialized x) (uncaught x ++ [e])
  end.

(** The permissive resolution of a path, as a function of the object store. *)
Definition resolve (h : list Entry) (path : string) : option ref :=
  _lookup_parts h root (Path.split path).

(** The walk of [_lookup] over the parts it does not skip. *)
Fixpoint walk (h : list Entry) (entry : ref) (segs : list string) : option ref :=
  match segs with
  | [] => Some entry
  | s :: rest =>
      if is_Directory h entry then
        match JsMap.get s (entries_of h entry) with
        | Some c => walk h c rest
        | None => None
        end
      else None
  end.

(** The objects that the walk goes through, the first and the last included. *)
Fixpoint walk_nodes (h : list Entry) (entry : ref) (segs : list string) : list ref :=
  entry ::
  match segs with
  | [] => []
  | s :: rest =>
      if is_Directory h entry then
        match JsMap.get s (entries_of h entry) with
        | Some c => walk_nodes h c rest
        | None => []
        end
      else []
  end.

(** The strict resolution of a path as a container, as a function of the
    object store. *)
Definition resolve_dir (h : list Entry) (path : string) : completion ref :=
  match resolve h path with
  | Some e => if is_Directory h e then Return e else Throw FileNotADirectory
  | None => Throw FileNotFound
  end.

(** The object store at the end of a successful [rename]. *)
Definition rename_heap (entry oldParent newParent : ref) (newName : string) (h : list Entry)
  : list Entry :=
  alter (Entry_set_entries (JsMap.set newName entry)) newParent
    (alter (Entry_set_name newName) entry
       (alter (Entry_set_entries (JsMap.delete (name_of h entry))) oldParent h)).

(** The payload assignment at the end of [cacheRule]. *)
Definition store_payload (content : list Byte.byte) (t : Z) (entry : ref) (h : list Entry) : list Entry :=
  alter (Entry_set_data content) entry
    (alter (Entry_set_size (fun _ => Z.of_nat (List.length content))) entry
       (alter (Entry_set_mtime t) entry h)).

(** A burst of [cacheRule] calls made on one stack: the clock may advance
    before each call ([put_pause]), but no timeout callback runs in between. *)
Record PutObject := mkPutObject {
  put_pause : Z;
  put_path : string;
  put_content : list Byte.byte;
  put_create : bool;
  put_overwrite : bool
}.

Definition burst (calls : list PutObject) : M unit :=
  forEach (fun c =>
             modify (elapse (put_pause c));;
             cacheRule (put_path c) (put_content c) (put_create c) (put_overwrite c))
          calls.

(** Every armed timeout is the one under [_fireSoonHandle]. *)
Definition single_timer (st : IcrFS) : bool :=
  forallb (fun t => match _fireSoonHandle st with
                    | Some handle => Nat.eqb (fst t) handle
                    | None => false
                    end) (timers st).

(** One timeout is armed, under the current handle, due a full delay from now. *)
Definition armed (st : IcrFS) : Prop :=
  exists id, timers st = [(id, now st + fireSoon_delay)] /\ _fireSoonHandle st = Some id.


(** [s.endsWith(suffix)] *)
Fixpoint ends_with (suffix s : string) : bool :=
  String.eqb s suffix ||
  match s with
  | EmptyString => false
  | String _ r => ends_with suffix r
  end.

(** The remote identifier as the specification words it: slashes replaced
    by tildes and the file-type suffix ".irul" stripped from the end (a
    path without the suffix has nothing to strip).  To be compared with
    [remote_identifier], which is what [writeFile] computes. *)
Definition spec_remote_identifier (path : string) : string :=
  replace_slashes
    (if ends_with ".irul" path then substring 0 (String.length path - 5) path else path).

(** The records that a [cacheRule] call which returns normally queues:
    Created when the parent container had no entry of the final segment,
    then Changed. *)
Definition put_records (path : string) (st : IcrFS) : list FileChangeEvent :=
  match resolve_dir (heap st) (Path.dirname path) with
  | Return parent =>
      match JsMap.get (Path.basename path) (entries_of (heap st) parent) with
      | None => [mkEvent Created path]
      | Some _ => []
      end
  | Throw _ => []
  end ++ [mkEvent Changed path].

Definition is_Changed (event : FileChangeEvent) : bool :=
  match type event with
  | Changed => true
  | _ => false
  end.

(** The records of a burst, call after call, each on the state its call
    finds. *)
Fixpoint burst_records (calls : list PutObject) (st : IcrFS) : list FileChangeEvent :=
  match calls with
  | [] => []
  | c :: rest =>
      put_records (put_path c) (elapse (put_pause c) st) ++
      burst_records rest
        (snd (cacheRule (put_path c) (put_content c) (put_create c) (put_overwrite c)
                (elapse (put_pause c) st)))
  end.

(** ** Concrete states used below *)

Definition unpopulated_fs : IcrFS :=
  mkIcrFS
    [EDirectory (Directory.mk "" 0 0 0 [("a.irul", 1%nat); ("b.irul", 2%nat)]);
     EFile (File.new "a.irul" 0);
     EFile (File.mk "b.irul" 0 0 0 (Some []))]
    None [] None 0 [] 0%nat [] [].

Definition connected_options : Options :=
  mkOptions GET "https://bigip/mgmt/tm/ltm/rule" "bigip" false false "admin" "secret" None false.

Definition connected_fs : IcrFS :=
  mkIcrFS
    [EDirectory (Directory.mk "" 0 0 1 [("Common", 1%nat)]);
     EDirectory (Directory.mk "Common" 0 0 0 [("test.irul", 2%nat)]);
     EFile (File.mk "test.irul" 0 0 2 (Some (Buffer_from "ab")))]
    (Some connected_options) [] None 0 [] 0%nat [] [].

(** A record was queued at time 0; it is now time 3 and the timer is pending. *)
Definition armed_fs : IcrFS :=
  elapse 3 (snd (_fireSoon [mkEvent Created "/a"] (IcrFS_new 0))).




(** Fifty writes, on one stack and a millisecond apart, of a rule that is
    not there before the first of them. *)
Definition fifty_new_puts : list PutObject :=
  repeat (mkPutObject 1 "/Common/rule.irul" (Buffer_from "when") true true) 50.

(** ** Further definitions: invariants and traces *)

Definition Entry_entries (e : Entry) : list (string * ref) :=
  match e with
  | EDirectory d => Directory.entries d
  | EFile _ => []
  end.

(** Every reference held by a container points into the object store. *)
Definition closed_heap (h : list Entry) : bool :=
  forallb (fun e => forallb (fun kv => Nat.ltb (snd kv) (List.length h)) (Entry_entries e)) h.

(** What can happen to the change notifier: records are queued, time
    passes, the event loop takes a turn. *)
Inductive NotifierStep :=
| Queue (events : list FileChangeEvent)
| Wait (dt : Z)
| Turn.

Definition notifier_step (s : NotifierStep) (st : IcrFS) : IcrFS :=
  match s with
  | Queue events => snd (_fireSoon events st)
  | Wait dt => elapse dt st
  | Turn => run_timers st
  end.

Definition queued (s : NotifierStep) : list FileChangeEvent :=
  match s with
  | Queue events => events
  | _ => []
  end.

(** [closed_heap] as a proposition. *)
Definition heap_closed (h : list Entry) : Prop :=
  forall e, In e h -> forall kv, In kv (Entry_entries e) -> (snd kv < List.length h)%nat.

(** A stream of records, each followed by a pause and a turn of the event
    loop. *)
Definition stream_steps (stream : list (list FileChangeEvent * Z)) : list NotifierStep :=
  flat_map (fun ev => [Queue (fst ev); Wait (snd ev); Turn]) stream.

(** The listing that [readDirectory] builds from a container's mapping. *)
Definition list_entries (h : list Entry) (es : list (string * ref)) : list (string * FileType) :=
  flat_map
    (fun kv =>
       if negb (Path.nonempty (fst kv)) then []
       else match h !! snd kv with
            | Some child => [(fst kv, Entry_type child)]
            | None => []
            end)
    es.

(** The insertion that each population phase attempts for one item. *)
Definition folder_item (item : Item) : M unit :=
  createDirectory (Uri_parse_path (fullPath item ++ "/")).

Definition rule_item (item : Item) : M unit :=
  cacheRule (Uri_parse_path (fullPath item ++ ".irul")) (Buffer_from (apiAnonymous item)) true true.

(** What can happen to an instance between two looks at it: a mutator is
    called, time passes, the event loop takes a turn. *)
Inductive Action :=
| Call (c : MutatorCall)
| Pass (dt : Z)
| Loop.

Definition act (a : Action) (st : IcrFS) : IcrFS :=
  match a with
  | Call c => snd (run_mutator c st)
  | Pass dt => elapse dt st
  | Loop => run_timers st
  end.

(** Every node hangs in its containers under its own name. *)
Definition named_heap (h : list Entry) : bool :=
  forallb (fun e => forallb (fun kv => String.eqb (name_of h (snd kv)) (fst kv)) (Entry_entries e)) h.

Definition heap_named (h : list Entry) : Prop :=
  forall e, In e h -> forall kv, In kv (Entry_entries e) -> name_of h (snd kv) = fst kv.

(** The mutators that do not move nodes. *)
Definition is_rename (c : MutatorCall) : bool :=
  match c with Rename _ _ _ => true | _ => false end.

(** * Properties *)

Local Open Scope list_scope.

(** ** Paths: evaluation on examples *)

Example split_ex : Path.split "/Common/test.irul" = [""; "Common"; "test.irul"].
Proof. reflexivity. Qed.
Example split_empty : Path.split "" = [""].
Proof. reflexivity. Qed.
Example basename_ex1 : Path.basename "/Common/sub/" = "sub".
Proof. reflexivity. Qed.
Example basename_ex2 : Path.basename "/" = "".
Proof. reflexivity. Qed.
Example dirname_ex1 : Path.dirname "/Common/sub/" = "/Common".
Proof. reflexivity. Qed.
Example dirname_ex2 : Path.dirname "/a//b" = "/a/".
Proof. reflexivity. Qed.
Example dirname_ex3 : Path.dirname "//b" = "//".
Proof. reflexivity. Qed.
Example dirname_ex4 : Path.dirname "a" = ".".
Proof. reflexivity. Qed.
Example dirname_ex5 : Path.dirname "/" = "/".
Proof. reflexivity. Qed.
Example segments_ex : Path.segments "/a//b/" = ["a"; "b"].
Proof. reflexivity. Qed.


(** ** The monad and the lookups *)

Ltac unfold_monad :=
  unfold bind, ret, throw, get_state, modify, try_catch_log in *.

Lemma _lookup_silent path st :
  _lookup path true st = (Return (resolve (heap st) path), st).
Proof.
  unfold _lookup, resolve. unfold_monad.
  destruct (_lookup_parts (heap st) root (Path.split path)); reflexivity.
Qed.

Lemma _lookup_strict path st :
  _lookup path false st =
  (match resolve (heap st) path with Some e => Return (Some e) | None => Throw FileNotFound end, st).
Proof.
  unfold _lookup, resolve. unfold_monad.
  destruct (_lookup_parts (heap st) root (Path.split path)); reflexivity.
Qed.

Lemma _lookupAsDirectory_strict path st :
  _lookupAsDirectory path false st =
  (match resolve (heap st) path with
   | Some e => if is_Directory (heap st) e then Return e else Throw FileNotADirectory
   | None => Throw FileNotFound
   end, st).
Proof.
  unfold _lookupAsDirectory. unfold bind at 1. rewrite _lookup_strict.
  destruct (resolve (heap st) path) as [e|]; [|reflexivity].
  unfold_monad. destruct (is_Directory (heap st) e); reflexivity.
Qed.

Lemma _lookupAsDirectory_Return path st parent st' :
  _lookupAsDirectory path false st = (Return parent, st') ->
  st' = st /\ resolve (heap st) path = Some parent /\ is_Directory (heap st) parent = true.
Proof.
  rewrite _lookupAsDirectory_strict.
  destruct (resolve (heap st) path) as [e|]; [|discriminate].
  destruct (is_Directory (heap st) e) eqn:Hd; [|discriminate].
  intros H. injection H as -> ->. auto.
Qed.

Lemma _lookupAsDirectory_Throw path st e st' :
  _lookupAsDirectory path false st = (Throw e, st') -> st' = st.
Proof.
  rewrite _lookupAsDirectory_strict. intros H. injection H as _ ->. reflexivity.
Qed.

Lemma is_Directory_Some h r :
  is_Directory h r = true -> exists d, h !! r = Some (EDirectory d).
Proof.
  unfold is_Directory. destruct (h !! r) as [[f|d]|]; try discriminate. eauto.
Qed.

(** ** readFile *)

(** C9. [readFile] on a path that resolves to a File: when the [data] field
    is absent the call throws FileNotFound (it does not return empty
    content); when a payload is present, also an empty one, the call returns
    exactly the stored bytes.  The state is unchanged either way. *)
Theorem readFile_payload (st : IcrFS) (path : string) (file : ref) (f : File.t) :
  _lookupAsFile path false st = (Return file, st) ->
  heap st !! file = Some (EFile f) ->
  readFile path st =
  (match File.data f with Some bytes => Return bytes | None => Throw FileNotFound end, st).
Proof.
  intros Hl Hf. unfold readFile. unfold bind at 1. rewrite Hl.
  unfold_monad. rewrite Hf. destruct (File.data f); reflexivity.
Qed.

Lemma readFile_payload_witness :
  readFile "/a.irul" unpopulated_fs = (Throw FileNotFound, unpopulated_fs) /\
  readFile "/b.irul" unpopulated_fs = (Return [], unpopulated_fs).
Proof.
  split.
  - apply (readFile_payload unpopulated_fs "/a.irul" 1%nat (File.new "a.irul" 0));
      reflexivity.
  - apply (readFile_payload unpopulated_fs "/b.irul" 2%nat (File.mk "b.irul" 0 0 0 (Some [])));
      reflexivity.
Defined.

(** ** writeFile: the remote identifier *)

Lemma substring0_replace_slashes n s :
  substring 0 n (replace_slashes s) = replace_slashes (substring 0 n s).
Proof.
  revert n. induction s as [|c s IH]; intros [|n]; simpl; try reflexivity.
  now rewrite IH.
Qed.

Lemma substring0_append s t : substring 0 (String.length s) (s ++ t)%string = s.
Proof.
  induction s as [|c s IH]; simpl.
  - destruct t; reflexivity.
  - now rewrite IH.
Qed.

Lemma string_length_append s t :
  String.length (s ++ t)%string = (String.length s + String.length t)%nat.
Proof. induction s as [|c s IH]; simpl; [reflexivity | now rewrite IH]. Qed.

Lemma remote_identifier_drops_five path :
  remote_identifier path =
  replace_slashes (substring 0 (String.length path - 5) path).
Proof.
  unfold remote_identifier, substr0.
  rewrite substring0_replace_slashes. f_equal. f_equal. lia.
Qed.

Lemma remote_identifier_irul stem :
  remote_identifier (stem ++ ".irul")%string = replace_slashes stem.
Proof.
  rewrite remote_identifier_drops_five, string_length_append. simpl String.length.
  replace (String.length stem + 5 - 5)%nat with (String.length stem) by lia.
  now rewrite substring0_append.
Qed.

Lemma ends_with_append suffix stem : ends_with suffix (stem ++ suffix)%string = true.
Proof.
  induction stem as [|c stem IH]; simpl.
  - destruct suffix; simpl; [reflexivity|]. now rewrite String.eqb_refl, Ascii.eqb_refl.
  - rewrite IH. apply orb_true_r.
Qed.

(** On a path that ends in ".irul" the code computes the identifier the
    specification words. *)
Lemma remote_identifier_spec_irul stem :
  remote_identifier (stem ++ ".irul")%string = spec_remote_identifier (stem ++ ".irul")%string.
Proof.
  rewrite remote_identifier_irul. unfold spec_remote_identifier.
  rewrite ends_with_append, string_length_append. simpl String.length.
  replace (String.length stem + 5 - 5)%nat with (String.length stem) by lia.
  now rewrite substring0_append.
Qed.

(** On a connected instance [writeFile] issues one PUT request and leaves
    the tree alone.  The last part of its url is computed from the path text
    only: every slash becomes a tilde and the last five characters are
    dropped, whatever they are. *)
Lemma writeFile_request
  (st : IcrFS) (path : string) (content : list Byte.byte) (create overwrite : bool) (o : Options) :
  options st = Some o ->
  exists st',
    writeFile path content create overwrite st = (Return tt, st') /\
    heap st' = heap st /\
    (exists o',
        requests st' =
        (requests st ++
          [mkRequest (("https://" ++ Host o ++ "/mgmt/tm") ++ "/ltm/rule/" ++ remote_identifier path)%string
             o' SaveCallback]) /\ method o' = PUT /\ body o' = Some content) /\
    remote_identifier path = replace_slashes (substring 0 (String.length path - 5) path).
Proof.
  intros Ho. unfold writeFile, the_options, set_options, request. unfold_monad.
  rewrite Ho. eexists. split; [reflexivity|].
  split; [reflexivity|]. split.
  - eexists. split; [reflexivity|]. split; reflexivity.
  - apply remote_identifier_drops_five.
Qed.

(** C5 (where the code leaves the claim).  [writeFile] cuts the last five
    characters of the path without looking at them.  On the connected
    instance, saving "/Common/notes.txt" PUTs to the url of the remote rule
    "~Common~note", where the identifier of the specification (slashes
    replaced, the suffix ".irul" stripped) is "~Common~notes.txt"; that url
    is the one that saving "/Common/note.irul" PUTs to, another Object.  The
    tree can hold such a path: [rename] turns "/Common/test.irul" into
    "/Common/test", and saving that afterwards PUTs to "~Common", not to
    "~Common~test".  On every path that does end in ".irul" the code
    computes the identifier of the specification. *)
Theorem writeFile_cuts_five_characters :
  map req_url
      (requests (snd (writeFile "/Common/notes.txt" (Buffer_from "when") true false connected_fs)))
    = ["https://bigip/mgmt/tm/ltm/rule/~Common~note"] /\
  remote_identifier "/Common/notes.txt" = "~Common~note" /\
  spec_remote_identifier "/Common/notes.txt" = "~Common~notes.txt" /\
  remote_identifier "/Common/notes.txt" <> spec_remote_identifier "/Common/notes.txt" /\
  map req_url
      (requests (snd (writeFile "/Common/note.irul" (Buffer_from "when") true false connected_fs)))
    = ["https://bigip/mgmt/tm/ltm/rule/~Common~note"] /\
  fst (rename "/Common/test.irul" "/Common/test" false connected_fs) = Return tt /\
  resolve (heap (snd (rename "/Common/test.irul" "/Common/test" false connected_fs)))
    "/Common/test" = resolve (heap connected_fs) "/Common/test.irul" /\
  resolve (heap connected_fs) "/Common/test.irul" = Some 2%nat /\
  map req_url
      (requests (snd (writeFile "/Common/test" (Buffer_from "when") false true
                        (snd (rename "/Common/test.irul" "/Common/test" false connected_fs)))))
    = ["https://bigip/mgmt/tm/ltm/rule/~Common"] /\
  spec_remote_identifier "/Common/test" = "~Common~test" /\
  (forall stem,
      remote_identifier (stem ++ ".irul")%string = spec_remote_identifier (stem ++ ".irul")%string /\
      remote_identifier (stem ++ ".irul")%string = replace_slashes stem).
Proof.
  split; [vm_compute; reflexivity|].
  split; [vm_compute; reflexivity|].
  split; [vm_compute; reflexivity|].
  split; [vm_compute; discriminate|].
  split; [vm_compute; reflexivity|].
  split; [vm_compute; reflexivity|].
  split; [vm_compute; reflexivity|].
  split; [vm_compute; reflexivity|].
  split; [vm_compute; reflexivity|].
  split; [vm_compute; reflexivity|].
  intros stem. split; [apply remote_identifier_spec_irul | apply remote_identifier_irul].
Qed.

(** ** The change notifier *)

Lemma _fireSoon_eq events st :
  _fireSoon events st =
  (Return tt,
   mkIcrFS (heap st) (options st) (_bufferedEvents st ++ events) (Some (next_timer st))
     (now st)
     (match _fireSoonHandle st with
      | Some handle => List.filter (fun t => negb (Nat.eqb (fst t) handle)) (timers st)
      | None => timers st
      end ++ [(next_timer st, now st + fireSoon_delay)])
     (S (next_timer st)) (fired st) (requests st)).
Proof.
  unfold _fireSoon, push_events, clearTimeout, setTimeout, set_fireSoonHandle.
  unfold_monad. simpl. destruct (_fireSoonHandle st); reflexivity.
Qed.

(** C1 (as the code has it). A change record that arrives while a timer is
    pending joins the batch, and the timer is re-armed: the timeout under the
    current handle is cleared and a new one is set, due a full delay of 5 ms
    after the arrival.  Nothing is delivered by the call. *)
Theorem fireSoon_rearms
  (st : IcrFS) (events : list FileChangeEvent) (handle : nat) (deadline : Z) :
  _fireSoonHandle st = Some handle ->
  In (handle, deadline) (timers st) ->
  exists st',
    _fireSoon events st = (Return tt, st') /\
    _bufferedEvents st' = (_bufferedEvents st ++ events) /\
    timers st' =
      (List.filter (fun t => negb (Nat.eqb (fst t) handle)) (timers st)
        ++ [(next_timer st, now st + 5)]) /\
    _fireSoonHandle st' = Some (next_timer st) /\
    fired st' = fired st /\
    heap st' = heap st.
Proof.
  intros Hh _. rewrite _fireSoon_eq, Hh. eexists. split; [reflexivity|].
  simpl. repeat split; reflexivity.
Qed.

Lemma fireSoon_rearms_witness :
  exists st',
    _fireSoon [mkEvent Changed "/a"] armed_fs = (Return tt, st') /\
    timers st' = [(1%nat, 8)] /\
    _bufferedEvents st' = [mkEvent Created "/a"; mkEvent Changed "/a"].
Proof.
  destruct (fireSoon_rearms armed_fs [mkEvent Changed "/a"] 0%nat 5 eq_refl)
    as (st' & Hf & Hb & Ht & _).
  - simpl. left. reflexivity.
  - exists st'. split; [exact Hf|]. rewrite Ht, Hb. split; reflexivity.
Defined.

(** C1 (as stated) fails: a timer armed at time 0 is due at 5; a record
    arriving at time 3 replaces it by a timer due at 8, and at time 5
    nothing is delivered. *)
Lemma fireSoon_resets_pending_timer :
  let st' := snd (_fireSoon [mkEvent Changed "/a"] armed_fs) in
  timers armed_fs = [(0%nat, 5)] /\
  timers st' = [(1%nat, 8)] /\
  ~ (forall handle deadline, In (handle, deadline) (timers armed_fs) ->
                             In (handle, deadline) (timers st')) /\
  fired (run_timers (elapse 2 st')) = [].
Proof.
  simpl. repeat split; try reflexivity.
  intros H. specialize (H 0%nat 5 (or_introl eq_refl)).
  simpl in H. destruct H as [H|[]]. discriminate H.
Qed.

(** ** Equations of the mutators on their successful paths *)

Arguments Path.basename : simpl never.
Arguments Path.dirname : simpl never.
Arguments Path.split : simpl never.

Lemma createDirectory_Return path st parent :
  _lookupAsDirectory (Path.dirname path) false st = (Return parent, st) ->
  createDirectory path st =
  (Return tt,
   snd (_fireSoon [mkEvent Changed (Path.dirname path); mkEvent Created path]
          (set_heap
             (alter (Entry_set_size (fun s => s + 1)) parent
                (alter (Entry_set_mtime (now st)) parent
                   (alter (Entry_set_entries (JsMap.set (Path.basename path) (List.length (heap st))))
                      parent
                      (heap st ++ [EDirectory (Directory.new (Path.basename path) (now st))]))))
             st))).
Proof.
  intros Hl. unfold createDirectory. unfold bind at 1. rewrite Hl.
  unfold alloc, update. unfold_monad. cbn [set_heap heap now].
  rewrite !_fireSoon_eq. reflexivity.
Qed.

Lemma delete_Return path st parent :
  _lookupAsDirectory (Path.dirname path) false st = (Return parent, st) ->
  JsMap.has (Path.basename path) (entries_of (heap st) parent) = true ->
  delete path st =
  (Return tt,
   snd (_fireSoon [mkEvent Changed (Path.dirname path); mkEvent Deleted path]
          (set_heap
             (alter (Entry_set_size (fun s => s - 1)) parent
                (alter (Entry_set_mtime (now st)) parent
                   (alter (Entry_set_entries (JsMap.delete (Path.basename path))) parent
                      (heap st))))
             st))).
Proof.
  intros Hl Hhas. unfold delete. unfold bind at 1. rewrite Hl.
  unfold bind at 1. unfold get_state at 1. rewrite Hhas. cbn [negb].
  unfold update. unfold_monad. cbn [set_heap heap now].
  rewrite !_fireSoon_eq. reflexivity.
Qed.

Lemma cacheRule_Return_created path content overwrite st parent :
  _lookupParentDirectory path st = (Return parent, st) ->
  JsMap.get (Path.basename path) (entries_of (heap st) parent) = None ->
  cacheRule path content true overwrite st =
  (Return tt,
   snd (_fireSoon [mkEvent Changed path]
          (set_heap
             (store_payload content (now st) (List.length (heap st))
                (alter (Entry_set_entries (JsMap.set (Path.basename path) (List.length (heap st))))
                   parent
                   (heap st ++ [EFile (File.new (Path.basename path) (now st))])))
             (snd (_fireSoon [mkEvent Created path] st))))).
Proof.
  intros Hl Hget. unfold cacheRule. unfold bind at 1. rewrite Hl.
  unfold bind at 1. unfold get_state at 1. rewrite Hget. cbn [negb].
  unfold alloc, update, store_payload. unfold_monad. cbn [set_heap heap now].
  rewrite !_fireSoon_eq. reflexivity.
Qed.

Lemma cacheRule_Return_updated path content create overwrite st parent entry :
  _lookupParentDirectory path st = (Return parent, st) ->
  JsMap.get (Path.basename path) (entries_of (heap st) parent) = Some entry ->
  is_Directory (heap st) entry = false ->
  create && negb overwrite = false ->
  cacheRule path content create overwrite st =
  (Return tt,
   snd (_fireSoon [mkEvent Changed path]
          (set_heap (store_payload content (now st) entry (heap st)) st))).
Proof.
  intros Hl Hget Hd Hco. unfold cacheRule. unfold bind at 1. rewrite Hl.
  unfold bind at 1. unfold get_state at 1. rewrite Hget, Hd, Hco.
  unfold update, store_payload. unfold_monad. cbn [set_heap heap now].
  rewrite !_fireSoon_eq. reflexivity.
Qed.

(** ** The JavaScript Map operations *)

Lemma JsMap_get_set_eq {V} k (v : V) m : JsMap.get k (JsMap.set k v m) = Some v.
Proof.
  induction m as [|[k' v'] m IH]; simpl.
  - now rewrite String.eqb_refl.
  - destruct (String.eqb k' k) eqn:E; simpl.
    + now rewrite String.eqb_refl.
    + now rewrite E.
Qed.

Lemma JsMap_get_set_ne {V} k k' (v : V) m :
  k <> k' -> JsMap.get k' (JsMap.set k v m) = JsMap.get k' m.
Proof.
  intros Hne. induction m as [|[k0 v0] m IH]; simpl.
  - destruct (String.eqb k k') eqn:E; [apply String.eqb_eq in E; contradiction | reflexivity].
  - destruct (String.eqb k0 k) eqn:E; simpl.
    + apply String.eqb_eq in E. subst k0.
      destruct (String.eqb k k') eqn:E'; [apply String.eqb_eq in E'; contradiction | reflexivity].
    + now rewrite IH.
Qed.

Lemma JsMap_get_delete_eq {V} k (m : list (string * V)) : JsMap.get k (JsMap.delete k m) = None.
Proof.
  induction m as [|[k' v'] m IH]; simpl; [reflexivity|].
  destruct (String.eqb k' k) eqn:E; simpl; [exact IH | now rewrite E].
Qed.

Lemma JsMap_get_delete_ne {V} k k' (m : list (string * V)) :
  k <> k' -> JsMap.get k' (JsMap.delete k m) = JsMap.get k' m.
Proof.
  intros Hne. induction m as [|[k0 v0] m IH]; simpl; [reflexivity|].
  destruct (String.eqb k0 k) eqn:E; simpl.
  - apply String.eqb_eq in E. subst k0.
    destruct (String.eqb k k') eqn:E'; [apply String.eqb_eq in E'; contradiction | exact IH].
  - now rewrite IH.
Qed.

Lemma JsMap_length_set_present {V} k (v : V) m :
  JsMap.has k m = true -> List.length (JsMap.set k v m) = List.length m.
Proof.
  unfold JsMap.has. induction m as [|[k' v'] m IH]; simpl; [discriminate|].
  destruct (String.eqb k' k); simpl; [reflexivity|]. intros H. now rewrite IH.
Qed.

Lemma JsMap_length_set_absent {V} k (v : V) m :
  JsMap.get k m = None -> List.length (JsMap.set k v m) = S (List.length m).
Proof.
  induction m as [|[k' v'] m IH]; simpl; [reflexivity|].
  destruct (String.eqb k' k); simpl; [discriminate|]. intros H. now rewrite IH.
Qed.

(** ** The object store after a mutator *)

Lemma entries_of_Directory h r d :
  h !! r = Some (EDirectory d) -> entries_of h r = Directory.entries d.
Proof. unfold entries_of. now intros ->. Qed.

Lemma heap_fireSoon events st : heap (snd (_fireSoon events st)) = heap st.
Proof. rewrite _fireSoon_eq. reflexivity. Qed.

Lemma heap_set_heap h st : heap (set_heap h st) = h.
Proof. reflexivity. Qed.

Lemma lookup_store_payload_eq content t entry h :
  store_payload content t entry h !! entry =
  (fun e => Entry_set_data content
              (Entry_set_size (fun _ => Z.of_nat (List.length content)) (Entry_set_mtime t e)))
    <$> h !! entry.
Proof.
  unfold store_payload. rewrite !list_lookup_alter_eq.
  generalize (h !! entry). intros [e|]; reflexivity.
Qed.

Lemma lookup_store_payload_ne content t entry h r :
  entry <> r -> store_payload content t entry h !! r = h !! r.
Proof.
  intros Hne. unfold store_payload. now rewrite !list_lookup_alter_ne.
Qed.

(** The parent container after [createDirectory]. *)
Lemma createDirectory_parent path st parent d :
  _lookupAsDirectory (Path.dirname path) false st = (Return parent, st) ->
  heap st !! parent = Some (EDirectory d) ->
  exists st',
    createDirectory path st = (Return tt, st') /\
    heap st' !! parent =
      Some (EDirectory
              (Directory.mk (Directory.name d) (Directory.ctime d) (now st) (Directory.size d + 1)
                 (JsMap.set (Path.basename path) (List.length (heap st)) (Directory.entries d)))) /\
    heap st' !! List.length (heap st) =
      Some (EDirectory (Directory.new (Path.basename path) (now st))) /\
    (forall r, r <> parent -> (r < List.length (heap st))%nat -> heap st' !! r = heap st !! r).
Proof.
  intros Hl Hd. rewrite (createDirectory_Return _ _ _ Hl).
  eexists. split; [reflexivity|]. cbn [snd]. rewrite heap_fireSoon, heap_set_heap.
  pose proof (lookup_lt_Some _ _ _ Hd) as Hlt.
  split; [|split].
  - rewrite !list_lookup_alter_eq, lookup_app_l, Hd by exact Hlt. reflexivity.
  - rewrite !list_lookup_alter_ne by lia.
    rewrite lookup_app_r by lia. now rewrite Nat.sub_diag.
  - intros r Hne Hr. rewrite !list_lookup_alter_ne by congruence.
    now rewrite lookup_app_l.
Qed.

(** The parent container after a successful [delete]. *)
Lemma delete_parent path st parent d :
  _lookupAsDirectory (Path.dirname path) false st = (Return parent, st) ->
  heap st !! parent = Some (EDirectory d) ->
  JsMap.has (Path.basename path) (Directory.entries d) = true ->
  exists st',
    delete path st = (Return tt, st') /\
    heap st' !! parent =
      Some (EDirectory
              (Directory.mk (Directory.name d) (Directory.ctime d) (now st) (Directory.size d - 1)
                 (JsMap.delete (Path.basename path) (Directory.entries d)))) /\
    (forall r, r <> parent -> heap st' !! r = heap st !! r).
Proof.
  intros Hl Hd Hhas. rewrite (delete_Return _ _ _ Hl).
  2:{ now rewrite (entries_of_Directory _ _ _ Hd). }
  eexists. split; [reflexivity|]. cbn [snd]. rewrite heap_fireSoon, heap_set_heap.
  split.
  - rewrite !list_lookup_alter_eq, Hd. reflexivity.
  - intros r Hne. now rewrite !list_lookup_alter_ne by congruence.
Qed.

(** The tree after [cacheRule] has created an Object. *)
Lemma cacheRule_created path content overwrite st parent d :
  _lookupParentDirectory path st = (Return parent, st) ->
  heap st !! parent = Some (EDirectory d) ->
  JsMap.get (Path.basename path) (Directory.entries d) = None ->
  exists st',
    cacheRule path content true overwrite st = (Return tt, st') /\
    heap st' !! parent =
      Some (EDirectory
              (Directory.mk (Directory.name d) (Directory.ctime d) (Directory.mtime d)
                 (Directory.size d)
                 (JsMap.set (Path.basename path) (List.length (heap st)) (Directory.entries d)))) /\
    heap st' !! List.length (heap st) =
      Some (EFile (File.mk (Path.basename path) (now st) (now st)
                     (Z.of_nat (List.length content)) (Some content))) /\
    (forall r, r <> parent -> (r < List.length (heap st))%nat -> heap st' !! r = heap st !! r) /\
    _bufferedEvents st' = _bufferedEvents st ++ [mkEvent Created path; mkEvent Changed path].
Proof.
  intros Hl Hd Hget. rewrite (cacheRule_Return_created _ _ _ _ _ Hl).
  2:{ now rewrite (entries_of_Directory _ _ _ Hd). }
  eexists. split; [reflexivity|]. cbn [snd].
  rewrite heap_fireSoon, heap_set_heap.
  pose proof (lookup_lt_Some _ _ _ Hd) as Hlt.
  split; [|split; [|split]].
  - rewrite lookup_store_payload_ne by lia.
    rewrite list_lookup_alter_eq, lookup_app_l, Hd by exact Hlt. reflexivity.
  - rewrite lookup_store_payload_eq, list_lookup_alter_ne by lia.
    rewrite lookup_app_r by lia. rewrite Nat.sub_diag. reflexivity.
  - intros r Hne Hr. rewrite lookup_store_payload_ne by lia.
    rewrite list_lookup_alter_ne by congruence. now rewrite lookup_app_l.
  - rewrite !_fireSoon_eq. cbn. now rewrite <- app_assoc.
Qed.

(** ** createDirectory *)

(** C6. When the parent resolves as a container, [createDirectory] returns
    normally whether or not the parent already has an entry of that name, so
    it never throws FileExists.  The new empty container is registered under
    the final segment and takes the place of any entry of that name (the
    mapping does not grow then, other names are untouched); the parent's
    [size] goes up by one in all cases and its [mtime] becomes the current
    time. *)
Theorem createDirectory_overwrites (st : IcrFS) (path : string) (parent : ref) (d : Directory.t) :
  _lookupAsDirectory (Path.dirname path) false st = (Return parent, st) ->
  heap st !! parent = Some (EDirectory d) ->
  exists st' d',
    createDirectory path st = (Return tt, st') /\
    heap st' !! parent = Some (EDirectory d') /\
    Directory.size d' = Directory.size d + 1 /\
    Directory.mtime d' = now st /\
    JsMap.get (Path.basename path) (Directory.entries d') = Some (List.length (heap st)) /\
    heap st' !! List.length (heap st) =
      Some (EDirectory (Directory.new (Path.basename path) (now st))) /\
    (JsMap.has (Path.basename path) (Directory.entries d) = true ->
     List.length (Directory.entries d') = List.length (Directory.entries d)) /\
    (forall k, k <> Path.basename path ->
               JsMap.get k (Directory.entries d') = JsMap.get k (Directory.entries d)).
Proof.
  intros Hl Hd.
  destruct (createDirectory_parent path st parent d Hl Hd) as (st' & Hc & Hp & Hn & _).
  exists st'. eexists. split; [exact Hc|]. split; [exact Hp|]. cbn.
  split; [reflexivity|]. split; [reflexivity|].
  split; [apply JsMap_get_set_eq|]. split; [exact Hn|]. split.
  - apply JsMap_length_set_present.
  - intros k Hk. apply JsMap_get_set_ne. congruence.
Qed.

Lemma createDirectory_overwrites_witness :
  exists st' d',
    createDirectory "/Common" connected_fs = (Return tt, st') /\
    heap st' !! 0%nat = Some (EDirectory d') /\
    Directory.size d' = 2 /\
    Directory.mtime d' = 0 /\
    JsMap.get "Common" (Directory.entries d') = Some 3%nat /\
    heap st' !! 3%nat = Some (EDirectory (Directory.new "Common" 0)) /\
    (true = true -> List.length (Directory.entries d') = 1%nat) /\
    (forall k, k <> "Common" -> JsMap.get k (Directory.entries d') = JsMap.get k [("Common", 1%nat)]).
Proof.
  exact (createDirectory_overwrites connected_fs "/Common" 0%nat
           (Directory.mk "" 0 0 1 [("Common", 1%nat)]) eq_refl eq_refl).
Defined.

(** ** cacheRule *)

Lemma cacheRule_Throw_directory path content create overwrite st parent entry :
  _lookupParentDirectory path st = (Return parent, st) ->
  JsMap.get (Path.basename path) (entries_of (heap st) parent) = Some entry ->
  is_Directory (heap st) entry = true ->
  cacheRule path content create overwrite st = (Throw FileIsADirectory, st).
Proof.
  intros Hl Hget Hd. unfold cacheRule. unfold bind at 1. rewrite Hl.
  unfold bind at 1. unfold get_state at 1. rewrite Hget, Hd. reflexivity.
Qed.

Lemma cacheRule_Throw_absent path content overwrite st parent :
  _lookupParentDirectory path st = (Return parent, st) ->
  JsMap.get (Path.basename path) (entries_of (heap st) parent) = None ->
  cacheRule path content false overwrite st = (Throw FileNotFound, st).
Proof.
  intros Hl Hget. unfold cacheRule. unfold bind at 1. rewrite Hl.
  unfold bind at 1. unfold get_state at 1. rewrite Hget. reflexivity.
Qed.

Lemma cacheRule_Throw_exists path content st parent entry :
  _lookupParentDirectory path st = (Return parent, st) ->
  JsMap.get (Path.basename path) (entries_of (heap st) parent) = Some entry ->
  is_Directory (heap st) entry = false ->
  cacheRule path content true false st = (Throw FileExists, st).
Proof.
  intros Hl Hget Hd. unfold cacheRule. unfold bind at 1. rewrite Hl.
  unfold bind at 1. unfold get_state at 1. rewrite Hget, Hd. reflexivity.
Qed.

(** C4. With the parent resolved as a container, [cacheRule] is decided by
    the parent's entry at the final segment.  An entry that is a Directory:
    FileIsADirectory.  No entry and [create] false: FileNotFound.  An entry
    that is not a Directory, with [create] true and [overwrite] false:
    FileExists.  In every other case the call returns normally: with no entry
    a File named by the final segment is created and registered in the
    parent, and in both cases the File ends with the payload, [size] the
    payload's length and [mtime] the current time.  A failing call leaves the
    state as it was. *)
Theorem cacheRule_cases
  (st : IcrFS) (path : string) (content : list Byte.byte) (create overwrite : bool)
  (parent : ref) (d : Directory.t) :
  _lookupParentDirectory path st = (Return parent, st) ->
  heap st !! parent = Some (EDirectory d) ->
  match JsMap.get (Path.basename path) (Directory.entries d) with
  | None =>
      if create then
        exists st',
          cacheRule path content create overwrite st = (Return tt, st') /\
          JsMap.get (Path.basename path) (entries_of (heap st') parent) =
            Some (List.length (heap st)) /\
          heap st' !! List.length (heap st) =
            Some (EFile (File.mk (Path.basename path) (now st) (now st)
                           (Z.of_nat (List.length content)) (Some content))) /\
          _bufferedEvents st' = _bufferedEvents st ++ [mkEvent Created path; mkEvent Changed path]
      else cacheRule path content create overwrite st = (Throw FileNotFound, st)
  | Some entry =>
      if is_Directory (heap st) entry
      then cacheRule path content create overwrite st = (Throw FileIsADirectory, st)
      else if create && negb overwrite
      then cacheRule path content create overwrite st = (Throw FileExists, st)
      else
        exists st',
          cacheRule path content create overwrite st = (Return tt, st') /\
          (forall f,
              heap st !! entry = Some (EFile f) ->
              heap st' !! entry =
              Some (EFile (File.mk (File.name f) (File.ctime f) (now st)
                             (Z.of_nat (List.length content)) (Some content)))) /\
          heap st' !! parent = Some (EDirectory d) /\
          _bufferedEvents st' = _bufferedEvents st ++ [mkEvent Changed path]
  end.
Proof.
  intros Hl Hd.
  pose proof (entries_of_Directory _ _ _ Hd) as He.
  destruct (JsMap.get (Path.basename path) (Directory.entries d)) as [entry|] eqn:Hget.
  - rewrite <- He in Hget.
    destruct (is_Directory (heap st) entry) eqn:Hdir.
    + exact (cacheRule_Throw_directory _ _ _ _ _ parent entry Hl Hget Hdir).
    + destruct (create && negb overwrite) eqn:Hco.
      * apply andb_prop in Hco. destruct Hco as [-> Ho].
        apply negb_true_iff in Ho. subst overwrite.
        exact (cacheRule_Throw_exists _ _ _ parent entry Hl Hget Hdir).
      * rewrite (cacheRule_Return_updated _ _ _ _ _ _ entry Hl Hget Hdir Hco).
        eexists. split; [reflexivity|]. cbn [snd].
        rewrite heap_fireSoon, heap_set_heap. split; [|split].
        -- intros f Hf. rewrite lookup_store_payload_eq, Hf. reflexivity.
        -- rewrite lookup_store_payload_ne; [exact Hd|].
           intros ->. unfold is_Directory in Hdir. rewrite Hd in Hdir. discriminate.
        -- rewrite _fireSoon_eq. reflexivity.
  - destruct create.
    + destruct (cacheRule_created path content overwrite st parent d Hl Hd Hget)
        as (st' & Hc & Hp & Hn & _ & Hev).
      exists st'. split; [exact Hc|]. split; [|split; [exact Hn|exact Hev]].
      rewrite (entries_of_Directory _ _ _ Hp). cbn. apply JsMap_get_set_eq.
    + apply (cacheRule_Throw_absent _ _ _ _ parent Hl). congruence.
Qed.

Lemma cacheRule_cases_witness :
  (exists st',
      cacheRule "/Common/test.irul" (Buffer_from "when") false false connected_fs = (Return tt, st') /\
      (forall f,
          heap connected_fs !! 2%nat = Some (EFile f) ->
          heap st' !! 2%nat =
          Some (EFile (File.mk (File.name f) (File.ctime f) 0 4 (Some (Buffer_from "when"))))) /\
      heap st' !! 1%nat = Some (EDirectory (Directory.mk "Common" 0 0 0 [("test.irul", 2%nat)])) /\
      _bufferedEvents st' = [] ++ [mkEvent Changed "/Common/test.irul"]) /\
  cacheRule "/Common/test.irul" (Buffer_from "when") true false connected_fs =
    (Throw FileExists, connected_fs) /\
  cacheRule "/Common" (Buffer_from "when") true true connected_fs =
    (Throw FileIsADirectory, connected_fs) /\
  cacheRule "/Common/new.irul" (Buffer_from "when") false true connected_fs =
    (Throw FileNotFound, connected_fs).
Proof.
  split; [|split; [|split]].
  - exact (cacheRule_cases connected_fs "/Common/test.irul" (Buffer_from "when") false false
             1%nat (Directory.mk "Common" 0 0 0 [("test.irul", 2%nat)]) eq_refl eq_refl).
  - exact (cacheRule_cases connected_fs "/Common/test.irul" (Buffer_from "when") true false
             1%nat (Directory.mk "Common" 0 0 0 [("test.irul", 2%nat)]) eq_refl eq_refl).
  - exact (cacheRule_cases connected_fs "/Common" (Buffer_from "when") true true
             0%nat (Directory.mk "" 0 0 1 [("Common", 1%nat)]) eq_refl eq_refl).
  - exact (cacheRule_cases connected_fs "/Common/new.irul" (Buffer_from "when") false true
             1%nat (Directory.mk "Common" 0 0 0 [("test.irul", 2%nat)]) eq_refl eq_refl).
Defined.

(** C10. When [cacheRule] creates an Object, the parent container gains the
    entry but keeps its [size] and its [mtime]; [createDirectory] in the same
    parent adds one to [size] and [delete] takes one off, and both set
    [mtime] to the current time. *)
Theorem cacheRule_keeps_parent_stat
  (st : IcrFS) (path : string) (parent : ref) (d : Directory.t) :
  _lookupParentDirectory path st = (Return parent, st) ->
  heap st !! parent = Some (EDirectory d) ->
  (forall content overwrite,
      JsMap.get (Path.basename path) (Directory.entries d) = None ->
      exists st' d',
        cacheRule path content true overwrite st = (Return tt, st') /\
        heap st' !! parent = Some (EDirectory d') /\
        Directory.size d' = Directory.size d /\
        Directory.mtime d' = Directory.mtime d /\
        JsMap.has (Path.basename path) (Directory.entries d') = true /\
        List.length (Directory.entries d') = S (List.length (Directory.entries d))) /\
  (exists st' d',
      createDirectory path st = (Return tt, st') /\
      heap st' !! parent = Some (EDirectory d') /\
      Directory.size d' = Directory.size d + 1 /\
      Directory.mtime d' = now st) /\
  (JsMap.has (Path.basename path) (Directory.entries d) = true ->
   exists st' d',
     delete path st = (Return tt, st') /\
     heap st' !! parent = Some (EDirectory d') /\
     Directory.size d' = Directory.size d - 1 /\
     Directory.mtime d' = now st).
Proof.
  intros Hl Hd. split; [|split].
  - intros content overwrite Hget.
    destruct (cacheRule_created path content overwrite st parent d Hl Hd Hget)
      as (st' & Hc & Hp & _).
    exists st'. eexists. split; [exact Hc|]. split; [exact Hp|]. cbn.
    split; [reflexivity|]. split; [reflexivity|]. split.
    + unfold JsMap.has. now rewrite JsMap_get_set_eq.
    + now apply JsMap_length_set_absent.
  - destruct (createDirectory_parent path st parent d Hl Hd) as (st' & Hc & Hp & _).
    exists st'. eexists. split; [exact Hc|]. split; [exact Hp|]. split; reflexivity.
  - intros Hhas.
    destruct (delete_parent path st parent d Hl Hd Hhas) as (st' & Hc & Hp & _).
    exists st'. eexists. split; [exact Hc|]. split; [exact Hp|]. split; reflexivity.
Qed.

Lemma cacheRule_keeps_parent_stat_witness :
  exists st' d',
    cacheRule "/Common/new.irul" (Buffer_from "when") true true (elapse 7 connected_fs)
      = (Return tt, st') /\
    heap st' !! 1%nat = Some (EDirectory d') /\
    Directory.size d' = 0 /\
    Directory.mtime d' = 0 /\
    JsMap.has "new.irul" (Directory.entries d') = true /\
    List.length (Directory.entries d') = 2%nat.
Proof.
  exact (proj1 (cacheRule_keeps_parent_stat (elapse 7 connected_fs) "/Common/new.irul" 1%nat
                  (Directory.mk "Common" 0 0 0 [("test.irul", 2%nat)]) eq_refl eq_refl)
           (Buffer_from "when") true eq_refl).
Defined.

(** ** rename: its equation *)

Lemma _lookupAsDirectory_resolve_dir path st :
  _lookupAsDirectory path false st = (resolve_dir (heap st) path, st).
Proof.
  rewrite _lookupAsDirectory_strict. unfold resolve_dir.
  destruct (resolve (heap st) path) as [e|]; [|reflexivity].
  destruct (is_Directory (heap st) e); reflexivity.
Qed.

Lemma rename_eq oldPath newPath overwrite st :
  rename oldPath newPath overwrite st =
  match (if negb overwrite then resolve (heap st) newPath else None) with
  | Some _ => (Throw FileExists, st)
  | None =>
      match resolve (heap st) oldPath with
      | None => (Throw FileNotFound, st)
      | Some entry =>
          match resolve_dir (heap st) (Path.dirname oldPath) with
          | Throw e => (Throw e, st)
          | Return oldParent =>
              match resolve_dir (heap st) (Path.dirname newPath) with
              | Throw e => (Throw e, st)
              | Return newParent =>
                  (Return tt,
                   snd (_fireSoon [mkEvent Deleted oldPath; mkEvent Created newPath]
                          (set_heap
                             (rename_heap entry oldParent newParent (Path.basename newPath) (heap st))
                             st)))
              end
          end
      end
  end.
Proof.
  unfold rename. unfold bind at 1.
  assert (Ht : (if negb overwrite then _lookup newPath true else ret None) st =
               (Return (if negb overwrite then resolve (heap st) newPath else None), st)).
  { destruct overwrite; cbn [negb]; [reflexivity | apply _lookup_silent]. }
  rewrite Ht. clear Ht.
  destruct (if negb overwrite then resolve (heap st) newPath else None); [reflexivity|].
  unfold bind at 1. rewrite _lookup_strict.
  destruct (resolve (heap st) oldPath) as [entry|]; [|reflexivity].
  unfold bind at 1. unfold _lookupParentDirectory at 1. rewrite _lookupAsDirectory_resolve_dir.
  destruct (resolve_dir (heap st) (Path.dirname oldPath)) as [oldParent|e]; [|reflexivity].
  unfold bind at 1. unfold _lookupParentDirectory at 1. rewrite _lookupAsDirectory_resolve_dir.
  destruct (resolve_dir (heap st) (Path.dirname newPath)) as [newParent|e]; [|reflexivity].
  unfold update, rename_heap. unfold_monad. cbn [set_heap heap].
  rewrite !_fireSoon_eq. reflexivity.
Qed.

(** ** Atomicity of the mutators *)

Lemma createDirectory_Throw path st e st' :
  createDirectory path st = (Throw e, st') -> st' = st.
Proof.
  destruct (_lookupAsDirectory (Path.dirname path) false st) as [[parent|e0] st1] eqn:Hl.
  - destruct (_lookupAsDirectory_Return _ _ _ _ Hl) as (-> & _ & _).
    rewrite (createDirectory_Return _ _ _ Hl). discriminate.
  - unfold createDirectory. unfold bind at 1. rewrite Hl.
    intros H. injection H as _ <-. exact (_lookupAsDirectory_Throw _ _ _ _ Hl).
Qed.

Lemma delete_Throw path st e st' :
  delete path st = (Throw e, st') -> st' = st.
Proof.
  destruct (_lookupAsDirectory (Path.dirname path) false st) as [[parent|e0] st1] eqn:Hl.
  - destruct (_lookupAsDirectory_Return _ _ _ _ Hl) as (-> & _ & _).
    destruct (JsMap.has (Path.basename path) (entries_of (heap st) parent)) eqn:Hhas.
    + rewrite (delete_Return _ _ _ Hl Hhas). discriminate.
    + unfold delete. unfold bind at 1. rewrite Hl.
      unfold bind at 1. unfold get_state at 1. rewrite Hhas. cbn [negb].
      unfold throw. intros H. now injection H as _ <-.
  - unfold delete. unfold bind at 1. rewrite Hl.
    intros H. injection H as _ <-. exact (_lookupAsDirectory_Throw _ _ _ _ Hl).
Qed.

Lemma cacheRule_Throw path content create overwrite st e st' :
  cacheRule path content create overwrite st = (Throw e, st') -> st' = st.
Proof.
  destruct (_lookupParentDirectory path st) as [[parent|e0] st1] eqn:Hl.
  - destruct (_lookupAsDirectory_Return _ _ _ _ Hl) as (-> & _ & _).
    destruct (JsMap.get (Path.basename path) (entries_of (heap st) parent)) as [entry|] eqn:Hget.
    + destruct (is_Directory (heap st) entry) eqn:Hd.
      * rewrite (cacheRule_Throw_directory _ _ _ _ _ _ _ Hl Hget Hd).
        intros H. now injection H as _ <-.
      * destruct (create && negb overwrite) eqn:Hco.
        -- apply andb_prop in Hco. destruct Hco as [-> Ho].
           apply negb_true_iff in Ho. subst overwrite.
           rewrite (cacheRule_Throw_exists _ _ _ _ _ Hl Hget Hd).
           intros H. now injection H as _ <-.
        -- rewrite (cacheRule_Return_updated _ _ _ _ _ _ _ Hl Hget Hd Hco). discriminate.
    + destruct create.
      * rewrite (cacheRule_Return_created _ _ _ _ _ Hl Hget). discriminate.
      * rewrite (cacheRule_Throw_absent _ _ _ _ _ Hl Hget).
        intros H. now injection H as _ <-.
  - unfold cacheRule. unfold bind at 1. rewrite Hl.
    intros H. injection H as _ <-. exact (_lookupAsDirectory_Throw _ _ _ _ Hl).
Qed.

Lemma rename_Throw oldPath newPath overwrite st e st' :
  rename oldPath newPath overwrite st = (Throw e, st') -> st' = st.
Proof.
  rewrite rename_eq.
  destruct (if negb overwrite then resolve (heap st) newPath else None).
  { intros H. now injection H as _ <-. }
  destruct (resolve (heap st) oldPath).
  2:{ intros H. now injection H as _ <-. }
  destruct (resolve_dir (heap st) (Path.dirname oldPath)).
  2:{ intros H. now injection H as _ <-. }
  destruct (resolve_dir (heap st) (Path.dirname newPath)).
  2:{ intros H. now injection H as _ <-. }
  discriminate.
Qed.

(** C8. Each of the four mutators is all-or-nothing: a call that throws
    returns the state it was given, so the tree (and the pending batch and
    the timer) at return is the one at entry. *)
Theorem mutators_atomic (c : MutatorCall) (st st' : IcrFS) (e : Exn) :
  run_mutator c st = (Throw e, st') -> st' = st.
Proof.
  destruct c; cbn [run_mutator].
  - apply createDirectory_Throw.
  - apply cacheRule_Throw.
  - apply rename_Throw.
  - apply delete_Throw.
Qed.

Lemma mutators_atomic_witness :
  snd (run_mutator (Rename "/Common/test.irul" "/Missing/test.irul" false) connected_fs) = connected_fs /\
  snd (run_mutator (Delete "/Common/absent.irul") connected_fs) = connected_fs /\
  snd (run_mutator (CreateDirectory "/Common/test.irul/sub") connected_fs) = connected_fs /\
  snd (run_mutator (CacheRule "/Common" [] true true) connected_fs) = connected_fs.
Proof.
  split; [|split; [|split]].
  - apply (mutators_atomic (Rename "/Common/test.irul" "/Missing/test.irul" false)
             connected_fs _ FileNotFound). reflexivity.
  - apply (mutators_atomic (Delete "/Common/absent.irul") connected_fs _ FileNotFound).
    reflexivity.
  - apply (mutators_atomic (CreateDirectory "/Common/test.irul/sub") connected_fs _
             FileNotADirectory). reflexivity.
  - apply (mutators_atomic (CacheRule "/Common" [] true true) connected_fs _ FileIsADirectory).
    reflexivity.
Defined.

(** ** Coalescing of notifications *)

Lemma filter_single_timer handle (ts : list (nat * Z)) :
  forallb (fun t => Nat.eqb (fst t) handle) ts = true ->
  List.filter (fun t => negb (Nat.eqb (fst t) handle)) ts = [].
Proof.
  induction ts as [|t ts IH]; cbn; [reflexivity|].
  intros H. apply andb_prop in H. destruct H as [Ht Hts].
  rewrite Ht. cbn. auto.
Qed.

Lemma fireSoon_armed events st :
  single_timer st = true -> armed (snd (_fireSoon events st)).
Proof.
  intros Hs. rewrite _fireSoon_eq. cbn [snd]. exists (next_timer st). cbn.
  split; [|reflexivity]. unfold single_timer in Hs.
  destruct (_fireSoonHandle st) as [handle|].
  - now rewrite filter_single_timer.
  - destruct (timers st); [reflexivity | discriminate].
Qed.

Lemma armed_single_timer st : armed st -> single_timer st = true.
Proof.
  intros (id & Ht & Hh). unfold single_timer. rewrite Ht, Hh. cbn.
  now rewrite Nat.eqb_refl.
Qed.

Lemma single_timer_set_heap h st : single_timer (set_heap h st) = single_timer st.
Proof. reflexivity. Qed.

(** What a successful [cacheRule] does to the notifier. *)
Lemma cacheRule_Return_notifier path content create overwrite st st' :
  cacheRule path content create overwrite st = (Return tt, st') ->
  exists h',
    st' = snd (_fireSoon [mkEvent Changed path] (set_heap h' st)) \/
    st' = snd (_fireSoon [mkEvent Changed path]
                 (set_heap h' (snd (_fireSoon [mkEvent Created path] st)))).
Proof.
  destruct (_lookupParentDirectory path st) as [[parent|e0] st1] eqn:Hl.
  - destruct (_lookupAsDirectory_Return _ _ _ _ Hl) as (-> & _ & _).
    destruct (JsMap.get (Path.basename path) (entries_of (heap st) parent)) as [entry|] eqn:Hget.
    + destruct (is_Directory (heap st) entry) eqn:Hd.
      * rewrite (cacheRule_Throw_directory _ _ _ _ _ _ _ Hl Hget Hd). discriminate.
      * destruct (create && negb overwrite) eqn:Hco.
        -- apply andb_prop in Hco. destruct Hco as [-> Ho].
           apply negb_true_iff in Ho. subst overwrite.
           rewrite (cacheRule_Throw_exists _ _ _ _ _ Hl Hget Hd). discriminate.
        -- rewrite (cacheRule_Return_updated _ _ _ _ _ _ _ Hl Hget Hd Hco).
           intros H. injection H as <-. eexists. left. reflexivity.
    + destruct create.
      * rewrite (cacheRule_Return_created _ _ _ _ _ Hl Hget).
        intros H. injection H as <-. eexists. right. reflexivity.
      * rewrite (cacheRule_Throw_absent _ _ _ _ _ Hl Hget). discriminate.
  - unfold cacheRule. unfold bind at 1. rewrite Hl. discriminate.
Qed.

Lemma cacheRule_Return_batch path content create overwrite st st' :
  single_timer st = true ->
  cacheRule path content create overwrite st = (Return tt, st') ->
  armed st' /\ now st' = now st /\ fired st' = fired st /\
  exists records,
    _bufferedEvents st' = _bufferedEvents st ++ records /\
    In (mkEvent Changed path) records /\ (1 <= List.length records)%nat.
Proof.
  intros Hs Hc.
  destruct (cacheRule_Return_notifier _ _ _ _ _ _ Hc) as (h' & [-> | ->]).
  - split; [apply fireSoon_armed; exact Hs|].
    rewrite _fireSoon_eq. cbn. split; [reflexivity|]. split; [reflexivity|].
    eexists. split; [reflexivity|]. cbn. split; [now left | lia].
  - split.
    { apply fireSoon_armed. rewrite single_timer_set_heap.
      apply armed_single_timer, fireSoon_armed, Hs. }
    rewrite !_fireSoon_eq. cbn. split; [reflexivity|]. split; [reflexivity|].
    exists [mkEvent Created path; mkEvent Changed path].
    rewrite <- app_assoc. split; [reflexivity|]. cbn. split; [now right; left | lia].
Qed.

Lemma single_timer_elapse dt st : single_timer (elapse dt st) = single_timer st.
Proof. reflexivity. Qed.

Lemma burst_batch calls : forall st st',
  single_timer st = true ->
  burst calls st = (Return tt, st') ->
  (calls <> [] -> armed st') /\ fired st' = fired st /\
  exists records,
    _bufferedEvents st' = _bufferedEvents st ++ records /\
    Forall (fun c => In (mkEvent Changed (put_path c)) records) calls /\
    (List.length calls <= List.length records)%nat.
Proof.
  induction calls as [|c calls IH]; intros st st' Hs Hb.
  - cbn in Hb. injection Hb as <-. split; [congruence|].
    split; [reflexivity|].
    exists []. rewrite app_nil_r. split; [reflexivity|]. split; [constructor | cbn; lia].
  - unfold burst in Hb. cbn [forEach] in Hb. unfold bind at 1 in Hb.
    unfold bind at 1 in Hb. unfold modify at 1 in Hb.
    destruct (cacheRule (put_path c) (put_content c) (put_create c) (put_overwrite c)
                (elapse (put_pause c) st))
      as [[[]|e] st1] eqn:Hc; [|discriminate].
    rewrite <- (single_timer_elapse (put_pause c)) in Hs.
    destruct (cacheRule_Return_batch _ _ _ _ _ _ Hs Hc)
      as (Harm & _ & Hfired & r1 & Hb1 & Hin & Hlen).
    destruct (IH st1 st' (armed_single_timer _ Harm) Hb)
      as (Harm' & Hfired' & r2 & Hb2 & Hall & Hlen2).
    split.
    { intros _. destruct calls as [|c' calls'].
      - cbn in Hb. injection Hb as <-. exact Harm.
      - apply Harm'. discriminate. }
    split; [rewrite Hfired', Hfired; reflexivity|].
    exists (r1 ++ r2). split; [rewrite Hb2, Hb1; cbn; now rewrite app_assoc|].
    split.
    + constructor.
      * apply in_or_app. now left.
      * eapply Forall_impl; [exact Hall|]. cbn. intros a Ha. apply in_or_app. now right.
    + rewrite length_app. cbn. lia.
Qed.

Lemma run_timers_armed_early st dt :
  armed st -> dt < fireSoon_delay ->
  fired (run_timers (elapse dt st)) = fired st /\
  _bufferedEvents (run_timers (elapse dt st)) = _bufferedEvents st.
Proof.
  intros (id & Ht & Hh) Hdt. unfold run_timers, elapse. cbn [now timers]. rewrite Ht.
  cbn. unfold due. cbn [snd].
  destruct (Z.leb_spec (now st + fireSoon_delay) (now st + dt)); [lia|].
  cbn. split; reflexivity.
Qed.

Lemma run_timers_armed_due st dt :
  armed st -> fireSoon_delay <= dt ->
  fired (run_timers (elapse dt st)) = fired st ++ [_bufferedEvents st] /\
  _bufferedEvents (run_timers (elapse dt st)) = [] /\
  timers (run_timers (elapse dt st)) = [].
Proof.
  intros (id & Ht & Hh) Hdt. unfold run_timers, elapse. cbn [now timers]. rewrite Ht.
  cbn. unfold due. cbn [snd].
  destruct (Z.leb_spec (now st + fireSoon_delay) (now st + dt)); [|lia].
  cbn. repeat split; reflexivity.
Qed.

(** [single_timer] is an invariant: it holds of a new instance and every
    mutator and every turn of the event loop keeps it. *)
Lemma single_timer_new t : single_timer (IcrFS_new t) = true.
Proof. reflexivity. Qed.

Lemma single_timer_fireSoon events st :
  single_timer st = true -> single_timer (snd (_fireSoon events st)) = true.
Proof. intros H. now apply armed_single_timer, fireSoon_armed. Qed.

Lemma single_timer_run_mutator c st :
  single_timer st = true -> single_timer (snd (run_mutator c st)) = true.
Proof.
  intros Hs. destruct (run_mutator c st) as [[[]|e] st'] eqn:Hr; cbn [snd].
  2:{ destruct c; cbn [run_mutator] in Hr.
      - now rewrite (createDirectory_Throw _ _ _ _ Hr).
      - now rewrite (cacheRule_Throw _ _ _ _ _ _ _ Hr).
      - now rewrite (rename_Throw _ _ _ _ _ _ Hr).
      - now rewrite (delete_Throw _ _ _ _ Hr). }
  destruct c as [path|path content create overwrite|oldPath newPath overwrite|path];
    cbn [run_mutator] in Hr.
  - destruct (_lookupAsDirectory (Path.dirname path) false st) as [[parent|e0] st1] eqn:Hl.
    + destruct (_lookupAsDirectory_Return _ _ _ _ Hl) as (-> & _ & _).
      rewrite (createDirectory_Return _ _ _ Hl) in Hr. injection Hr as <-.
      now apply single_timer_fireSoon.
    + unfold createDirectory in Hr. unfold bind at 1 in Hr. rewrite Hl in Hr. discriminate.
  - destruct (cacheRule_Return_batch _ _ _ _ _ _ Hs Hr) as (Ha & _).
    now apply armed_single_timer.
  - rewrite rename_eq in Hr.
    destruct (if negb overwrite then resolve (heap st) newPath else None); [discriminate|].
    destruct (resolve (heap st) oldPath); [|discriminate].
    destruct (resolve_dir (heap st) (Path.dirname oldPath)); [|discriminate].
    destruct (resolve_dir (heap st) (Path.dirname newPath)); [|discriminate].
    injection Hr as <-. now apply single_timer_fireSoon.
  - destruct (_lookupAsDirectory (Path.dirname path) false st) as [[parent|e0] st1] eqn:Hl.
    + destruct (_lookupAsDirectory_Return _ _ _ _ Hl) as (-> & _ & _).
      destruct (JsMap.has (Path.basename path) (entries_of (heap st) parent)) eqn:Hhas.
      * rewrite (delete_Return _ _ _ Hl Hhas) in Hr. injection Hr as <-.
        now apply single_timer_fireSoon.
      * unfold delete in Hr. unfold bind at 1 in Hr. rewrite Hl in Hr.
        unfold bind at 1 in Hr. unfold get_state at 1 in Hr. rewrite Hhas in Hr. discriminate.
    + unfold delete in Hr. unfold bind at 1 in Hr. rewrite Hl in Hr. discriminate.
Qed.

Lemma fold_fire_callback (l : list (nat * Z)) st :
  timers (fold_left (fun s _ => fire_callback s) l st) = timers st /\
  _fireSoonHandle (fold_left (fun s _ => fire_callback s) l st) = _fireSoonHandle st.
Proof.
  revert st. induction l as [|t l IH]; intros st; cbn; [auto|].
  destruct (IH (fire_callback st)) as [-> ->]. auto.
Qed.

Lemma single_timer_run_timers st :
  single_timer st = true -> single_timer (run_timers st) = true.
Proof.
  unfold single_timer, run_timers. intros Hs.
  destruct (fold_fire_callback (List.filter (due (now st)) (timers st))
              (mkIcrFS (heap st) (options st) (_bufferedEvents st) (_fireSoonHandle st)
                 (now st) (List.filter (fun t => negb (due (now st) t)) (timers st))
                 (next_timer st) (fired st) (requests st))) as [-> ->].
  cbn. rewrite forallb_forall in *. intros t Ht. apply Hs.
  now apply filter_In in Ht.
Qed.

(** The records a successful [cacheRule] adds to the batch are those of
    [put_records], read off the store the call finds. *)
Lemma cacheRule_Return_records path content create overwrite st st' :
  cacheRule path content create overwrite st = (Return tt, st') ->
  _bufferedEvents st' = _bufferedEvents st ++ put_records path st.
Proof.
  unfold put_records.
  destruct (_lookupParentDirectory path st) as [[parent|e0] st1] eqn:Hl.
  - destruct (_lookupAsDirectory_Return _ _ _ _ Hl) as (-> & _ & _).
    assert (Hr : resolve_dir (heap st) (Path.dirname path) = Return parent).
    { unfold _lookupParentDirectory in Hl. rewrite _lookupAsDirectory_resolve_dir in Hl.
      now injection Hl. }
    rewrite Hr.
    destruct (JsMap.get (Path.basename path) (entries_of (heap st) parent)) as [entry|] eqn:Hget.
    + destruct (is_Directory (heap st) entry) eqn:Hd.
      * rewrite (cacheRule_Throw_directory _ _ _ _ _ _ _ Hl Hget Hd). discriminate.
      * destruct (create && negb overwrite) eqn:Hco.
        -- apply andb_prop in Hco. destruct Hco as [-> Ho].
           apply negb_true_iff in Ho. subst overwrite.
           rewrite (cacheRule_Throw_exists _ _ _ _ _ Hl Hget Hd). discriminate.
        -- rewrite (cacheRule_Return_updated _ _ _ _ _ _ _ Hl Hget Hd Hco).
           intros H. injection H as <-. rewrite _fireSoon_eq. reflexivity.
    + destruct create.
      * rewrite (cacheRule_Return_created _ _ _ _ _ Hl Hget).
        intros H. injection H as <-. rewrite !_fireSoon_eq. cbn.
        now rewrite <- app_assoc.
      * rewrite (cacheRule_Throw_absent _ _ _ _ _ Hl Hget). discriminate.
  - unfold cacheRule. unfold bind at 1. rewrite Hl. discriminate.
Qed.

Lemma burst_cons c calls st :
  burst (c :: calls) st =
  match cacheRule (put_path c) (put_content c) (put_create c) (put_overwrite c)
          (elapse (put_pause c) st) with
  | (Return _, st1) => burst calls st1
  | (Throw e, st1) => (Throw e, st1)
  end.
Proof.
  unfold burst. cbn [forEach]. unfold bind at 1. unfold bind at 1. unfold modify at 1.
  destruct (cacheRule _ _ _ _ _) as [[[]|e] st1]; reflexivity.
Qed.

(** The batch after a burst that returns normally: what was pending, then
    the records of the calls in call order. *)
Lemma burst_records_eq calls : forall st st',
  burst calls st = (Return tt, st') ->
  _bufferedEvents st' = _bufferedEvents st ++ burst_records calls st.
Proof.
  induction calls as [|c calls IH]; intros st st' Hb.
  - cbn in Hb. injection Hb as <-. cbn. now rewrite app_nil_r.
  - rewrite burst_cons in Hb. cbn [burst_records].
    destruct (cacheRule (put_path c) (put_content c) (put_create c) (put_overwrite c)
                (elapse (put_pause c) st))
      as [[[]|e] st1] eqn:Hc; [|discriminate].
    cbn [snd]. rewrite (IH _ _ Hb), (cacheRule_Return_records _ _ _ _ _ _ Hc).
    cbn [elapse _bufferedEvents]. now rewrite app_assoc.
Qed.

Lemma put_records_shape path st :
  put_records path st = [mkEvent Changed path] \/
  put_records path st = [mkEvent Created path; mkEvent Changed path].
Proof.
  unfold put_records. destruct (resolve_dir (heap st) (Path.dirname path)) as [parent|e].
  - destruct (JsMap.get _ _); [left | right]; reflexivity.
  - left. reflexivity.
Qed.

(** Each call of a burst has its Changed record among the records. *)
Lemma burst_records_Changed calls : forall st,
  Forall (fun c => In (mkEvent Changed (put_path c)) (burst_records calls st)) calls.
Proof.
  induction calls as [|c calls IH]; intros st; [constructor|].
  cbn [burst_records]. constructor.
  - apply in_or_app. left.
    destruct (put_records_shape (put_path c) (elapse (put_pause c) st)) as [-> | ->];
      cbn; auto.
  - eapply Forall_impl; [apply IH|]. cbn. intros a Ha. apply in_or_app. right. exact Ha.
Qed.

(** Every record of a burst is the Created or the Changed record of one of
    its calls. *)
Lemma burst_records_only calls : forall st,
  Forall (fun event => exists c, In c calls /\
                         (event = mkEvent Changed (put_path c) \/
                          event = mkEvent Created (put_path c)))
         (burst_records calls st).
Proof.
  induction calls as [|c calls IH]; intros st; [constructor|].
  cbn [burst_records]. apply Forall_app. split.
  - destruct (put_records_shape (put_path c) (elapse (put_pause c) st)) as [-> | ->];
      repeat constructor; exists c; cbn; auto.
  - eapply Forall_impl; [apply IH|]. cbn. intros event (c' & Hin & H).
    exists c'. split; [now right | exact H].
Qed.

(** The records of a burst of N calls hold exactly N Changed records, and
    between N and 2 N records in all. *)
Lemma burst_records_count calls : forall st,
  List.length (List.filter is_Changed (burst_records calls st)) = List.length calls /\
  (List.length calls <= List.length (burst_records calls st) <= 2 * List.length calls)%nat.
Proof.
  induction calls as [|c calls IH]; intros st; [cbn; lia|].
  cbn [burst_records]. rewrite List.filter_app, !length_app.
  destruct (IH (snd (cacheRule (put_path c) (put_content c) (put_create c) (put_overwrite c)
                       (elapse (put_pause c) st)))) as (-> & Hlen).
  destruct (put_records_shape (put_path c) (elapse (put_pause c) st)) as [-> | ->];
    cbn; lia.
Qed.

Lemma burst_armed calls : forall st st',
  single_timer st = true ->
  calls <> [] ->
  burst calls st = (Return tt, st') ->
  armed st' /\ fired st' = fired st.
Proof.
  intros st st' Hs Hne Hb.
  destruct (burst_batch calls st st' Hs Hb) as (Harm & Hfired & _). auto.
Qed.

(** With no timeout armed a turn of the event loop delivers nothing. *)
Lemma run_timers_idle st dt :
  timers st = [] -> fired (run_timers (elapse dt st)) = fired st.
Proof. intros Ht. unfold run_timers, elapse. cbn [now timers]. now rewrite Ht. Qed.

(** C7. A burst of N >= 1 successful [cacheRule] calls made on one stack,
    however long it takes on the clock, delivers nothing while it runs and
    nothing before 5 ms have passed since its last call; the first turn of
    the event loop after that makes exactly one delivery, and later turns
    none.  The batch delivered is the batch [_bufferedEvents] as the burst
    leaves it: whatever was pending before the burst, followed by the
    records of the calls in call order, where a call queues the Created
    record of its path when it finds no entry of that name and then, always,
    the Changed record.  So the batch holds the Changed record of each of
    the N calls, exactly N Changed records from the burst, and no record
    from the burst that is not the Created or Changed record of one of its
    calls.  The delivery empties the batch and leaves no timeout armed. *)
Theorem burst_one_delivery (st st' : IcrFS) (calls : list PutObject) (dt : Z) :
  single_timer st = true ->
  calls <> [] ->
  burst calls st = (Return tt, st') ->
  5 <= dt ->
  _bufferedEvents st' = _bufferedEvents st ++ burst_records calls st /\
  Forall (fun c => In (mkEvent Changed (put_path c)) (burst_records calls st)) calls /\
  Forall (fun event => exists c, In c calls /\
                         (event = mkEvent Changed (put_path c) \/
                          event = mkEvent Created (put_path c)))
         (burst_records calls st) /\
  List.length (List.filter is_Changed (burst_records calls st)) = List.length calls /\
  (List.length calls <= List.length (burst_records calls st) <= 2 * List.length calls)%nat /\
  fired st' = fired st /\
  (forall dt', dt' < 5 -> fired (run_timers (elapse dt' st')) = fired st) /\
  fired (run_timers (elapse dt st')) = fired st ++ [_bufferedEvents st'] /\
  fired (run_timers (elapse dt st')) =
    fired st ++ [_bufferedEvents st ++ burst_records calls st] /\
  _bufferedEvents (run_timers (elapse dt st')) = [] /\
  timers (run_timers (elapse dt st')) = [] /\
  (forall dt2, fired (run_timers (elapse dt2 (run_timers (elapse dt st')))) =
               fired st ++ [_bufferedEvents st']).
Proof.
  intros Hs Hne Hb Hdt.
  destruct (burst_armed calls st st' Hs Hne Hb) as (Harm & Hfired).
  pose proof (burst_records_eq calls st st' Hb) as Hrec.
  destruct (burst_records_count calls st) as (Hchanged & Hlen).
  split; [exact Hrec|].
  split; [apply burst_records_Changed|].
  split; [apply burst_records_only|].
  split; [exact Hchanged|]. split; [exact Hlen|]. split; [exact Hfired|].
  split.
  { intros dt' Hdt'. destruct (run_timers_armed_early st' dt' Harm Hdt') as [-> _].
    exact Hfired. }
  destruct (run_timers_armed_due st' dt Harm Hdt) as (Hf & Hbuf & Ht).
  split; [rewrite Hf, Hfired; reflexivity|].
  split; [rewrite Hf, Hfired, Hrec; reflexivity|].
  split; [exact Hbuf|]. split; [exact Ht|].
  intros dt2. rewrite (run_timers_idle _ dt2 Ht), Hf, Hfired. reflexivity.
Qed.

Lemma burst_one_delivery_witness :
  burst_records fifty_new_puts connected_fs =
    mkEvent Created "/Common/rule.irul" :: repeat (mkEvent Changed "/Common/rule.irul") 50 /\
  (_bufferedEvents (snd (burst fifty_new_puts connected_fs)) =
     _bufferedEvents connected_fs ++ burst_records fifty_new_puts connected_fs /\
   Forall (fun c => In (mkEvent Changed (put_path c)) (burst_records fifty_new_puts connected_fs))
          fifty_new_puts /\
   Forall (fun event => exists c, In c fifty_new_puts /\
                          (event = mkEvent Changed (put_path c) \/
                           event = mkEvent Created (put_path c)))
          (burst_records fifty_new_puts connected_fs) /\
   List.length (List.filter is_Changed (burst_records fifty_new_puts connected_fs)) =
     List.length fifty_new_puts /\
   (List.length fifty_new_puts <= List.length (burst_records fifty_new_puts connected_fs)
    <= 2 * List.length fifty_new_puts)%nat /\
   fired (snd (burst fifty_new_puts connected_fs)) = fired connected_fs /\
   (forall dt', dt' < 5 ->
      fired (run_timers (elapse dt' (snd (burst fifty_new_puts connected_fs)))) =
        fired connected_fs) /\
   fired (run_timers (elapse 5 (snd (burst fifty_new_puts connected_fs)))) =
     fired connected_fs ++ [_bufferedEvents (snd (burst fifty_new_puts connected_fs))] /\
   fired (run_timers (elapse 5 (snd (burst fifty_new_puts connected_fs)))) =
     fired connected_fs ++
       [_bufferedEvents connected_fs ++ burst_records fifty_new_puts connected_fs] /\
   _bufferedEvents (run_timers (elapse 5 (snd (burst fifty_new_puts connected_fs)))) = [] /\
   timers (run_timers (elapse 5 (snd (burst fifty_new_puts connected_fs)))) = [] /\
   (forall dt2,
      fired (run_timers
               (elapse dt2 (run_timers (elapse 5 (snd (burst fifty_new_puts connected_fs)))))) =
        fired connected_fs ++ [_bufferedEvents (snd (burst fifty_new_puts connected_fs))])).
Proof.
  split; [vm_compute; reflexivity|].
  apply (burst_one_delivery connected_fs (snd (burst fifty_new_puts connected_fs))
           fifty_new_puts 5).
  - reflexivity.
  - discriminate.
  - vm_compute. reflexivity.
  - lia.
Defined.

(** ** connect and request-level failures *)



Lemma connect_command_fresh hostname user pass validateCert x :
  initialized x = false -> hostname <> "" -> user <> "" -> pass <> "" ->
  exists fs,
    connect_command hostname user pass validateCert x =
      (Return tt, mkExtension fs true (uncaught x)) /\
    heap fs = heap (icrFs x) /\
    exists o,
      requests fs =
      requests (icrFs x) ++
        [mkRequest (("https://" ++ hostname ++ "/mgmt/tm") ++ "/sys/folder")%string o
           (FolderCallback ("https://" ++ hostname ++ "/mgmt/tm")%string)].
Proof.
  intros Hi Hh Hu Hp. unfold connect_command. rewrite Hi.
  apply String.eqb_neq in Hh, Hu, Hp. rewrite Hh, Hu, Hp.
  unfold connect, set_options, request. unfold_monad. cbn.
  eexists. split; [reflexivity|]. split; [reflexivity|]. eexists. reflexivity.
Qed.

Lemma complete_request_initialized cb r x :
  initialized (complete_request cb r x) = initialized x.
Proof.
  unfold complete_request. destruct (run_callback cb r (icrFs x)) as [[a|e] fs]; reflexivity.
Qed.


(** ** Paths: segments, dirname and basename *)

Module PathFacts.
Import Path.

Lemma take_drop_while p l : take_while p l ++ drop_while p l = l.
Proof.
  induction l as [|c l IH]; cbn; [reflexivity|].
  destruct (p c); cbn; [now rewrite IH | reflexivity].
Qed.

Lemma forallb_take_while p l : forallb p (take_while p l) = true.
Proof.
  induction l as [|c l IH]; cbn; [reflexivity|].
  destruct (p c) eqn:E; cbn; [now rewrite E | reflexivity].
Qed.

Lemma drop_while_head p l :
  drop_while p l = [] \/ exists c r, drop_while p l = c :: r /\ p c = false.
Proof.
  induction l as [|c l IH]; cbn; [now left|].
  destruct (p c) eqn:E; [exact IH | right; eauto].
Qed.

Lemma forallb_rev {A} (p : A -> bool) l : forallb p (rev l) = forallb p l.
Proof.
  induction l as [|c l IH]; cbn; [reflexivity|].
  rewrite forallb_app, IH. cbn. rewrite andb_true_r. apply andb_comm.
Qed.

Lemma split_chars_nonnil l : split_chars l <> [].
Proof.
  destruct l as [|c l]; cbn; [discriminate|].
  destruct (is_slash c); [discriminate|]. destruct (split_chars l); discriminate.
Qed.

Lemma split_chars_app_slash x y :
  split_chars (x ++ slash :: y) = split_chars x ++ split_chars y.
Proof.
  induction x as [|c x IH]; cbn.
  - reflexivity.
  - destruct (is_slash c); [now rewrite IH|].
    rewrite IH. destruct (split_chars x) as [|h t] eqn:E.
    + now apply split_chars_nonnil in E.
    + reflexivity.
Qed.

Lemma is_slash_eq c : is_slash c = true -> c = slash.
Proof. unfold is_slash. apply Ascii.eqb_eq. Qed.

Lemma segments_chars_app_slash x c y :
  is_slash c = true ->
  segments_chars (x ++ c :: y) = segments_chars x ++ segments_chars y.
Proof.
  intros Hc. apply is_slash_eq in Hc. subst c. unfold segments_chars.
  now rewrite split_chars_app_slash, List.filter_app.
Qed.

Lemma split_chars_no_slash x : forallb not_slash x = true -> split_chars x = [x].
Proof.
  induction x as [|c x IH]; cbn; [reflexivity|].
  intros H. apply andb_prop in H. destruct H as [Hc H].
  unfold not_slash in Hc. apply negb_true_iff in Hc. rewrite Hc, IH by exact H. reflexivity.
Qed.

Lemma segments_chars_component x :
  forallb not_slash x = true -> x <> [] -> segments_chars x = [x].
Proof.
  intros H Hne. unfold segments_chars. rewrite split_chars_no_slash by exact H.
  destruct x; [congruence | reflexivity].
Qed.

Lemma segments_chars_slashes x : forallb is_slash x = true -> segments_chars x = [].
Proof.
  induction x as [|c x IH]; [reflexivity|].
  intros H. cbn in H. apply andb_prop in H. destruct H as [Hc H].
  change (c :: x) with ([] ++ c :: x). rewrite segments_chars_app_slash by exact Hc.
  now rewrite IH.
Qed.

Lemma segments_chars_trailing x sl :
  forallb is_slash sl = true -> segments_chars (x ++ sl) = segments_chars x.
Proof.
  destruct sl as [|c sl]; intros H.
  - now rewrite app_nil_r.
  - cbn in H. apply andb_prop in H. destruct H as [Hc H].
    rewrite segments_chars_app_slash by exact Hc.
    now rewrite (segments_chars_slashes sl H), app_nil_r.
Qed.

Lemma segments_chars_leading c x :
  is_slash c = true -> segments_chars (c :: x) = segments_chars x.
Proof.
  intros Hc. change (c :: x) with ([] ++ c :: x).
  now rewrite segments_chars_app_slash.
Qed.

(** The shape of a path tail seen from its end: trailing slashes, then the
    last component, then the rest. *)
Lemma rev_tail_shape tl :
  let sl := take_while is_slash (rev tl) in
  let cr := take_while not_slash (drop_while is_slash (rev tl)) in
  let r2 := drop_while not_slash (drop_while is_slash (rev tl)) in
  tl = rev r2 ++ rev cr ++ rev sl /\
  forallb is_slash (rev sl) = true /\ forallb not_slash (rev cr) = true.
Proof.
  cbn. split; [|split].
  - rewrite <- !rev_app_distr, <- app_assoc.
    rewrite (take_drop_while not_slash), (take_drop_while is_slash). now rewrite rev_involutive.
  - rewrite forallb_rev. apply forallb_take_while.
  - rewrite forallb_rev. apply forallb_take_while.
Qed.

Lemma removelast_snoc {A} (l : list A) x : removelast (l ++ [x]) = l.
Proof. apply removelast_last. Qed.

Lemma last_snoc {A} (l : list A) x d : List.last (l ++ [x]) d = x.
Proof. apply last_last. Qed.

Lemma not_slash_false c : not_slash c = false -> is_slash c = true.
Proof. unfold not_slash. now intros H%negb_false_iff. Qed.

Lemma not_slash_true c : is_slash c = false -> not_slash c = true.
Proof. unfold not_slash. now intros ->. Qed.

(** The last component is there as soon as something follows the trailing
    slashes. *)
Lemma component_nonnil r c r3 :
  drop_while not_slash (drop_while is_slash r) = c :: r3 ->
  take_while not_slash (drop_while is_slash r) <> [].
Proof.
  intros H. destruct (drop_while_head is_slash r) as [E | (c1 & r1 & E & Hc1)].
  - rewrite E in H. discriminate.
  - rewrite E. cbn. now rewrite (not_slash_true _ Hc1).
Qed.

(** Segments of an absolute path, from the shape of its tail. *)
Lemma segments_chars_absolute c0 tl :
  is_slash c0 = true ->
  let cr := take_while not_slash (drop_while is_slash (rev tl)) in
  let r2 := drop_while not_slash (drop_while is_slash (rev tl)) in
  segments_chars (c0 :: tl) =
  match r2 with
  | [] => if nonnil cr then [rev cr] else []
  | _ :: r3 => segments_chars (rev r3) ++ [rev cr]
  end.
Proof.
  intros Hc0 cr r2. rewrite (segments_chars_leading _ _ Hc0).
  destruct (rev_tail_shape tl) as (Htl & Hsl & Hcr). fold cr in Htl, Hcr. fold r2 in Htl.
  rewrite Htl at 1. rewrite app_assoc, (segments_chars_trailing _ _ Hsl).
  destruct r2 as [|c r3] eqn:Er2.
  - cbn [rev app]. destruct cr as [|c1 cr'] eqn:Ecr; [reflexivity|].
    cbn [nonnil]. apply segments_chars_component; [exact Hcr|].
    intros E. apply (f_equal (@List.length _)) in E. rewrite length_rev in E. discriminate.
  - assert (Hc : is_slash c = true).
    { destruct (drop_while_head not_slash (drop_while is_slash (rev tl)))
        as [E | (c' & r' & E & Hc')]; fold r2 in E; rewrite Er2 in E; [discriminate|].
      injection E as <- <-. now apply not_slash_false. }
    cbn [rev]. rewrite <- app_assoc. cbn [app].
    rewrite (segments_chars_app_slash _ _ _ Hc). f_equal.
    apply segments_chars_component; [exact Hcr|].
    pose proof (component_nonnil (rev tl) c r3 Er2) as Hne. fold cr in Hne.
    intros E. apply Hne. apply (f_equal (@rev _)) in E. now rewrite rev_involutive in E.
Qed.

Lemma dirname_chars_segments c0 tl :
  is_slash c0 = true ->
  segments_chars (dirname_chars (c0 :: tl)) = removelast (segments_chars (c0 :: tl)).
Proof.
  intros Hc0. rewrite (segments_chars_absolute _ _ Hc0). cbn zeta.
  unfold dirname_chars. rewrite Hc0.
  destruct (drop_while not_slash (drop_while is_slash (rev tl))) as [|c r3].
  - destruct (nonnil _); reflexivity.
  - rewrite removelast_snoc. destruct r3 as [|c3 r3]; [reflexivity|].
    cbn [List.length Nat.eqb andb]. apply segments_chars_leading, Hc0.
Qed.

Lemma drop_while_snoc_slash r c0 :
  is_slash c0 = true ->
  drop_while is_slash (r ++ [c0]) =
  match drop_while is_slash r with [] => [] | _ :: _ => drop_while is_slash r ++ [c0] end.
Proof.
  intros Hc0. induction r as [|c r IH]; cbn.
  - now rewrite Hc0.
  - destruct (is_slash c); [exact IH | reflexivity].
Qed.

Lemma take_while_snoc_slash r c0 :
  is_slash c0 = true ->
  take_while not_slash (r ++ [c0]) = take_while not_slash r.
Proof.
  intros Hc0. induction r as [|c r IH]; cbn.
  - unfold not_slash. now rewrite Hc0.
  - destruct (not_slash c); [now rewrite IH | reflexivity].
Qed.

Lemma basename_chars_component c0 tl :
  is_slash c0 = true ->
  basename_chars (c0 :: tl) = rev (take_while not_slash (drop_while is_slash (rev tl))).
Proof.
  intros Hc0. unfold basename_chars. cbn [rev].
  rewrite (drop_while_snoc_slash _ _ Hc0).
  destruct (drop_while is_slash (rev tl)) as [|c1 r1]; [reflexivity|].
  now rewrite (take_while_snoc_slash _ _ Hc0).
Qed.

Lemma basename_chars_last c0 tl :
  is_slash c0 = true ->
  basename_chars (c0 :: tl) = List.last (segments_chars (c0 :: tl)) [].
Proof.
  intros Hc0. rewrite (segments_chars_absolute _ _ Hc0), (basename_chars_component _ _ Hc0).
  cbn zeta.
  destruct (drop_while not_slash (drop_while is_slash (rev tl))) as [|c r3].
  - destruct (take_while not_slash (drop_while is_slash (rev tl))); reflexivity.
  - now rewrite last_snoc.
Qed.

Lemma nonempty_string_of_list l : nonempty (string_of_list_ascii l) = nonnil l.
Proof. destruct l; reflexivity. Qed.

Lemma segments_segments_chars p :
  segments p = map string_of_list_ascii (segments_chars (list_ascii_of_string p)).
Proof.
  unfold segments, split, segments_chars.
  induction (split_chars (list_ascii_of_string p)) as [|x l IH]; cbn; [reflexivity|].
  rewrite nonempty_string_of_list. destruct (nonnil x); cbn; now rewrite IH.
Qed.

Lemma absolute_chars p :
  absolute p -> exists c0 tl, list_ascii_of_string p = c0 :: tl /\ is_slash c0 = true.
Proof.
  destruct p as [|c p]; cbn; [contradiction|]. intros ->. eauto.
Qed.

Lemma map_removelast {A B} (f : A -> B) l : map f (removelast l) = removelast (map f l).
Proof.
  induction l as [|x l IH]; [reflexivity|].
  destruct l as [|y l]; [reflexivity|]. cbn in *. now rewrite IH.
Qed.

Lemma map_last {A B} (f : A -> B) l d : f (List.last l d) = List.last (map f l) (f d).
Proof.
  induction l as [|x l IH]; [reflexivity|].
  destruct l as [|y l]; [reflexivity|]. cbn in *. now rewrite IH.
Qed.

(** For an absolute path, the segments of [dirname] are the segments but the
    last, and [basename] is the last segment (empty when there is none). *)
Lemma segments_dirname p :
  absolute p -> segments (dirname p) = removelast (segments p).
Proof.
  intros (c0 & tl & E & Hc0)%absolute_chars.
  rewrite !segments_segments_chars. unfold dirname.
  rewrite list_ascii_of_string_of_list_ascii, E, dirname_chars_segments by exact Hc0.
  apply map_removelast.
Qed.

Lemma basename_last p :
  absolute p -> basename p = List.last (segments p) "".
Proof.
  intros (c0 & tl & E & Hc0)%absolute_chars.
  rewrite segments_segments_chars. unfold basename.
  rewrite E, basename_chars_last by exact Hc0.
  apply (map_last string_of_list_ascii _ []).
Qed.

End PathFacts.

(** ** Resolution as a walk over segments *)

Lemma _lookup_parts_walk h e parts :
  _lookup_parts h e parts = walk h e (List.filter Path.nonempty parts).
Proof.
  revert e. induction parts as [|part parts IH]; intros e; cbn; [reflexivity|].
  destruct (Path.nonempty part); cbn; [|apply IH].
  destruct (is_Directory h e); [|reflexivity].
  destruct (JsMap.get part (entries_of h e)); [apply IH | reflexivity].
Qed.

Lemma resolve_walk h p : resolve h p = walk h root (Path.segments p).
Proof. apply _lookup_parts_walk. Qed.

Lemma walk_app h e s1 s2 :
  walk h e (s1 ++ s2) =
  match walk h e s1 with Some e' => walk h e' s2 | None => None end.
Proof.
  revert e. induction s1 as [|s s1 IH]; intros e; cbn; [reflexivity|].
  destruct (is_Directory h e); [|reflexivity].
  destruct (JsMap.get s (entries_of h e)); [apply IH | reflexivity].
Qed.

Lemma walk_single h e s :
  walk h e [s] = if is_Directory h e then JsMap.get s (entries_of h e) else None.
Proof.
  cbn. destruct (is_Directory h e); [|reflexivity].
  destruct (JsMap.get s (entries_of h e)); reflexivity.
Qed.

Lemma segments_nonempty p s : In s (Path.segments p) -> s <> "".
Proof.
  unfold Path.segments. rewrite filter_In. intros [_ H] ->. discriminate.
Qed.

Lemma resolve_dir_Return h path parent :
  resolve_dir h path = Return parent ->
  walk h root (Path.segments path) = Some parent /\ is_Directory h parent = true.
Proof.
  unfold resolve_dir. rewrite resolve_walk.
  destruct (walk h root (Path.segments path)) as [e|]; [|discriminate].
  destruct (is_Directory h e) eqn:Hd; [|discriminate].
  intros H. injection H as ->. auto.
Qed.

(** ** The object store after rename *)

Lemma is_Directory_alter f r0 h r :
  (forall e, Entry_type (f e) = Entry_type e) ->
  is_Directory (alter f r0 h) r = is_Directory h r.
Proof.
  intros Hf. unfold is_Directory. rewrite list_lookup_alter.
  destruct (decide (r0 = r)) as [->|]; [|reflexivity].
  destruct (h !! r) as [e|]; [|reflexivity]. cbn.
  specialize (Hf e). destruct e, (f _); cbn in Hf; congruence.
Qed.

Lemma Entry_type_set_entries m e : Entry_type (Entry_set_entries m e) = Entry_type e.
Proof. destruct e; reflexivity. Qed.

Lemma Entry_type_set_name n e : Entry_type (Entry_set_name n e) = Entry_type e.
Proof. destruct e; reflexivity. Qed.

Lemma entries_of_alter_set_entries m r0 h r :
  is_Directory h r = true ->
  entries_of (alter (Entry_set_entries m) r0 h) r =
  if decide (r0 = r) then m (entries_of h r) else entries_of h r.
Proof.
  intros Hd. unfold entries_of. rewrite list_lookup_alter.
  destruct (decide (r0 = r)) as [->|]; [|reflexivity].
  apply is_Directory_Some in Hd. destruct Hd as (d & ->). reflexivity.
Qed.

Lemma entries_of_alter_set_name n r0 h r :
  entries_of (alter (Entry_set_name n) r0 h) r = entries_of h r.
Proof.
  unfold entries_of. rewrite list_lookup_alter.
  destruct (decide (r0 = r)) as [->|]; [|reflexivity].
  destruct (h !! r) as [[f|d]|]; reflexivity.
Qed.

Lemma is_Directory_rename_heap entry oldParent newParent newName h r :
  is_Directory (rename_heap entry oldParent newParent newName h) r = is_Directory h r.
Proof.
  unfold rename_heap.
  rewrite !is_Directory_alter;
    auto using Entry_type_set_entries, Entry_type_set_name.
Qed.

Lemma entries_of_rename_heap entry oldParent newParent newName h r :
  is_Directory h r = true ->
  entries_of (rename_heap entry oldParent newParent newName h) r =
  (if decide (newParent = r) then JsMap.set newName entry else fun m => m)
    ((if decide (oldParent = r) then JsMap.delete (name_of h entry) else fun m => m)
       (entries_of h r)).
Proof.
  intros Hd. unfold rename_heap.
  rewrite entries_of_alter_set_entries.
  2:{ rewrite !is_Directory_alter; auto using Entry_type_set_entries, Entry_type_set_name. }
  rewrite entries_of_alter_set_name, entries_of_alter_set_entries by exact Hd.
  destruct (decide (newParent = r)), (decide (oldParent = r)); reflexivity.
Qed.

Section RenameWalk.

Variable h : list Entry.
Variables entry oldParent newParent : ref.
Variables a b : string.
Hypothesis Hold_dir : is_Directory h oldParent = true.
Hypothesis Hold_get : JsMap.get a (entries_of h oldParent) = Some entry.
Hypothesis Hname : name_of h entry = a.
Hypothesis Hnew_dir : is_Directory h newParent = true.
Hypothesis Hnew_get : JsMap.get b (entries_of h newParent) = None.

Local Abbreviation renamed := (rename_heap entry oldParent newParent b h).

Lemma is_Directory_renamed r : is_Directory renamed r = is_Directory h r.
Proof. apply is_Directory_rename_heap. Qed.

(** One lookup step in the new store: the moved node hangs under its new
    name in the new parent, its old entry is gone, all else is as before. *)
Lemma get_rename_heap r s :
  is_Directory h r = true ->
  JsMap.get s (entries_of renamed r) =
  if decide (newParent = r /\ b = s) then Some entry
  else if decide (oldParent = r /\ a = s) then None
  else JsMap.get s (entries_of h r).
Proof.
  intros Hd. rewrite entries_of_rename_heap by exact Hd. rewrite Hname.
  destruct (decide (newParent = r /\ b = s)) as [[En Eb]|Hn].
  - destruct (decide (newParent = r)); [|contradiction].
    rewrite <- Eb. apply JsMap_get_set_eq.
  - destruct (decide (oldParent = r /\ a = s)) as [[Eo Ea]|Ho].
    + destruct (decide (oldParent = r)); [|contradiction].
      destruct (decide (newParent = r)) as [En|En].
      * rewrite JsMap_get_set_ne by (intros Eb; apply Hn; auto).
        rewrite <- Ea. apply JsMap_get_delete_eq.
      * rewrite <- Ea. apply JsMap_get_delete_eq.
    + destruct (decide (newParent = r)) as [En|En];
        destruct (decide (oldParent = r)) as [Eo|Eo].
      * rewrite JsMap_get_set_ne by (intros Eb; apply Hn; auto).
        now rewrite JsMap_get_delete_ne by (intros Ea; apply Ho; auto).
      * now rewrite JsMap_get_set_ne by (intros Eb; apply Hn; auto).
      * now rewrite JsMap_get_delete_ne by (intros Ea; apply Ho; auto).
      * reflexivity.
Qed.

Lemma old_new_distinct : ~ (oldParent = newParent /\ a = b).
Proof. intros [E1 E2]. congruence. Qed.

(** A walk that succeeded before the rename ends at the same object or
    fails. *)
Lemma walk_rename_weak segs : forall r t,
  walk h r segs = Some t -> walk renamed r segs = Some t \/ walk renamed r segs = None.
Proof.
  induction segs as [|s segs IH]; intros r t; cbn; [auto|].
  rewrite !is_Directory_renamed.
  destruct (is_Directory h r) eqn:Hd; [|discriminate].
  destruct (JsMap.get s (entries_of h r)) as [c|] eqn:Hget; [|discriminate].
  intros Hw. rewrite (get_rename_heap r s Hd).
  destruct (decide (newParent = r /\ b = s)) as [[En Eb]|]; [congruence|].
  destruct (decide (oldParent = r /\ a = s)); [now right|].
  rewrite Hget. now apply IH.
Qed.

(** A walk that does not go through the moved node is not affected. *)
Lemma walk_rename_avoid segs : forall r t,
  walk h r segs = Some t ->
  ~ In entry (walk_nodes h r segs) ->
  walk renamed r segs = Some t.
Proof.
  induction segs as [|s segs IH]; intros r t; cbn; [auto|].
  rewrite !is_Directory_renamed.
  destruct (is_Directory h r) eqn:Hd; [|discriminate].
  destruct (JsMap.get s (entries_of h r)) as [c|] eqn:Hget; [|discriminate].
  intros Hw Hnot. rewrite (get_rename_heap r s Hd).
  destruct (decide (newParent = r /\ b = s)) as [[En Eb]|]; [congruence|].
  destruct (decide (oldParent = r /\ a = s)) as [[Eo Ea]|].
  - exfalso. apply Hnot. right.
    assert (Hc : c = entry) by congruence. rewrite Hc.
    destruct segs; cbn; now left.
  - rewrite Hget. apply IH; [exact Hw|]. intros Hin. apply Hnot. now right.
Qed.

Lemma walk_rename_old sA :
  walk h root sA = Some oldParent -> walk renamed root (sA ++ [a]) = None.
Proof.
  intros Hw. rewrite walk_app.
  destruct (walk_rename_weak sA root oldParent Hw) as [-> | ->]; [|reflexivity].
  rewrite walk_single, is_Directory_renamed, Hold_dir.
  rewrite (get_rename_heap oldParent a Hold_dir).
  destruct (decide (newParent = oldParent /\ b = a)) as [[E1 E2]|].
  - exfalso. apply old_new_distinct. auto.
  - destruct (decide (oldParent = oldParent /\ a = a)) as [|Hn]; [reflexivity|].
    exfalso. apply Hn. auto.
Qed.

Lemma walk_rename_new sB :
  walk h root sB = Some newParent ->
  ~ In entry (walk_nodes h root sB) ->
  walk renamed root (sB ++ [b]) = Some entry.
Proof.
  intros Hw Hnot. rewrite walk_app, (walk_rename_avoid sB root newParent Hw Hnot).
  rewrite walk_single, is_Directory_renamed, Hnew_dir.
  rewrite (get_rename_heap newParent b Hnew_dir).
  destruct (decide (newParent = newParent /\ b = b)) as [|Hn]; [reflexivity|].
  exfalso. apply Hn. auto.
Qed.

End RenameWalk.

Lemma Entry_name_set_entries m e : Entry_name (Entry_set_entries m e) = Entry_name e.
Proof. destruct e; reflexivity. Qed.

Lemma Entry_name_set_name n e : Entry_name (Entry_set_name n e) = n.
Proof. destruct e; reflexivity. Qed.

Lemma lookup_alter_Some (f : Entry -> Entry) (r0 r : ref) (h : list Entry) e :
  h !! r = Some e ->
  alter f r0 h !! r = Some (if decide (r0 = r) then f e else e).
Proof.
  intros He. destruct (decide (r0 = r)) as [->|Hne].
  - now rewrite list_lookup_alter_eq, He.
  - now rewrite list_lookup_alter_ne.
Qed.

Lemma name_of_rename_heap (entry oldParent newParent : ref) newName (h : list Entry) e :
  h !! entry = Some e ->
  name_of (rename_heap entry oldParent newParent newName h) entry = newName.
Proof.
  intros He. unfold name_of, rename_heap.
  pose proof (lookup_alter_Some
                (Entry_set_entries (JsMap.delete (name_of h entry))) oldParent entry h e He) as H1.
  pose proof (lookup_alter_Some (Entry_set_name newName) entry entry _ _ H1) as H2.
  pose proof (lookup_alter_Some
                (Entry_set_entries (JsMap.set newName entry)) newParent entry _ _ H2) as H3.
  rewrite H3. destruct (decide (entry = entry)); [|congruence].
  destruct (decide (newParent = entry)), (decide (oldParent = entry));
    rewrite ?Entry_name_set_entries; apply Entry_name_set_name.
Qed.

Lemma lookup_rename_heap_File (entry oldParent newParent : ref) newName (h : list Entry) f :
  h !! entry = Some (EFile f) ->
  rename_heap entry oldParent newParent newName h !! entry =
  Some (EFile (File.mk newName (File.ctime f) (File.mtime f) (File.size f) (File.data f))).
Proof.
  intros He. unfold rename_heap.
  pose proof (lookup_alter_Some
                (Entry_set_entries (JsMap.delete (name_of h entry))) oldParent entry h _ He) as H1.
  pose proof (lookup_alter_Some (Entry_set_name newName) entry entry _ _ H1) as H2.
  pose proof (lookup_alter_Some
                (Entry_set_entries (JsMap.set newName entry)) newParent entry _ _ H2) as H3.
  rewrite H3. destruct (decide (entry = entry)); [|congruence].
  destruct (decide (newParent = entry)), (decide (oldParent = entry)); reflexivity.
Qed.

Lemma name_of_Some (h : list Entry) (r : ref) : name_of h r <> "" -> exists e, h !! r = Some e.
Proof.
  unfold name_of. destruct (h !! r) as [e|]; [eauto | congruence].
Qed.

Lemma segments_snoc p :
  Path.segments p <> [] ->
  Path.segments p = removelast (Path.segments p) ++ [List.last (Path.segments p) ""].
Proof. intros H. now apply app_removelast_last. Qed.

Lemma last_In {A} (l : list A) d : l <> [] -> In (List.last l d) l.
Proof.
  induction l as [|x l IH]; [congruence|]. intros _.
  destruct l as [|y l]; [now left|]. right. apply IH. discriminate.
Qed.

(** ** rename *)

(** C3 (as the code has it). With [overwrite] false, [rename] throws
    FileExists when the new path resolves.  When the call returns normally
    for absolute paths, where the old path has a final segment, the node it
    resolves to carries that segment as its name and does not lie on the way
    from the root to the new path's parent container, then afterwards the
    old path no longer resolves, the new path resolves to the very node that
    was at the old path, the node's name is the new path's final segment, and
    a File keeps its times, size and payload. *)
Theorem rename_moves_node (st : IcrFS) (oldPath newPath : string) :
  (forall target,
      resolve (heap st) newPath = Some target ->
      rename oldPath newPath false st = (Throw FileExists, st)) /\
  (forall st' entry,
      rename oldPath newPath false st = (Return tt, st') ->
      Path.absolute oldPath ->
      Path.absolute newPath ->
      resolve (heap st) oldPath = Some entry ->
      Path.segments oldPath <> [] ->
      name_of (heap st) entry = Path.basename oldPath ->
      ~ In entry (walk_nodes (heap st) root (Path.segments (Path.dirname newPath))) ->
      resolve (heap st') oldPath = None /\
      resolve (heap st') newPath = Some entry /\
      name_of (heap st') entry = Path.basename newPath /\
      (forall f,
          heap st !! entry = Some (EFile f) ->
          heap st' !! entry =
          Some (EFile (File.mk (Path.basename newPath) (File.ctime f) (File.mtime f)
                         (File.size f) (File.data f))))).
Proof.
  split.
  { intros target Ht. rewrite rename_eq. cbn [negb]. now rewrite Ht. }
  intros st' entry Hr Habs Hbabs Hres Hseg Hname Hnot.
  rewrite rename_eq in Hr. cbn [negb] in Hr.
  destruct (resolve (heap st) newPath) eqn:Hnew; [discriminate|].
  rewrite Hres in Hr.
  destruct (resolve_dir (heap st) (Path.dirname oldPath)) as [oldParent|] eqn:Hop; [|discriminate].
  destruct (resolve_dir (heap st) (Path.dirname newPath)) as [newParent|] eqn:Hnp; [|discriminate].
  injection Hr as <-. cbn [snd]. rewrite heap_fireSoon, heap_set_heap.
  apply resolve_dir_Return in Hop, Hnp.
  destruct Hop as (Hwo & Hdo). destruct Hnp as (Hwn & Hdn).
  rewrite PathFacts.segments_dirname in Hwo, Hwn, Hnot by assumption.
  rewrite !resolve_walk. rewrite resolve_walk in Hres, Hnew.
  assert (Hsegb : Path.segments newPath <> []).
  { intros E. rewrite E in Hnew. discriminate. }
  rewrite (PathFacts.basename_last _ Habs) in Hname.
  rewrite (PathFacts.basename_last _ Hbabs).
  pose proof (segments_snoc _ Hseg) as Ea. pose proof (segments_snoc _ Hsegb) as Eb.
  set (sA := removelast (Path.segments oldPath)) in *.
  set (a := List.last (Path.segments oldPath) "") in *.
  set (sB := removelast (Path.segments newPath)) in *.
  set (b := List.last (Path.segments newPath) "") in *.
  rewrite Ea in Hres. rewrite Eb in Hnew.
  rewrite walk_app, Hwo, walk_single, Hdo in Hres.
  rewrite walk_app, Hwn, walk_single, Hdn in Hnew.
  split; [|split; [|split]].
  - rewrite Ea. now apply (walk_rename_old (heap st) entry oldParent newParent a b).
  - rewrite Eb. now apply (walk_rename_new (heap st) entry oldParent newParent a b).
  - destruct (name_of_Some (heap st) entry) as (e & He).
    { rewrite Hname. apply (segments_nonempty oldPath). apply last_In, Hseg. }
    now apply (name_of_rename_heap _ _ _ _ _ e).
  - intros f Hf. now apply lookup_rename_heap_File.
Qed.

Lemma rename_moves_node_witness :
  let st' := snd (rename "/Common/test.irul" "/test.irul" false connected_fs) in
  resolve (heap st') "/Common/test.irul" = None /\
  resolve (heap st') "/test.irul" = Some 2%nat /\
  name_of (heap st') 2%nat = "test.irul" /\
  (forall f,
      heap connected_fs !! 2%nat = Some (EFile f) ->
      heap st' !! 2%nat =
      Some (EFile (File.mk "test.irul" (File.ctime f) (File.mtime f) (File.size f) (File.data f)))).
Proof.
  apply (proj2 (rename_moves_node connected_fs "/Common/test.irul" "/test.irul")
           (snd (rename "/Common/test.irul" "/test.irul" false connected_fs)) 2%nat).
  - reflexivity.
  - reflexivity.
  - reflexivity.
  - reflexivity.
  - vm_compute. discriminate.
  - reflexivity.
  - vm_compute. intros [H|[]]. discriminate.
Defined.

(** C3 (as stated) fails.  Moving a container under itself returns normally
    although nothing is at the new path before the call, and afterwards the
    new path does not resolve: the container is detached from the root and
    holds itself.  Renaming the root returns normally and the old path still
    resolves. *)
Lemma rename_into_own_subtree :
  resolve (heap connected_fs) "/Common" = Some 1%nat /\
  resolve (heap connected_fs) "/Common/b" = None /\
  fst (rename "/Common" "/Common/b" false connected_fs) = Return tt /\
  resolve (heap (snd (rename "/Common" "/Common/b" false connected_fs))) "/Common/b" = None /\
  entries_of (heap (snd (rename "/Common" "/Common/b" false connected_fs))) 1%nat
    = [("test.irul", 2%nat); ("b", 1%nat)] /\
  fst (rename "/" "/b" false (IcrFS_new 0)) = Return tt /\
  resolve (heap (snd (rename "/" "/b" false (IcrFS_new 0)))) "/" = Some root.
Proof. vm_compute. repeat split; reflexivity. Qed.

(** * Further properties of the code *)

(** ** Readers *)

Lemma stat_eq path st :
  stat path st =
  (match resolve (heap st) path with
   | Some e => Return (heap st !! e)
   | None => Throw FileNotFound
   end, st).
Proof.
  unfold stat. unfold bind at 1. rewrite _lookup_strict.
  destruct (resolve (heap st) path); reflexivity.
Qed.

Lemma readDirectory_eq path st :
  readDirectory path st =
  (match resolve_dir (heap st) path with
   | Return entry =>
       Return (flat_map
                 (fun kv =>
                    if negb (Path.nonempty (fst kv)) then []
                    else match heap st !! snd kv with
                         | Some child => [(fst kv, Entry_type child)]
                         | None => []
                         end)
                 (entries_of (heap st) entry))
   | Throw e => Throw e
   end, st).
Proof.
  unfold readDirectory. unfold bind at 1. rewrite _lookupAsDirectory_resolve_dir.
  destruct (resolve_dir (heap st) path); reflexivity.
Qed.

Lemma _lookupAsFile_eq path st :
  _lookupAsFile path false st =
  (match resolve (heap st) path with
   | Some e => if is_File (heap st) e then Return e else Throw FileIsADirectory
   | None => Throw FileNotFound
   end, st).
Proof.
  unfold _lookupAsFile. unfold bind at 1. rewrite _lookup_strict.
  destruct (resolve (heap st) path) as [e|]; [|reflexivity].
  unfold_monad. destruct (is_File (heap st) e); reflexivity.
Qed.

Lemma readFile_eq path st :
  readFile path st =
  (match resolve (heap st) path with
   | Some e =>
       match heap st !! e with
       | Some (EFile f) =>
           match File.data f with
           | Some bytes => Return bytes
           | None => Throw FileNotFound
           end
       | _ => Throw FileIsADirectory
       end
   | None => Throw FileNotFound
   end, st).
Proof.
  unfold readFile. unfold bind at 1. rewrite _lookupAsFile_eq.
  destruct (resolve (heap st) path) as [e|]; [|reflexivity].
  unfold is_File. destruct (heap st !! e) as [[f|d]|] eqn:He; try reflexivity.
  unfold_monad. cbn. rewrite He. destruct (File.data f); reflexivity.
Qed.

(** X1. The three readers never change the instance: whatever they return or
    throw, the tree, the pending batch, the timers and the request log are
    as before the call. *)
Theorem readers_leave_state (path : string) (st : IcrFS) :
  snd (stat path st) = st /\
  snd (readDirectory path st) = st /\
  snd (readFile path st) = st.
Proof.
  rewrite stat_eq, readDirectory_eq, readFile_eq. auto.
Qed.

(** X2. Which error a reader reports.  A path that does not resolve gives
    FileNotFound from all three.  [readDirectory] on a path that resolves to
    a File gives FileNotADirectory, [readFile] on a path that resolves to a
    Directory gives FileIsADirectory; [stat] returns the node of any path
    that resolves. *)
Theorem readers_errors (path : string) (st : IcrFS) :
  match resolve (heap st) path with
  | None =>
      fst (stat path st) = Throw FileNotFound /\
      fst (readDirectory path st) = Throw FileNotFound /\
      fst (readFile path st) = Throw FileNotFound
  | Some e =>
      fst (stat path st) = Return (heap st !! e) /\
      (is_File (heap st) e = true -> fst (readDirectory path st) = Throw FileNotADirectory) /\
      (is_Directory (heap st) e = true -> fst (readFile path st) = Throw FileIsADirectory)
  end.
Proof.
  rewrite stat_eq, readDirectory_eq, readFile_eq. unfold resolve_dir.
  destruct (resolve (heap st) path) as [e|]; cbn; [|auto].
  split; [reflexivity|]. unfold is_File, is_Directory.
  destruct (heap st !! e) as [[f|d]|]; split; intros H; try discriminate; reflexivity.
Qed.

Lemma readers_errors_witness :
  fst (stat "/Common/test.irul" connected_fs)
    = Return (Some (EFile (File.mk "test.irul" 0 0 2 (Some (Buffer_from "ab"))))) /\
  fst (readDirectory "/Common/test.irul" connected_fs) = Throw FileNotADirectory /\
  fst (readFile "/Common" connected_fs) = Throw FileIsADirectory.
Proof.
  pose proof (readers_errors "/Common/test.irul" connected_fs) as H1.
  pose proof (readers_errors "/Common" connected_fs) as H2.
  cbn in H1, H2. destruct H1 as (Hs & Hd & _). destruct H2 as (_ & _ & Hf).
  split; [exact Hs|]. split; [apply Hd; reflexivity | apply Hf; reflexivity].
Defined.

(** ** Resolution along a path *)

Lemma list_ascii_of_string_app s t :
  list_ascii_of_string (s ++ t)%string = list_ascii_of_string s ++ list_ascii_of_string t.
Proof. induction s as [|c s IH]; simpl; [reflexivity | now rewrite IH]. Qed.

Lemma segments_app_slash p q :
  Path.segments (p ++ "/" ++ q)%string = Path.segments p ++ Path.segments q.
Proof.
  rewrite !PathFacts.segments_segments_chars, !list_ascii_of_string_app.
  cbn [list_ascii_of_string app].
  rewrite (PathFacts.segments_chars_app_slash _ "/"%char) by reflexivity.
  apply map_app.
Qed.

(** X3. Resolution composes along a slash: resolving [p/q] is resolving [p]
    and continuing the loop of [_lookup] from there over the parts of [q].
    Hence a trailing slash changes nothing, and below a node that is not a
    Directory no path with a further segment resolves. *)
Lemma resolve_slash (h : list Entry) (p q : string) :
  resolve h (p ++ "/" ++ q)%string =
  match resolve h p with
  | Some e => _lookup_parts h e (Path.split q)
  | None => None
  end.
Proof.
  rewrite !resolve_walk, segments_app_slash, walk_app.
  destruct (walk h root (Path.segments p)) as [e|]; [|reflexivity].
  now rewrite _lookup_parts_walk.
Qed.

Theorem resolve_compose (h : list Entry) (p q : string) :
  resolve h (p ++ "/" ++ q)%string =
    match resolve h p with
    | Some e => _lookup_parts h e (Path.split q)
    | None => None
    end /\
  resolve h (p ++ "/")%string = resolve h p /\
  (forall e, resolve h p = Some e -> is_Directory h e = false ->
             Path.segments q <> [] -> resolve h (p ++ "/" ++ q)%string = None).
Proof.
  assert (Hc : resolve h (p ++ "/" ++ q)%string =
               match resolve h p with
               | Some e => _lookup_parts h e (Path.split q)
               | None => None
               end).
  { apply resolve_slash. }
  split; [exact Hc|]. split.
  - rewrite !resolve_walk. change (p ++ "/")%string with (p ++ "/" ++ "")%string.
    rewrite segments_app_slash. cbn. now rewrite app_nil_r.
  - intros e He Hd Hq. rewrite Hc, He, _lookup_parts_walk.
    fold (Path.segments q). destruct (Path.segments q) as [|s segs]; [congruence|].
    cbn. now rewrite Hd.
Qed.

Lemma resolve_compose_witness :
  resolve (heap connected_fs) "/Common/test.irul/x" = None.
Proof.
  apply (proj2 (proj2 (resolve_compose (heap connected_fs) "/Common/test.irul" "x")) 2%nat).
  - reflexivity.
  - reflexivity.
  - vm_compute. discriminate.
Defined.

(** ** What a mutator leaves alone *)

Lemma set_heap_heap st : set_heap (heap st) st = st.
Proof. destruct st; reflexivity. Qed.

(** The shape of the state after a mutator call: unchanged, or the tree
    replaced and one or two [_fireSoon] calls made. *)
Lemma run_mutator_shape c st :
  snd (run_mutator c st) = st \/
  (exists h evs, snd (run_mutator c st) = snd (_fireSoon evs (set_heap h st))) \/
  (exists h1 evs1 h2 evs2,
      snd (run_mutator c st) =
      snd (_fireSoon evs2 (set_heap h2 (snd (_fireSoon evs1 (set_heap h1 st)))))).
Proof.
  destruct (run_mutator c st) as [[[]|e] st'] eqn:Hr; cbn [snd].
  2:{ left. destruct c; cbn [run_mutator] in Hr.
      - exact (createDirectory_Throw _ _ _ _ Hr).
      - exact (cacheRule_Throw _ _ _ _ _ _ _ Hr).
      - exact (rename_Throw _ _ _ _ _ _ Hr).
      - exact (delete_Throw _ _ _ _ Hr). }
  right.
  destruct c as [path|path content create overwrite|oldPath newPath overwrite|path];
    cbn [run_mutator] in Hr.
  - destruct (_lookupAsDirectory (Path.dirname path) false st) as [[parent|e0] st1] eqn:Hl.
    + destruct (_lookupAsDirectory_Return _ _ _ _ Hl) as (-> & _ & _).
      rewrite (createDirectory_Return _ _ _ Hl) in Hr. injection Hr as <-.
      left. eauto.
    + unfold createDirectory in Hr. unfold bind at 1 in Hr. rewrite Hl in Hr. discriminate.
  - destruct (cacheRule_Return_notifier _ _ _ _ _ _ Hr) as (h' & [-> | ->]).
    + left. eauto.
    + right. exists (heap st), [mkEvent Created path], h', [mkEvent Changed path].
      now rewrite set_heap_heap.
  - rewrite rename_eq in Hr.
    destruct (if negb overwrite then resolve (heap st) newPath else None); [discriminate|].
    destruct (resolve (heap st) oldPath); [|discriminate].
    destruct (resolve_dir (heap st) (Path.dirname oldPath)); [|discriminate].
    destruct (resolve_dir (heap st) (Path.dirname newPath)); [|discriminate].
    injection Hr as <-. left. eauto.
  - destruct (_lookupAsDirectory (Path.dirname path) false st) as [[parent|e0] st1] eqn:Hl.
    + destruct (_lookupAsDirectory_Return _ _ _ _ Hl) as (-> & _ & _).
      destruct (JsMap.has (Path.basename path) (entries_of (heap st) parent)) eqn:Hhas.
      * rewrite (delete_Return _ _ _ Hl Hhas) in Hr. injection Hr as <-. left. eauto.
      * unfold delete in Hr. unfold bind at 1 in Hr. rewrite Hl in Hr.
        unfold bind at 1 in Hr. unfold get_state at 1 in Hr. rewrite Hhas in Hr. discriminate.
    + unfold delete in Hr. unfold bind at 1 in Hr. rewrite Hl in Hr. discriminate.
Qed.

(** X4. A tree mutator works on the tree and the notifier only: it hands no
    request to the HTTP client, leaves [options] alone, makes no delivery
    during the call (all notification is deferred to the timer) and never
    shortens the pending batch. *)
Theorem mutators_frame (c : MutatorCall) (st : IcrFS) :
  requests (snd (run_mutator c st)) = requests st /\
  options (snd (run_mutator c st)) = options st /\
  fired (snd (run_mutator c st)) = fired st /\
  now (snd (run_mutator c st)) = now st /\
  exists records, _bufferedEvents (snd (run_mutator c st)) = _bufferedEvents st ++ records.
Proof.
  destruct (run_mutator_shape c st)
    as [-> | [(h & evs & ->) | (h1 & evs1 & h2 & evs2 & ->)]].
  - repeat split; try reflexivity. exists []. now rewrite app_nil_r.
  - rewrite _fireSoon_eq. cbn. repeat split; try reflexivity. eauto.
  - rewrite !_fireSoon_eq. cbn. repeat split; try reflexivity.
    exists (evs1 ++ evs2). now rewrite app_assoc.
Qed.

(** ** The connect command and its configuration *)

(** X5. The connect command sets [initialized] before it looks at the
    configuration.  With the hostname, the username or the password empty it
    throws EvalError and issues no request, yet the flag is set: from then on
    the command does nothing, whatever configuration it is given. *)
Theorem connect_command_missing_configuration
  (hostname user pass : string) (validateCert : bool) (x : Extension) :
  initialized x = false ->
  hostname = "" \/ user = "" \/ pass = "" ->
  exists x',
    connect_command hostname user pass validateCert x = (Throw EvalError, x') /\
    icrFs x' = icrFs x /\
    initialized x' = true /\
    forall h u p v, connect_command h u p v x' = (Return tt, x').
Proof.
  intros Hi Hc. unfold connect_command at 1. rewrite Hi.
  exists (mkExtension (icrFs x) true (uncaught x)).
  split.
  - destruct Hc as [-> | [-> | ->]].
    + reflexivity.
    + destruct (String.eqb hostname ""); reflexivity.
    + destruct (String.eqb hostname ""); [reflexivity|].
      destruct (String.eqb user ""); reflexivity.
  - split; [reflexivity|]. split; [reflexivity|]. intros h u p v. reflexivity.
Qed.

Lemma connect_command_missing_configuration_witness :
  exists x',
    connect_command "bigip" "admin" "" false (Extension_new 0) = (Throw EvalError, x') /\
    icrFs x' = icrFs (Extension_new 0) /\
    initialized x' = true /\
    forall h u p v, connect_command h u p v x' = (Return tt, x').
Proof.
  apply (connect_command_missing_configuration "bigip" "admin" "" false (Extension_new 0)).
  - reflexivity.
  - right. right. reflexivity.
Defined.

(** ** No record is lost or delivered twice *)

Lemma fire_callback_conserves st :
  concat (fired (fire_callback st)) ++ _bufferedEvents (fire_callback st) =
  concat (fired st) ++ _bufferedEvents st.
Proof. cbn. rewrite concat_app. cbn. now rewrite !app_nil_r. Qed.

Lemma fold_fire_callback_conserves (l : list (nat * Z)) st :
  concat (fired (fold_left (fun s _ => fire_callback s) l st))
    ++ _bufferedEvents (fold_left (fun s _ => fire_callback s) l st) =
  concat (fired st) ++ _bufferedEvents st.
Proof.
  revert st. induction l as [|t l IH]; intros st; cbn; [reflexivity|].
  rewrite IH. apply fire_callback_conserves.
Qed.

Lemma run_timers_conserves st :
  concat (fired (run_timers st)) ++ _bufferedEvents (run_timers st) =
  concat (fired st) ++ _bufferedEvents st.
Proof. unfold run_timers. now rewrite fold_fire_callback_conserves. Qed.

Lemma notifier_step_conserves s st :
  concat (fired (notifier_step s st)) ++ _bufferedEvents (notifier_step s st) =
  (concat (fired st) ++ _bufferedEvents st) ++ queued s.
Proof.
  destruct s as [events|dt|]; cbn [notifier_step queued].
  - rewrite _fireSoon_eq. cbn. now rewrite app_assoc.
  - cbn. now rewrite app_nil_r.
  - rewrite run_timers_conserves. now rewrite app_nil_r.
Qed.

(** X6. The notifier neither loses nor repeats a record.  Over any sequence
    of [_fireSoon] calls, passing time and turns of the event loop, the
    deliveries made so far, one after the other, followed by the pending
    batch are exactly the records queued so far, in the order they were
    queued. *)
Theorem notifier_conserves_records (steps : list NotifierStep) (st : IcrFS) :
  concat (fired (fold_left (fun s step => notifier_step step s) steps st))
    ++ _bufferedEvents (fold_left (fun s step => notifier_step step s) steps st) =
  (concat (fired st) ++ _bufferedEvents st) ++ concat (map queued steps).
Proof.
  revert st. induction steps as [|s steps IH]; intros st; cbn [fold_left map concat].
  - now rewrite app_nil_r.
  - rewrite IH, notifier_step_conserves. now rewrite app_assoc.
Qed.

(** X7. Debouncing can starve the listener: as long as records keep arriving
    less than 5 ms apart, the event loop never makes a delivery, however many
    turns it takes; the records only pile up in the batch. *)
Theorem debounce_starves (stream : list (list FileChangeEvent * Z)) (st : IcrFS) :
  single_timer st = true ->
  Forall (fun ev => snd ev < 5) stream ->
  fired (fold_left (fun s step => notifier_step step s) (stream_steps stream) st) = fired st /\
  _bufferedEvents (fold_left (fun s step => notifier_step step s) (stream_steps stream) st)
    = _bufferedEvents st ++ concat (map fst stream).
Proof.
  revert st. induction stream as [|[evs dt] stream IH]; intros st Hs Hall.
  - cbn. now rewrite app_nil_r.
  - inversion Hall as [|? ? Hdt Hall']; subst. cbn in Hdt.
    cbn [stream_steps flat_map app fold_left notifier_step fst snd].
    pose proof (fireSoon_armed evs st Hs) as Harm.
    destruct (run_timers_armed_early _ dt Harm Hdt) as [Hf Hb].
    destruct (IH (run_timers (elapse dt (snd (_fireSoon evs st))))) as [Hf' Hb'].
    + apply single_timer_run_timers. rewrite single_timer_elapse.
      now apply armed_single_timer.
    + exact Hall'.
    + fold (stream_steps stream). rewrite Hf', Hb', Hf, Hb.
      rewrite _fireSoon_eq. cbn. now rewrite app_assoc.
Qed.

Lemma debounce_starves_witness :
  fired (fold_left (fun s step => notifier_step step s)
           (stream_steps (repeat ([mkEvent Changed "/a"], 4) 10)) (IcrFS_new 0)) = [] /\
  _bufferedEvents (fold_left (fun s step => notifier_step step s)
                     (stream_steps (repeat ([mkEvent Changed "/a"], 4) 10)) (IcrFS_new 0))
    = [] ++ concat (map fst (repeat ([mkEvent Changed "/a"], 4) 10)).
Proof.
  apply (debounce_starves (repeat ([mkEvent Changed "/a"], 4) 10) (IcrFS_new 0)).
  - reflexivity.
  - repeat constructor.
Defined.

(** ** References stay inside the object store *)

Lemma closed_heap_spec h : closed_heap h = true <-> heap_closed h.
Proof.
  unfold closed_heap, heap_closed. rewrite forallb_forall. split.
  - intros H e He kv Hkv. specialize (H e He). rewrite forallb_forall in H.
    specialize (H kv Hkv). now apply Nat.ltb_lt in H.
  - intros H e He. rewrite forallb_forall. intros kv Hkv.
    apply Nat.ltb_lt. now apply (H e He).
Qed.

Lemma JsMap_get_In {V} k (v : V) m : JsMap.get k m = Some v -> In (k, v) m.
Proof.
  induction m as [|[k' v'] m IH]; cbn; [discriminate|].
  destruct (String.eqb k' k) eqn:E.
  - apply String.eqb_eq in E. subst k'. intros H. injection H as ->. now left.
  - intros H. right. auto.
Qed.

Lemma JsMap_In_set {V} k (v : V) m kv :
  In kv (JsMap.set k v m) -> kv = (k, v) \/ In kv m.
Proof.
  induction m as [|[k' v'] m IH]; cbn.
  - intros [<-|[]]. now left.
  - destruct (String.eqb k' k); cbn.
    + intros [<-|H]; [now left | right; now right].
    + intros [<-|H]; [right; now left|]. destruct (IH H) as [->|H']; [now left | right; now right].
Qed.

Lemma JsMap_In_delete {V} k (m : list (string * V)) kv :
  In kv (JsMap.delete k m) -> In kv m.
Proof.
  induction m as [|[k' v'] m IH]; cbn; [auto|].
  destruct (String.eqb k' k); cbn.
  - intros H. right. auto.
  - intros [<-|H]; [now left | right; auto].
Qed.

Lemma lookup_In (h : list Entry) (r : ref) e : h !! r = Some e -> In e h.
Proof. intros H. apply list_elem_of_In. eapply list_elem_of_lookup_2. exact H. Qed.

Lemma heap_closed_get (h : list Entry) (r : ref) k c :
  heap_closed h -> JsMap.get k (entries_of h r) = Some c -> (c < List.length h)%nat.
Proof.
  intros Hc Hget. unfold entries_of in Hget.
  destruct (h !! r) as [[f|d]|] eqn:Hr; try discriminate.
  apply (Hc (EDirectory d) (lookup_In _ _ _ Hr) (k, c)). cbn. now apply JsMap_get_In.
Qed.

Lemma heap_closed_alter f (r : ref) (h : list Entry) :
  heap_closed h ->
  (forall e kv, In kv (Entry_entries (f e)) ->
                In kv (Entry_entries e) \/ (snd kv < List.length h)%nat) ->
  heap_closed (alter f r h).
Proof.
  intros Hc Hf e' He' kv Hkv. rewrite length_alter.
  apply list_elem_of_In, list_elem_of_lookup_1 in He'. destruct He' as (i & Hi).
  rewrite list_lookup_alter in Hi. destruct (decide (r = i)) as [->|Hne].
  - destruct (h !! i) as [e|] eqn:Hei; [|discriminate]. cbn in Hi. injection Hi as <-.
    destruct (Hf e kv Hkv) as [H|H]; [|exact H].
    exact (Hc e (lookup_In _ _ _ Hei) kv H).
  - exact (Hc e' (lookup_In _ _ _ Hi) kv Hkv).
Qed.

Lemma heap_closed_app e (h : list Entry) :
  heap_closed h ->
  (forall kv, In kv (Entry_entries e) -> (snd kv < S (List.length h))%nat) ->
  heap_closed (h ++ [e]).
Proof.
  intros Hc He e' He' kv Hkv. rewrite length_app. cbn. rewrite Nat.add_1_r.
  apply in_app_or in He'. destruct He' as [H|[<-|[]]].
  - specialize (Hc e' H kv Hkv). lia.
  - now apply He.
Qed.

Lemma Entry_entries_set_mtime t e : Entry_entries (Entry_set_mtime t e) = Entry_entries e.
Proof. destruct e; reflexivity. Qed.

Lemma Entry_entries_set_size s e : Entry_entries (Entry_set_size s e) = Entry_entries e.
Proof. destruct e; reflexivity. Qed.

Lemma Entry_entries_set_data c e : Entry_entries (Entry_set_data c e) = Entry_entries e.
Proof. destruct e; reflexivity. Qed.

Lemma Entry_entries_set_name n e : Entry_entries (Entry_set_name n e) = Entry_entries e.
Proof. destruct e; reflexivity. Qed.

Lemma Entry_entries_set_entries m e kv :
  In kv (Entry_entries (Entry_set_entries m e)) -> In kv (m (Entry_entries e)).
Proof. destruct e; cbn; [intros [] | auto]. Qed.

Lemma heap_closed_alter_keep f (r : ref) (h : list Entry) :
  (forall e, Entry_entries (f e) = Entry_entries e) ->
  heap_closed h -> heap_closed (alter f r h).
Proof.
  intros Hf Hc. apply heap_closed_alter; [exact Hc|].
  intros e kv Hkv. left. now rewrite Hf in Hkv.
Qed.

Lemma heap_closed_store_payload content t (entry : ref) (h : list Entry) :
  heap_closed h -> heap_closed (store_payload content t entry h).
Proof.
  intros Hc. unfold store_payload.
  apply heap_closed_alter_keep; [apply Entry_entries_set_data|].
  apply heap_closed_alter_keep; [apply Entry_entries_set_size|].
  apply heap_closed_alter_keep; [apply Entry_entries_set_mtime | exact Hc].
Qed.

Lemma heap_closed_insert (b : string) (c parent : ref) (h : list Entry) :
  heap_closed h -> (c < List.length h)%nat ->
  heap_closed (alter (Entry_set_entries (JsMap.set b c)) parent h).
Proof.
  intros Hc Hlt. apply heap_closed_alter; [exact Hc|].
  intros e kv Hkv. apply Entry_entries_set_entries, JsMap_In_set in Hkv.
  destruct Hkv as [->|H]; [right; exact Hlt | now left].
Qed.

Lemma heap_closed_remove (b : string) (parent : ref) (h : list Entry) :
  heap_closed h -> heap_closed (alter (Entry_set_entries (JsMap.delete b)) parent h).
Proof.
  intros Hc. apply heap_closed_alter; [exact Hc|].
  intros e kv Hkv. apply Entry_entries_set_entries, JsMap_In_delete in Hkv. now left.
Qed.

Lemma heap_closed_alloc e (b : string) (parent : ref) (h : list Entry) :
  heap_closed h -> Entry_entries e = [] ->
  heap_closed (alter (Entry_set_entries (JsMap.set b (List.length h))) parent (h ++ [e])).
Proof.
  intros Hc He. apply heap_closed_insert.
  - apply heap_closed_app; [exact Hc|]. rewrite He. intros kv [].
  - rewrite length_app. cbn. lia.
Qed.

(** A walk in a closed store ends inside the store. *)
Lemma walk_closed (h : list Entry) segs : forall r t,
  heap_closed h -> (r < List.length h)%nat -> walk h r segs = Some t -> (t < List.length h)%nat.
Proof.
  induction segs as [|s segs IH]; intros r t Hc Hr; cbn.
  - intros H. now injection H as <-.
  - destruct (is_Directory h r); [|discriminate].
    destruct (JsMap.get s (entries_of h r)) as [c|] eqn:Hget; [|discriminate].
    apply IH; [exact Hc|]. exact (heap_closed_get _ _ _ _ Hc Hget).
Qed.

Lemma is_Directory_lt (h : list Entry) (r : ref) :
  is_Directory h r = true -> (r < List.length h)%nat.
Proof.
  intros (d & Hd)%is_Directory_Some. exact (lookup_lt_Some _ _ _ Hd).
Qed.

Lemma heap_closed_rename (entry oldParent newParent : ref) (b : string) (h : list Entry) :
  heap_closed h -> (entry < List.length h)%nat ->
  heap_closed (rename_heap entry oldParent newParent b h).
Proof.
  intros Hc Hlt. unfold rename_heap. apply heap_closed_insert.
  - apply heap_closed_alter_keep; [apply Entry_entries_set_name|].
    now apply heap_closed_remove.
  - now rewrite !length_alter.
Qed.

Lemma resolve_closed (h : list Entry) path entry parent :
  heap_closed h -> is_Directory h parent = true ->
  resolve h path = Some entry -> (entry < List.length h)%nat.
Proof.
  intros Hc Hd Hr. rewrite resolve_walk in Hr.
  apply (walk_closed h (Path.segments path) root entry Hc); [|exact Hr].
  apply is_Directory_lt in Hd. unfold root. lia.
Qed.

Lemma closed_heap_run_mutator c st :
  closed_heap (heap st) = true -> closed_heap (heap (snd (run_mutator c st))) = true.
Proof.
  intros Hc. destruct (run_mutator c st) as [[[]|e] st'] eqn:Hr; cbn [snd].
  2:{ destruct c; cbn [run_mutator] in Hr.
      - now rewrite (createDirectory_Throw _ _ _ _ Hr).
      - now rewrite (cacheRule_Throw _ _ _ _ _ _ _ Hr).
      - now rewrite (rename_Throw _ _ _ _ _ _ Hr).
      - now rewrite (delete_Throw _ _ _ _ Hr). }
  apply closed_heap_spec. apply closed_heap_spec in Hc.
  destruct c as [path|path content create overwrite|oldPath newPath overwrite|path];
    cbn [run_mutator] in Hr.
  - destruct (_lookupAsDirectory (Path.dirname path) false st) as [[parent|e0] st1] eqn:Hl.
    + destruct (_lookupAsDirectory_Return _ _ _ _ Hl) as (-> & _ & _).
      rewrite (createDirectory_Return _ _ _ Hl) in Hr. injection Hr as <-.
      cbn [snd]. rewrite heap_fireSoon, heap_set_heap.
      apply heap_closed_alter_keep; [apply Entry_entries_set_size|].
      apply heap_closed_alter_keep; [apply Entry_entries_set_mtime|].
      now apply heap_closed_alloc.
    + unfold createDirectory in Hr. unfold bind at 1 in Hr. rewrite Hl in Hr. discriminate.
  - destruct (_lookupParentDirectory path st) as [[parent|e0] st1] eqn:Hl.
    + destruct (_lookupAsDirectory_Return _ _ _ _ Hl) as (-> & _ & _).
      destruct (JsMap.get (Path.basename path) (entries_of (heap st) parent))
        as [entry|] eqn:Hget.
      * destruct (is_Directory (heap st) entry) eqn:Hd.
        { rewrite (cacheRule_Throw_directory _ _ _ _ _ _ _ Hl Hget Hd) in Hr. discriminate. }
        destruct (create && negb overwrite) eqn:Hco.
        { apply andb_prop in Hco. destruct Hco as [-> Ho].
          apply negb_true_iff in Ho. subst overwrite.
          rewrite (cacheRule_Throw_exists _ _ _ _ _ Hl Hget Hd) in Hr. discriminate. }
        rewrite (cacheRule_Return_updated _ _ _ _ _ _ _ Hl Hget Hd Hco) in Hr.
        injection Hr as <-. cbn [snd]. rewrite heap_fireSoon, heap_set_heap.
        now apply heap_closed_store_payload.
      * destruct create.
        2:{ rewrite (cacheRule_Throw_absent _ _ _ _ _ Hl Hget) in Hr. discriminate. }
        rewrite (cacheRule_Return_created _ _ _ _ _ Hl Hget) in Hr.
        injection Hr as <-. cbn [snd]. rewrite heap_fireSoon, heap_set_heap.
        apply heap_closed_store_payload. now apply heap_closed_alloc.
    + unfold cacheRule in Hr. unfold bind at 1 in Hr. rewrite Hl in Hr. discriminate.
  - rewrite rename_eq in Hr.
    destruct (if negb overwrite then resolve (heap st) newPath else None); [discriminate|].
    destruct (resolve (heap st) oldPath) as [entry|] eqn:Hres; [|discriminate].
    destruct (resolve_dir (heap st) (Path.dirname oldPath)) as [oldParent|] eqn:Hop;
      [|discriminate].
    destruct (resolve_dir (heap st) (Path.dirname newPath)); [|discriminate].
    injection Hr as <-. cbn [snd]. rewrite heap_fireSoon, heap_set_heap.
    apply heap_closed_rename; [exact Hc|].
    apply resolve_dir_Return in Hop. destruct Hop as [_ Hd].
    exact (resolve_closed _ _ _ _ Hc Hd Hres).
  - destruct (_lookupAsDirectory (Path.dirname path) false st) as [[parent|e0] st1] eqn:Hl.
    + destruct (_lookupAsDirectory_Return _ _ _ _ Hl) as (-> & _ & _).
      destruct (JsMap.has (Path.basename path) (entries_of (heap st) parent)) eqn:Hhas.
      * rewrite (delete_Return _ _ _ Hl Hhas) in Hr. injection Hr as <-.
        cbn [snd]. rewrite heap_fireSoon, heap_set_heap.
        apply heap_closed_alter_keep; [apply Entry_entries_set_size|].
        apply heap_closed_alter_keep; [apply Entry_entries_set_mtime|].
        now apply heap_closed_remove.
      * unfold delete in Hr. unfold bind at 1 in Hr. rewrite Hl in Hr.
        unfold bind at 1 in Hr. unfold get_state at 1 in Hr. rewrite Hhas in Hr. discriminate.
    + unfold delete in Hr. unfold bind at 1 in Hr. rewrite Hl in Hr. discriminate.
Qed.

(** X8. The references held by containers never dangle: in a new instance,
    and after any call of a tree mutator on an instance where it holds,
    every reference stored in a container's mapping points to an object of
    the store. *)
Theorem closed_heap_invariant :
  (forall t, closed_heap (heap (IcrFS_new t)) = true) /\
  (forall c st,
      closed_heap (heap st) = true -> closed_heap (heap (snd (run_mutator c st))) = true).
Proof.
  split; [reflexivity | exact closed_heap_run_mutator].
Qed.

(** ** Walks in a changed store *)

(** When every edge of [h] is an edge of [h'], walks are kept. *)
Lemma walk_mono (h h' : list Entry) segs : forall r t,
  (forall r s c, is_Directory h r = true -> JsMap.get s (entries_of h r) = Some c ->
                 is_Directory h' r = true /\ JsMap.get s (entries_of h' r) = Some c) ->
  walk h r segs = Some t -> walk h' r segs = Some t.
Proof.
  induction segs as [|s segs IH]; intros r t He; cbn; [auto|].
  destruct (is_Directory h r) eqn:Hd; [|discriminate].
  destruct (JsMap.get s (entries_of h r)) as [c|] eqn:Hget; [|discriminate].
  destruct (He r s c Hd Hget) as [-> ->]. now apply IH.
Qed.

(** When every edge of [h] is an edge of [h'] or is gone, a walk ends where
    it did or fails. *)
Lemma walk_weak (h h' : list Entry) segs : forall r t,
  (forall r s c, is_Directory h r = true -> JsMap.get s (entries_of h r) = Some c ->
                 is_Directory h' r = true /\
                 (JsMap.get s (entries_of h' r) = Some c \/ JsMap.get s (entries_of h' r) = None)) ->
  walk h r segs = Some t -> walk h' r segs = Some t \/ walk h' r segs = None.
Proof.
  induction segs as [|s segs IH]; intros r t He; cbn; [auto|].
  destruct (is_Directory h r) eqn:Hd; [|discriminate].
  destruct (JsMap.get s (entries_of h r)) as [c|] eqn:Hget; [|discriminate].
  destruct (He r s c Hd Hget) as [-> [-> | ->]]; [now apply IH | now right].
Qed.

Lemma entries_of_lookup (h : list Entry) (r : ref) :
  entries_of h r = match h !! r with Some e => Entry_entries e | None => [] end.
Proof. unfold entries_of. destruct (h !! r) as [[f|d]|]; reflexivity. Qed.

Lemma entries_of_alter_keep f (r0 r : ref) (h : list Entry) :
  (forall e, Entry_entries (f e) = Entry_entries e) ->
  entries_of (alter f r0 h) r = entries_of h r.
Proof.
  intros Hf. rewrite !entries_of_lookup, list_lookup_alter.
  destruct (decide (r0 = r)) as [->|]; [|reflexivity].
  destruct (h !! r) as [e|]; cbn; [apply Hf | reflexivity].
Qed.

Lemma Entry_type_set_mtime t e : Entry_type (Entry_set_mtime t e) = Entry_type e.
Proof. destruct e; reflexivity. Qed.

Lemma Entry_type_set_size s e : Entry_type (Entry_set_size s e) = Entry_type e.
Proof. destruct e; reflexivity. Qed.

Lemma Entry_type_set_data c e : Entry_type (Entry_set_data c e) = Entry_type e.
Proof. destruct e; reflexivity. Qed.

Lemma is_Directory_store_payload content t (entry r : ref) (h : list Entry) :
  is_Directory (store_payload content t entry h) r = is_Directory h r.
Proof.
  unfold store_payload.
  rewrite !is_Directory_alter;
    auto using Entry_type_set_mtime, Entry_type_set_size, Entry_type_set_data.
Qed.

Lemma entries_of_store_payload content t (entry r : ref) (h : list Entry) :
  entries_of (store_payload content t entry h) r = entries_of h r.
Proof.
  unfold store_payload.
  rewrite !entries_of_alter_keep;
    auto using Entry_entries_set_mtime, Entry_entries_set_size, Entry_entries_set_data.
Qed.

Lemma is_Directory_app (h : list Entry) e (r : ref) :
  is_Directory h r = true -> is_Directory (h ++ [e]) r = true.
Proof.
  intros Hd. pose proof (is_Directory_lt _ _ Hd) as Hlt.
  unfold is_Directory in *. now rewrite lookup_app_l.
Qed.

Lemma entries_of_app (h : list Entry) e (r : ref) :
  (r < List.length h)%nat -> entries_of (h ++ [e]) r = entries_of h r.
Proof. intros Hlt. unfold entries_of. now rewrite lookup_app_l. Qed.

(** The store after an insertion under [parent]: a new object is appended
    and registered as [b]. *)
Lemma insert_edges (h : list Entry) e (parent : ref) (b : string) (r : ref) s c :
  is_Directory h r = true ->
  JsMap.get s (entries_of h r) = Some c ->
  ~ (r = parent /\ s = b) ->
  let h' := alter (Entry_set_entries (JsMap.set b (List.length h))) parent (h ++ [e]) in
  is_Directory h' r = true /\ JsMap.get s (entries_of h' r) = Some c.
Proof.
  intros Hd Hget Hne h'. unfold h'. split.
  - rewrite is_Directory_alter by apply Entry_type_set_entries. now apply is_Directory_app.
  - rewrite entries_of_alter_set_entries by now apply is_Directory_app.
    rewrite entries_of_app by now apply is_Directory_lt.
    destruct (decide (parent = r)) as [->|]; [|exact Hget].
    rewrite JsMap_get_set_ne; [exact Hget|]. intros ->. apply Hne. auto.
Qed.

Lemma insert_get (h : list Entry) e (parent : ref) (b : string) :
  is_Directory h parent = true ->
  let h' := alter (Entry_set_entries (JsMap.set b (List.length h))) parent (h ++ [e]) in
  JsMap.get b (entries_of h' parent) = Some (List.length h).
Proof.
  intros Hd h'. unfold h'.
  rewrite entries_of_alter_set_entries by now apply is_Directory_app.
  rewrite decide_True by reflexivity. apply JsMap_get_set_eq.
Qed.

(** The store after a removal under [parent]. *)
Lemma remove_edges (h : list Entry) (parent : ref) (b : string) (r : ref) s c :
  is_Directory h r = true ->
  JsMap.get s (entries_of h r) = Some c ->
  let h' := alter (Entry_set_entries (JsMap.delete b)) parent h in
  is_Directory h' r = true /\
  (JsMap.get s (entries_of h' r) = Some c \/ JsMap.get s (entries_of h' r) = None).
Proof.
  intros Hd Hget h'. unfold h'. split.
  - now rewrite is_Directory_alter by apply Entry_type_set_entries.
  - rewrite entries_of_alter_set_entries by exact Hd.
    destruct (decide (parent = r)) as [->|]; [|now left].
    destruct (String.eqb b s) eqn:E.
    + apply String.eqb_eq in E. subst s. right. apply JsMap_get_delete_eq.
    + apply String.eqb_neq in E. left. now rewrite JsMap_get_delete_ne.
Qed.

Lemma remove_get (h : list Entry) (parent : ref) (b : string) :
  is_Directory h parent = true ->
  JsMap.get b (entries_of (alter (Entry_set_entries (JsMap.delete b)) parent h) parent) = None.
Proof.
  intros Hd. rewrite entries_of_alter_set_entries by exact Hd.
  rewrite decide_True by reflexivity. apply JsMap_get_delete_eq.
Qed.

(** For an absolute path with a final segment, the parent container and the
    final segment decide the resolution. *)
Lemma resolve_parent_step (h : list Entry) path parent :
  Path.absolute path -> Path.segments path <> [] ->
  resolve_dir h (Path.dirname path) = Return parent ->
  resolve h path = JsMap.get (Path.basename path) (entries_of h parent) /\
  walk h root (removelast (Path.segments path)) = Some parent /\
  is_Directory h parent = true.
Proof.
  intros Habs Hseg Hp. apply resolve_dir_Return in Hp. destruct Hp as (Hw & Hd).
  rewrite PathFacts.segments_dirname in Hw by exact Habs.
  rewrite resolve_walk, (PathFacts.basename_last _ Habs).
  rewrite (segments_snoc _ Hseg) at 1. rewrite walk_app, Hw, walk_single, Hd. auto.
Qed.

(** ** Write, then read *)

Lemma lookup_parent_resolve_dir path st parent :
  _lookupAsDirectory path false st = (Return parent, st) ->
  resolve_dir (heap st) path = Return parent.
Proof. rewrite _lookupAsDirectory_resolve_dir. intros H. now injection H. Qed.

(** X9. Round trip: after [cacheRule] has returned normally for an absolute
    path with a final segment, [readFile] on the same path returns exactly
    the bytes written, whether the Object was created by the call or was
    there before. *)
Theorem cacheRule_readFile
  (st st' : IcrFS) (path : string) (content : list Byte.byte) (create overwrite : bool) :
  closed_heap (heap st) = true ->
  Path.absolute path ->
  Path.segments path <> [] ->
  cacheRule path content create overwrite st = (Return tt, st') ->
  readFile path st' = (Return content, st').
Proof.
  intros Hc Habs Hseg Hr. apply closed_heap_spec in Hc.
  destruct (_lookupParentDirectory path st) as [[parent|e0] st1] eqn:Hl.
  2:{ unfold cacheRule in Hr. unfold bind at 1 in Hr. rewrite Hl in Hr. discriminate. }
  destruct (_lookupAsDirectory_Return _ _ _ _ Hl) as (-> & _ & _).
  pose proof (lookup_parent_resolve_dir _ _ _ Hl) as Hp.
  destruct (resolve_parent_step _ _ _ Habs Hseg Hp) as (Hres & Hw & Hd).
  rewrite readFile_eq.
  destruct (JsMap.get (Path.basename path) (entries_of (heap st) parent)) as [entry|] eqn:Hget.
  - destruct (is_Directory (heap st) entry) eqn:Hdir.
    { rewrite (cacheRule_Throw_directory _ _ _ _ _ _ _ Hl Hget Hdir) in Hr. discriminate. }
    destruct (create && negb overwrite) eqn:Hco.
    { apply andb_prop in Hco. destruct Hco as [-> Ho].
      apply negb_true_iff in Ho. subst overwrite.
      rewrite (cacheRule_Throw_exists _ _ _ _ _ Hl Hget Hdir) in Hr. discriminate. }
    rewrite (cacheRule_Return_updated _ _ _ _ _ _ _ Hl Hget Hdir Hco) in Hr.
    injection Hr as <-. cbn [snd]. rewrite heap_fireSoon, heap_set_heap.
    assert (Hres' : resolve (store_payload content (now st) entry (heap st)) path = Some entry).
    { rewrite resolve_walk. rewrite resolve_walk in Hres.
      apply (walk_mono (heap st)); [|exact Hres].
      intros r s c Hr Hs. now rewrite is_Directory_store_payload, entries_of_store_payload. }
    rewrite Hres', lookup_store_payload_eq.
    pose proof (heap_closed_get _ _ _ _ Hc Hget) as Hlt.
    destruct (lookup_lt_is_Some_2 _ _ Hlt) as (e & He). rewrite He.
    unfold is_Directory in Hdir. rewrite He in Hdir. destruct e as [f|d]; [reflexivity|discriminate].
  - destruct create.
    2:{ rewrite (cacheRule_Throw_absent _ _ _ _ _ Hl Hget) in Hr. discriminate. }
    rewrite (cacheRule_Return_created _ _ _ _ _ Hl Hget) in Hr.
    injection Hr as <-. cbn [snd]. rewrite heap_fireSoon, heap_set_heap.
    set (fresh := List.length (heap st)).
    set (h1 := alter (Entry_set_entries (JsMap.set (Path.basename path) fresh)) parent
                 (heap st ++ [EFile (File.new (Path.basename path) (now st))])).
    assert (Hres' : resolve (store_payload content (now st) fresh h1) path = Some fresh).
    { rewrite resolve_walk, (segments_snoc _ Hseg), walk_app.
      rewrite (walk_mono (heap st) _ _ root parent); [| |exact Hw].
      - rewrite walk_single, is_Directory_store_payload, entries_of_store_payload.
        rewrite <- (PathFacts.basename_last _ Habs). unfold h1, fresh.
        rewrite is_Directory_alter by apply Entry_type_set_entries.
        rewrite (is_Directory_app _ _ _ Hd). now apply insert_get.
      - intros r s c Hr Hs. rewrite is_Directory_store_payload, entries_of_store_payload.
        apply insert_edges; [exact Hr | exact Hs |]. intros [-> ->]. congruence. }
    rewrite Hres', lookup_store_payload_eq. unfold h1.
    pose proof (is_Directory_lt _ _ Hd) as Hlt.
    rewrite list_lookup_alter_ne by (unfold fresh; lia).
    unfold fresh. rewrite lookup_app_r by lia. rewrite Nat.sub_diag. reflexivity.
Qed.

Lemma cacheRule_readFile_witness :
  readFile "/Common/new.irul"
    (snd (cacheRule "/Common/new.irul" (Buffer_from "when") true false connected_fs))
  = (Return (Buffer_from "when"),
     snd (cacheRule "/Common/new.irul" (Buffer_from "when") true false connected_fs)).
Proof.
  apply (cacheRule_readFile connected_fs _ "/Common/new.irul" (Buffer_from "when") true false).
  - reflexivity.
  - reflexivity.
  - vm_compute. discriminate.
  - vm_compute. reflexivity.
Defined.

(** ** Create, then look up *)

(** X10. After [createDirectory] has returned normally for an absolute path
    that did not resolve before, the path resolves to the new container,
    [stat] returns it as an empty Directory stamped with the current time,
    and [readDirectory] lists nothing in it. *)
Theorem createDirectory_resolve (st st' : IcrFS) (path : string) :
  Path.absolute path ->
  resolve (heap st) path = None ->
  createDirectory path st = (Return tt, st') ->
  resolve (heap st') path = Some (List.length (heap st)) /\
  stat path st' =
    (Return (Some (EDirectory (Directory.new (Path.basename path) (now st)))), st') /\
  readDirectory path st' = (Return [], st').
Proof.
  intros Habs Hnone Hr.
  assert (Hseg : Path.segments path <> []).
  { intros E. rewrite resolve_walk, E in Hnone. discriminate. }
  destruct (_lookupAsDirectory (Path.dirname path) false st) as [[parent|e0] st1] eqn:Hl.
  2:{ unfold createDirectory in Hr. unfold bind at 1 in Hr. rewrite Hl in Hr. discriminate. }
  destruct (_lookupAsDirectory_Return _ _ _ _ Hl) as (-> & _ & _).
  pose proof (lookup_parent_resolve_dir _ _ _ Hl) as Hp.
  destruct (resolve_parent_step _ _ _ Habs Hseg Hp) as (Hres & Hw & Hd).
  rewrite Hnone in Hres. symmetry in Hres.
  destruct (is_Directory_Some _ _ Hd) as (d & Hpd).
  destruct (createDirectory_parent path st parent d Hl Hpd) as (st2 & Hc & Hp2 & Hn & _).
  rewrite Hc in Hr. injection Hr as <-.
  rewrite (createDirectory_Return _ _ _ Hl) in Hc. injection Hc as Hst2.
  assert (Hheap : heap st2 =
                  alter (Entry_set_size (fun s => s + 1)) parent
                    (alter (Entry_set_mtime (now st)) parent
                       (alter (Entry_set_entries (JsMap.set (Path.basename path)
                                                    (List.length (heap st)))) parent
                          (heap st ++ [EDirectory (Directory.new (Path.basename path) (now st))])))).
  { rewrite <- Hst2. cbn [snd]. now rewrite heap_fireSoon, heap_set_heap. }
  assert (Hres' : resolve (heap st2) path = Some (List.length (heap st))).
  { rewrite resolve_walk, (segments_snoc _ Hseg), walk_app.
    rewrite (walk_mono (heap st) _ _ root parent); [| |exact Hw].
    - rewrite walk_single. unfold is_Directory at 1. rewrite Hp2.
      rewrite (entries_of_Directory _ _ _ Hp2). cbn [Directory.entries].
      rewrite <- (PathFacts.basename_last _ Habs). apply JsMap_get_set_eq.
    - intros r s c Hr Hs. rewrite Hheap.
      rewrite !is_Directory_alter by auto using Entry_type_set_size, Entry_type_set_mtime.
      rewrite !entries_of_alter_keep
        by auto using Entry_entries_set_size, Entry_entries_set_mtime.
      apply insert_edges; [exact Hr | exact Hs |]. intros [-> ->]. congruence. }
  split; [exact Hres'|]. split.
  - rewrite stat_eq, Hres', Hn. reflexivity.
  - rewrite readDirectory_eq. unfold resolve_dir. rewrite Hres'.
    unfold is_Directory. rewrite Hn.
    rewrite (entries_of_Directory _ _ _ Hn). reflexivity.
Qed.

Lemma createDirectory_resolve_witness :
  resolve (heap (snd (createDirectory "/Common/sub/" connected_fs))) "/Common/sub/" = Some 3%nat /\
  stat "/Common/sub/" (snd (createDirectory "/Common/sub/" connected_fs)) =
    (Return (Some (EDirectory (Directory.new "sub" 0))),
     snd (createDirectory "/Common/sub/" connected_fs)) /\
  readDirectory "/Common/sub/" (snd (createDirectory "/Common/sub/" connected_fs)) =
    (Return [], snd (createDirectory "/Common/sub/" connected_fs)).
Proof.
  apply (createDirectory_resolve connected_fs _ "/Common/sub/").
  - reflexivity.
  - vm_compute. reflexivity.
  - vm_compute. reflexivity.
Defined.

(** ** Delete *)

Lemma delete_heap path st st' parent :
  _lookupAsDirectory (Path.dirname path) false st = (Return parent, st) ->
  delete path st = (Return tt, st') ->
  JsMap.has (Path.basename path) (entries_of (heap st) parent) = true /\
  heap st' =
    alter (Entry_set_size (fun s => s - 1)) parent
      (alter (Entry_set_mtime (now st)) parent
         (alter (Entry_set_entries (JsMap.delete (Path.basename path))) parent (heap st))).
Proof.
  intros Hl Hr.
  destruct (JsMap.has (Path.basename path) (entries_of (heap st) parent)) eqn:Hhas.
  - split; [reflexivity|]. rewrite (delete_Return _ _ _ Hl Hhas) in Hr.
    injection Hr as <-. cbn [snd]. now rewrite heap_fireSoon, heap_set_heap.
  - unfold delete in Hr. unfold bind at 1 in Hr. rewrite Hl in Hr.
    unfold bind at 1 in Hr. unfold get_state at 1 in Hr. rewrite Hhas in Hr. discriminate.
Qed.

Lemma delete_edges path st st' parent :
  _lookupAsDirectory (Path.dirname path) false st = (Return parent, st) ->
  delete path st = (Return tt, st') ->
  (forall r s c, is_Directory (heap st) r = true ->
                 JsMap.get s (entries_of (heap st) r) = Some c ->
                 is_Directory (heap st') r = true /\
                 (JsMap.get s (entries_of (heap st') r) = Some c \/
                  JsMap.get s (entries_of (heap st') r) = None)) /\
  is_Directory (heap st') parent = true /\
  JsMap.get (Path.basename path) (entries_of (heap st') parent) = None.
Proof.
  intros Hl Hr. destruct (delete_heap _ _ _ _ Hl Hr) as (_ & ->).
  destruct (_lookupAsDirectory_Return _ _ _ _ Hl) as (_ & _ & Hd).
  split; [|split].
  - intros r s c Hr' Hs.
    rewrite !is_Directory_alter by auto using Entry_type_set_size, Entry_type_set_mtime.
    rewrite !entries_of_alter_keep by auto using Entry_entries_set_size, Entry_entries_set_mtime.
    now apply remove_edges.
  - now rewrite !is_Directory_alter
      by auto using Entry_type_set_size, Entry_type_set_mtime, Entry_type_set_entries.
  - rewrite !entries_of_alter_keep by auto using Entry_entries_set_size, Entry_entries_set_mtime.
    now apply remove_get.
Qed.

(** X11. Deleting twice: whenever [delete] has returned normally, a second
    [delete] of the same path throws FileNotFound and changes nothing; it
    never succeeds silently and never reports another error. *)
Theorem delete_twice (st st' : IcrFS) (path : string) :
  delete path st = (Return tt, st') ->
  delete path st' = (Throw FileNotFound, st').
Proof.
  intros Hr.
  destruct (_lookupAsDirectory (Path.dirname path) false st) as [[parent|e0] st1] eqn:Hl.
  2:{ unfold delete in Hr. unfold bind at 1 in Hr. rewrite Hl in Hr. discriminate. }
  destruct (_lookupAsDirectory_Return _ _ _ _ Hl) as (-> & _ & _).
  pose proof (lookup_parent_resolve_dir _ _ _ Hl) as Hp.
  apply resolve_dir_Return in Hp. destruct Hp as (Hw & _).
  destruct (delete_edges _ _ _ _ Hl Hr) as (He & Hd' & Hget').
  unfold delete. unfold bind at 1. rewrite _lookupAsDirectory_resolve_dir.
  unfold resolve_dir. rewrite resolve_walk.
  destruct (walk_weak (heap st) (heap st') _ root parent He Hw) as [-> | ->]; [|reflexivity].
  rewrite Hd'. unfold bind at 1. unfold get_state at 1.
  unfold JsMap.has. rewrite Hget'. reflexivity.
Qed.

Lemma delete_twice_witness :
  delete "/Common/test.irul" (snd (delete "/Common/test.irul" connected_fs)) =
  (Throw FileNotFound, snd (delete "/Common/test.irul" connected_fs)).
Proof. apply (delete_twice connected_fs). reflexivity. Defined.

(** X12. For an absolute path with a final segment, [delete] returns
    normally exactly when the path resolves, and afterwards neither the path
    nor any path below it resolves: a container goes with all it holds. *)
Theorem delete_iff_resolves (st : IcrFS) (path : string) :
  Path.absolute path ->
  Path.segments path <> [] ->
  (resolve (heap st) path <> None <-> exists st', delete path st = (Return tt, st')) /\
  (forall st', delete path st = (Return tt, st') ->
               resolve (heap st') path = None /\
               forall q, resolve (heap st') (path ++ "/" ++ q)%string = None).
Proof.
  intros Habs Hseg. split; [split|].
  - intros Hres. rewrite resolve_walk, (segments_snoc _ Hseg), walk_app in Hres.
    destruct (walk (heap st) root (removelast (Path.segments path))) as [parent|] eqn:Hw;
      [|congruence].
    rewrite walk_single in Hres.
    destruct (is_Directory (heap st) parent) eqn:Hd; [|congruence].
    rewrite <- (PathFacts.basename_last _ Habs) in Hres.
    assert (Hl : _lookupAsDirectory (Path.dirname path) false st = (Return parent, st)).
    { rewrite _lookupAsDirectory_resolve_dir. unfold resolve_dir.
      rewrite resolve_walk, (PathFacts.segments_dirname _ Habs), Hw, Hd. reflexivity. }
    eexists. apply (delete_Return _ _ _ Hl). unfold JsMap.has.
    destruct (JsMap.get (Path.basename path) (entries_of (heap st) parent)); congruence.
  - intros (st' & Hr).
    destruct (_lookupAsDirectory (Path.dirname path) false st) as [[parent|e0] st1] eqn:Hl.
    2:{ unfold delete in Hr. unfold bind at 1 in Hr. rewrite Hl in Hr. discriminate. }
    destruct (_lookupAsDirectory_Return _ _ _ _ Hl) as (-> & _ & _).
    pose proof (lookup_parent_resolve_dir _ _ _ Hl) as Hp.
    destruct (resolve_parent_step _ _ _ Habs Hseg Hp) as (-> & _ & _).
    destruct (delete_heap _ _ _ _ Hl Hr) as (Hhas & _). unfold JsMap.has in Hhas.
    destruct (JsMap.get (Path.basename path) (entries_of (heap st) parent)); congruence.
  - intros st' Hr.
    assert (Hgone : resolve (heap st') path = None).
    { destruct (_lookupAsDirectory (Path.dirname path) false st) as [[parent|e0] st1] eqn:Hl.
      2:{ unfold delete in Hr. unfold bind at 1 in Hr. rewrite Hl in Hr. discriminate. }
      destruct (_lookupAsDirectory_Return _ _ _ _ Hl) as (-> & _ & _).
      pose proof (lookup_parent_resolve_dir _ _ _ Hl) as Hp.
      destruct (resolve_parent_step _ _ _ Habs Hseg Hp) as (_ & Hw & _).
      destruct (delete_edges _ _ _ _ Hl Hr) as (He & Hd' & Hget').
      rewrite resolve_walk, (segments_snoc _ Hseg), walk_app.
      destruct (walk_weak (heap st) (heap st') _ root parent He Hw) as [-> | ->]; [|reflexivity].
      rewrite walk_single, Hd', <- (PathFacts.basename_last _ Habs). exact Hget'. }
    split; [exact Hgone|]. intros q. now rewrite resolve_slash, Hgone.
Qed.

Lemma delete_iff_resolves_witness :
  (resolve (heap connected_fs) "/Common" <> None <->
   exists st', delete "/Common" connected_fs = (Return tt, st')) /\
  (forall st', delete "/Common" connected_fs = (Return tt, st') ->
               resolve (heap st') "/Common" = None /\
               forall q, resolve (heap st') ("/Common" ++ "/" ++ q)%string = None).
Proof.
  apply (delete_iff_resolves connected_fs "/Common").
  - reflexivity.
  - vm_compute. discriminate.
Defined.

Lemma closed_heap_invariant_witness :
  closed_heap (heap (snd (run_mutator (Rename "/Common/test.irul" "/t.irul" false) connected_fs)))
  = true.
Proof.
  apply (proj2 closed_heap_invariant (Rename "/Common/test.irul" "/t.irul" false) connected_fs).
  reflexivity.
Defined.

(** ** Listing after an insertion *)

Lemma list_entries_ext (h h' : list Entry) es :
  (forall kv, In kv es -> Entry_type <$> h' !! snd kv = Entry_type <$> h !! snd kv) ->
  list_entries h' es = list_entries h es.
Proof.
  induction es as [|kv es IH]; intros H; [reflexivity|].
  unfold list_entries in *. cbn [flat_map].
  rewrite IH by (intros kv' Hin; apply H; now right).
  specialize (H kv (or_introl eq_refl)).
  destruct (negb (Path.nonempty (fst kv))); [reflexivity|].
  destruct (h' !! snd kv), (h !! snd kv); cbn in H; congruence.
Qed.

Lemma list_entries_app (h : list Entry) es1 es2 :
  list_entries h (es1 ++ es2) = list_entries h es1 ++ list_entries h es2.
Proof. apply flat_map_app. Qed.

Lemma type_alter f (r0 c : ref) (h : list Entry) :
  (forall e, Entry_type (f e) = Entry_type e) ->
  Entry_type <$> alter f r0 h !! c = Entry_type <$> h !! c.
Proof.
  intros Hf. rewrite list_lookup_alter. destruct (decide (r0 = c)) as [->|]; [|reflexivity].
  destruct (h !! c); cbn; [now rewrite Hf | reflexivity].
Qed.

Lemma type_store_payload content t (entry c : ref) (h : list Entry) :
  Entry_type <$> store_payload content t entry h !! c = Entry_type <$> h !! c.
Proof.
  unfold store_payload.
  rewrite !type_alter; auto using Entry_type_set_mtime, Entry_type_set_size, Entry_type_set_data.
Qed.

Lemma JsMap_set_absent {V} k (v : V) m :
  JsMap.get k m = None -> JsMap.set k v m = m ++ [(k, v)].
Proof.
  induction m as [|[k' v'] m IH]; cbn; [reflexivity|].
  destruct (String.eqb k' k); [discriminate|]. intros H. now rewrite IH.
Qed.

Lemma readDirectory_list_entries path st :
  readDirectory path st =
  (match resolve_dir (heap st) path with
   | Return entry => Return (list_entries (heap st) (entries_of (heap st) entry))
   | Throw e => Throw e
   end, st).
Proof. apply readDirectory_eq. Qed.

(** The listing of [parent] once a new object [e] has been appended to the
    store and registered under the unused name [b]. *)
Lemma list_entries_insert (h h' : list Entry) e (parent : ref) (b : string) :
  heap_closed h ->
  is_Directory h parent = true ->
  JsMap.get b (entries_of h parent) = None ->
  Path.nonempty b = true ->
  entries_of h' parent = JsMap.set b (List.length h) (entries_of h parent) ->
  (forall c, (c < List.length h)%nat -> Entry_type <$> h' !! c = Entry_type <$> h !! c) ->
  Entry_type <$> h' !! List.length h = Some (Entry_type e) ->
  list_entries h' (entries_of h' parent) =
  list_entries h (entries_of h parent) ++ [(b, Entry_type e)].
Proof.
  intros Hc Hd Hget Hb He Hold Hnew.
  rewrite He, (JsMap_set_absent _ _ _ Hget), list_entries_app. f_equal.
  - apply list_entries_ext. intros [k c] Hin. apply Hold. cbn.
    destruct (is_Directory_Some _ _ Hd) as (d & Hpd).
    apply (Hc (EDirectory d) (lookup_In _ _ _ Hpd) (k, c)).
    now rewrite (entries_of_Directory _ _ _ Hpd) in Hin.
  - cbn. rewrite Hb. cbn. destruct (h' !! List.length h); cbn in Hnew; [|discriminate].
    injection Hnew as ->. reflexivity.
Qed.

Lemma last_segment_nonempty path :
  Path.segments path <> [] -> Path.nonempty (List.last (Path.segments path) "") = true.
Proof.
  intros Hseg. pose proof (last_In (Path.segments path) "" Hseg) as Hin.
  unfold Path.segments in Hin. now apply filter_In in Hin.
Qed.

(** X13. A new name shows up last.  When an absolute path does not resolve
    and [createDirectory] or [cacheRule] inserts it, the listing of its
    parent container is the listing before the call followed by the new name
    with its type; the names listed before keep their order and types. *)
Theorem readDirectory_after_insert (st : IcrFS) (path : string) listing :
  closed_heap (heap st) = true ->
  Path.absolute path ->
  resolve (heap st) path = None ->
  readDirectory (Path.dirname path) st = (Return listing, st) ->
  (forall st',
      createDirectory path st = (Return tt, st') ->
      readDirectory (Path.dirname path) st' =
      (Return (listing ++ [(Path.basename path, FileType_Directory)]), st')) /\
  (forall st' content overwrite,
      cacheRule path content true overwrite st = (Return tt, st') ->
      readDirectory (Path.dirname path) st' =
      (Return (listing ++ [(Path.basename path, FileType_File)]), st')).
Proof.
  intros Hc Habs Hnone Hlist. apply closed_heap_spec in Hc.
  assert (Hseg : Path.segments path <> []).
  { intros E. rewrite resolve_walk, E in Hnone. discriminate. }
  rewrite readDirectory_list_entries in Hlist.
  destruct (resolve_dir (heap st) (Path.dirname path)) as [parent|] eqn:Hp; [|discriminate].
  injection Hlist as <-.
  destruct (resolve_parent_step _ _ _ Habs Hseg Hp) as (Hres & Hw & Hd).
  rewrite Hnone in Hres. symmetry in Hres.
  assert (Hl : _lookupAsDirectory (Path.dirname path) false st = (Return parent, st)).
  { now rewrite _lookupAsDirectory_resolve_dir, Hp. }
  pose proof (is_Directory_lt _ _ Hd) as Hlt.
  assert (Hb : Path.nonempty (Path.basename path) = true).
  { rewrite (PathFacts.basename_last _ Habs). now apply last_segment_nonempty. }
  assert (Hparent : forall h',
             (forall r s c, is_Directory (heap st) r = true ->
                            JsMap.get s (entries_of (heap st) r) = Some c ->
                            is_Directory h' r = true /\ JsMap.get s (entries_of h' r) = Some c) ->
             is_Directory h' parent = true ->
             resolve_dir h' (Path.dirname path) = Return parent).
  { intros h' He Hd'. unfold resolve_dir.
    rewrite resolve_walk, (PathFacts.segments_dirname _ Habs).
    now rewrite (walk_mono (heap st) h' _ root parent He Hw), Hd'. }
  split.
  - intros st' Hr. rewrite (createDirectory_Return _ _ _ Hl) in Hr. injection Hr as <-.
    rewrite readDirectory_list_entries. cbn [snd]. rewrite heap_fireSoon, heap_set_heap.
    set (new := EDirectory (Directory.new (Path.basename path) (now st))).
    rewrite Hparent.
    + f_equal. f_equal.
      apply (list_entries_insert (heap st) _ new); try assumption.
      * rewrite !entries_of_alter_keep
          by auto using Entry_entries_set_size, Entry_entries_set_mtime.
        rewrite entries_of_alter_set_entries by now apply is_Directory_app.
        rewrite decide_True by reflexivity. now rewrite entries_of_app.
      * intros c Hclt.
        rewrite !type_alter
          by auto using Entry_type_set_size, Entry_type_set_mtime, Entry_type_set_entries.
        now rewrite lookup_app_l.
      * rewrite !type_alter
          by auto using Entry_type_set_size, Entry_type_set_mtime, Entry_type_set_entries.
        rewrite lookup_app_r by lia. now rewrite Nat.sub_diag.
    + intros r s c Hr Hs.
      rewrite !is_Directory_alter by auto using Entry_type_set_size, Entry_type_set_mtime.
      rewrite !entries_of_alter_keep
        by auto using Entry_entries_set_size, Entry_entries_set_mtime.
      apply insert_edges; [exact Hr | exact Hs |]. intros [-> ->]. congruence.
    + rewrite !is_Directory_alter
        by auto using Entry_type_set_size, Entry_type_set_mtime, Entry_type_set_entries.
      now apply is_Directory_app.
  - intros st' content overwrite Hr.
    rewrite (cacheRule_Return_created _ _ _ _ _ Hl Hres) in Hr. injection Hr as <-.
    rewrite readDirectory_list_entries. cbn [snd]. rewrite heap_fireSoon, heap_set_heap.
    set (new := EFile (File.new (Path.basename path) (now st))).
    rewrite Hparent.
    + f_equal. f_equal.
      apply (list_entries_insert (heap st) _ new); try assumption.
      * rewrite entries_of_store_payload.
        rewrite entries_of_alter_set_entries by now apply is_Directory_app.
        rewrite decide_True by reflexivity. now rewrite entries_of_app.
      * intros c Hclt. rewrite type_store_payload.
        rewrite type_alter by apply Entry_type_set_entries. now rewrite lookup_app_l.
      * rewrite type_store_payload, type_alter by apply Entry_type_set_entries.
        rewrite lookup_app_r by lia. now rewrite Nat.sub_diag.
    + intros r s c Hr Hs. rewrite is_Directory_store_payload, entries_of_store_payload.
      apply insert_edges; [exact Hr | exact Hs |]. intros [-> ->]. congruence.
    + rewrite is_Directory_store_payload.
      rewrite is_Directory_alter by apply Entry_type_set_entries.
      now apply is_Directory_app.
Qed.

Lemma readDirectory_after_insert_witness :
  readDirectory "/Common" (snd (createDirectory "/Common/sub" connected_fs)) =
  (Return ([("test.irul", FileType_File)] ++ [("sub", FileType_Directory)]),
   snd (createDirectory "/Common/sub" connected_fs)).
Proof.
  apply (proj1 (readDirectory_after_insert connected_fs "/Common/sub"
                  [("test.irul", FileType_File)] eq_refl eq_refl eq_refl eq_refl)
           (snd (createDirectory "/Common/sub" connected_fs))).
  vm_compute. reflexivity.
Defined.

(** ** rename: which error comes first *)

(** X14. The checks of [rename] in their order, each failure leaving the
    state untouched.  With [overwrite] false an existing target gives
    FileExists, also when the source is missing.  Otherwise a source that
    does not resolve gives FileNotFound.  Otherwise, with the source's parent
    resolved, a new parent that cannot be resolved as a container gives the
    error of that resolution (FileNotFound or FileNotADirectory). *)
Theorem rename_error_order (st : IcrFS) (oldPath newPath : string) (overwrite : bool) :
  (forall target,
      overwrite = false -> resolve (heap st) newPath = Some target ->
      rename oldPath newPath overwrite st = (Throw FileExists, st)) /\
  (overwrite = true \/ resolve (heap st) newPath = None ->
   resolve (heap st) oldPath = None ->
   rename oldPath newPath overwrite st = (Throw FileNotFound, st)) /\
  (forall entry oldParent e,
      overwrite = true \/ resolve (heap st) newPath = None ->
      resolve (heap st) oldPath = Some entry ->
      resolve_dir (heap st) (Path.dirname oldPath) = Return oldParent ->
      resolve_dir (heap st) (Path.dirname newPath) = Throw e ->
      rename oldPath newPath overwrite st = (Throw e, st) /\
      (e = FileNotFound \/ e = FileNotADirectory)).
Proof.
  assert (Hpass : overwrite = true \/ resolve (heap st) newPath = None ->
                  (if negb overwrite then resolve (heap st) newPath else None) = None).
  { intros [-> | H]; [reflexivity|]. destruct overwrite; [reflexivity | exact H]. }
  split; [|split].
  - intros target -> Ht. rewrite rename_eq. cbn [negb]. now rewrite Ht.
  - intros Ho Hold. rewrite rename_eq, (Hpass Ho), Hold. reflexivity.
  - intros entry oldParent e Ho Hold Hop Hnp. rewrite rename_eq, (Hpass Ho), Hold, Hop, Hnp.
    split; [reflexivity|]. unfold resolve_dir in Hnp.
    destruct (resolve (heap st) (Path.dirname newPath)) as [r|].
    + destruct (is_Directory (heap st) r); [discriminate|]. injection Hnp as <-. now right.
    + injection Hnp as <-. now left.
Qed.

Lemma rename_error_order_witness :
  rename "/missing" "/Common" false connected_fs = (Throw FileExists, connected_fs) /\
  rename "/missing" "/Common" true connected_fs = (Throw FileNotFound, connected_fs) /\
  rename "/Common" "/Common/test.irul/x" false connected_fs
    = (Throw FileNotADirectory, connected_fs).
Proof.
  split; [|split].
  - apply (proj1 (rename_error_order connected_fs "/missing" "/Common" false) 1%nat);
      reflexivity.
  - apply (proj1 (proj2 (rename_error_order connected_fs "/missing" "/Common" true)));
      [now left | reflexivity].
  - apply (proj2 (proj2 (rename_error_order connected_fs "/Common" "/Common/test.irul/x" false))
             1%nat 0%nat FileNotADirectory); [now right | reflexivity..].
Defined.

(** ** Population: the two completion callbacks *)

Lemma try_catch_log_run_mutator c st :
  try_catch_log (run_mutator c) st = (Return tt, snd (run_mutator c st)).
Proof.
  unfold try_catch_log. destruct (run_mutator c st) as [[[]|e] st']; reflexivity.
Qed.

Lemma run_mutator_keeps c st :
  options (snd (run_mutator c st)) = options st /\
  requests (snd (run_mutator c st)) = requests st.
Proof.
  destruct (run_mutator_shape c st)
    as [-> | [(h & evs & ->) | (h1 & evs1 & h2 & evs2 & ->)]];
    rewrite ?_fireSoon_eq; cbn; auto.
Qed.

(** The loop of a population phase over its items. *)
Lemma population_items (f : Item -> MutatorCall) items : forall st,
  exists st',
    forEach (fun item =>
               if String.eqb (fullPath item) "/" then ret tt
               else try_catch_log (run_mutator (f item))) items st = (Return tt, st') /\
    options st' = options st /\
    requests st' = requests st /\
    (closed_heap (heap st) = true -> closed_heap (heap st') = true).
Proof.
  induction items as [|item items IH]; intros st; cbn [forEach].
  - exists st. auto.
  - unfold bind at 1. destruct (String.eqb (fullPath item) "/").
    + unfold ret at 1. apply IH.
    + rewrite try_catch_log_run_mutator.
      destruct (IH (snd (run_mutator (f item) st))) as (st' & Hf & Ho & Hq & Hc).
      destruct (run_mutator_keeps (f item) st) as [Ho1 Hq1].
      exists st'. split; [exact Hf|]. split; [congruence|]. split; [congruence|].
      intros H. apply Hc. now apply closed_heap_run_mutator.
Qed.

(** X15. Population never fails on an item.  Given a list of items, the
    folder callback returns normally whatever the items are, and hands
    exactly one further request to the HTTP client, for [apiUrl/ltm/rule],
    with the method, host, credentials and body that [options] holds at that
    moment; the rule callback returns normally and issues no request.  Both
    keep the references of the tree inside the store. *)
Theorem population_never_throws :
  (forall apiUrl items st o,
      options st = Some o ->
      exists st' o',
        folder_callback apiUrl (ResponseItems items) st = (Return tt, st') /\
        requests st' = requests st ++ [mkRequest (apiUrl ++ "/ltm/rule")%string o' RuleCallback] /\
        options st' = Some o' /\
        method o' = method o /\ Host o' = Host o /\ body o' = body o /\
        username o' = username o /\ password o' = password o /\
        (closed_heap (heap st) = true -> closed_heap (heap st') = true)) /\
  (forall items st,
      exists st',
        rule_callback (ResponseItems items) st = (Return tt, st') /\
        requests st' = requests st /\
        options st' = options st /\
        (closed_heap (heap st) = true -> closed_heap (heap st') = true)).
Proof.
  split.
  - intros apiUrl items st o Ho. unfold folder_callback. unfold bind at 1.
    destruct (population_items
                (fun item => CreateDirectory (Uri_parse_path (fullPath item ++ "/"))) items st)
      as (st1 & Hf & Ho1 & Hq1 & Hc1).
    cbn [run_mutator] in Hf. rewrite Hf.
    unfold the_options, set_options, request. unfold_monad. rewrite Ho1, Ho.
    eexists. eexists. split; [reflexivity|]. cbn. rewrite Hq1.
    repeat split; try reflexivity. exact Hc1.
  - intros items st. unfold rule_callback.
    destruct (population_items
                (fun item => CacheRule (Uri_parse_path (fullPath item ++ ".irul"))
                               (Buffer_from (apiAnonymous item)) true true) items st)
      as (st1 & Hf & Ho1 & Hq1 & Hc1).
    cbn [run_mutator] in Hf. exists st1. auto.
Qed.

Lemma population_never_throws_witness :
  exists st' o',
    folder_callback "https://bigip/mgmt/tm"
      (ResponseItems [mkItem "" ""; mkItem "/Common/test.irul/x" ""; mkItem "/Drafts" ""])
      connected_fs = (Return tt, st') /\
    requests st' =
      requests connected_fs ++ [mkRequest "https://bigip/mgmt/tm/ltm/rule" o' RuleCallback] /\
    options st' = Some o' /\
    method o' = GET /\ Host o' = "bigip" /\ body o' = None /\
    username o' = "admin" /\ password o' = "secret" /\
    (closed_heap (heap connected_fs) = true -> closed_heap (heap st') = true).
Proof.
  exact (proj1 population_never_throws "https://bigip/mgmt/tm"
           [mkItem "" ""; mkItem "/Common/test.irul/x" ""; mkItem "/Drafts" ""]
           connected_fs connected_options eq_refl).
Defined.

(** X16. An item that cannot be inserted is skipped without a trace: when
    the insertion of the first item throws, or the item is the root path,
    the callback does exactly what it does on the remaining items. *)
Theorem population_skips_failed_item (item : Item) (items : list Item) (st : IcrFS) :
  (forall apiUrl,
      fullPath item = "/" \/ (exists e st1, folder_item item st = (Throw e, st1)) ->
      folder_callback apiUrl (ResponseItems (item :: items)) st =
      folder_callback apiUrl (ResponseItems items) st) /\
  (fullPath item = "/" \/ (exists e st1, rule_item item st = (Throw e, st1)) ->
   rule_callback (ResponseItems (item :: items)) st =
   rule_callback (ResponseItems items) st).
Proof.
  split.
  - intros apiUrl H. unfold folder_callback. cbn [forEach].
    unfold bind at 1. unfold bind at 1.
    destruct H as [-> | (e & st1 & Ht)].
    + reflexivity.
    + destruct (String.eqb (fullPath item) "/"); [reflexivity|].
      unfold try_catch_log. unfold folder_item in Ht. rewrite Ht.
      rewrite (createDirectory_Throw _ _ _ _ Ht). reflexivity.
  - intros H. unfold rule_callback. cbn [forEach]. unfold bind at 1.
    destruct H as [-> | (e & st1 & Ht)].
    + reflexivity.
    + destruct (String.eqb (fullPath item) "/"); [reflexivity|].
      unfold try_catch_log. unfold rule_item in Ht. rewrite Ht.
      rewrite (cacheRule_Throw _ _ _ _ _ _ _ Ht). reflexivity.
Qed.

Lemma population_skips_failed_item_witness :
  rule_callback (ResponseItems [mkItem "/Missing/rule" "when"; mkItem "/Common/r" "when"])
    connected_fs =
  rule_callback (ResponseItems [mkItem "/Common/r" "when"]) connected_fs.
Proof.
  apply (proj2 (population_skips_failed_item (mkItem "/Missing/rule" "when")
                  [mkItem "/Common/r" "when"] connected_fs)).
  right. exists FileNotFound, connected_fs. reflexivity.
Defined.

(** ** One timer at most *)

Lemma armed_one_timer st : armed st -> List.length (timers st) = 1%nat.
Proof. intros (id & -> & _). reflexivity. Qed.

Lemma run_mutator_timer c st :
  single_timer st = true ->
  snd (run_mutator c st) = st \/ armed (snd (run_mutator c st)).
Proof.
  intros Hs.
  destruct (run_mutator_shape c st)
    as [-> | [(h & evs & ->) | (h1 & evs1 & h2 & evs2 & ->)]].
  - now left.
  - right. now apply fireSoon_armed.
  - right. apply fireSoon_armed. rewrite single_timer_set_heap.
    now apply armed_single_timer, fireSoon_armed.
Qed.

Lemma act_one_timer a st :
  single_timer st = true /\ (List.length (timers st) <= 1)%nat ->
  single_timer (act a st) = true /\ (List.length (timers (act a st)) <= 1)%nat.
Proof.
  intros [Hs Hlen]. destruct a as [c|dt|]; cbn [act].
  - destruct (run_mutator_timer c st Hs) as [-> | Ha]; [auto|].
    split; [now apply armed_single_timer | now rewrite armed_one_timer].
  - auto.
  - split; [now apply single_timer_run_timers|].
    unfold run_timers.
    destruct (fold_fire_callback (List.filter (due (now st)) (timers st))
                (mkIcrFS (heap st) (options st) (_bufferedEvents st) (_fireSoonHandle st)
                   (now st) (List.filter (fun t => negb (due (now st) t)) (timers st))
                   (next_timer st) (fired st) (requests st))) as [-> _].
    cbn. etransitivity; [apply List.filter_length_le | exact Hlen].
Qed.

(** X17. One outstanding timer.  Whatever sequence of mutator calls, passing
    time and turns of the event loop an instance goes through from its
    creation, at most one timeout is armed at any moment, and it is the one
    under [_fireSoonHandle]. *)
Theorem at_most_one_timer (actions : list Action) (t : Z) :
  (List.length (timers (fold_left (fun s a => act a s) actions (IcrFS_new t))) <= 1)%nat /\
  single_timer (fold_left (fun s a => act a s) actions (IcrFS_new t)) = true.
Proof.
  assert (H : forall st,
             single_timer st = true /\ (List.length (timers st) <= 1)%nat ->
             single_timer (fold_left (fun s a => act a s) actions st) = true /\
             (List.length (timers (fold_left (fun s a => act a s) actions st)) <= 1)%nat).
  { induction actions as [|a actions IH]; intros st Hst; cbn [fold_left]; [exact Hst|].
    apply IH. now apply act_one_timer. }
  destruct (H (IcrFS_new t)) as [Hs Hl]; [split; [reflexivity | cbn; lia]|]. auto.
Qed.

(** X18. Every mutator's records get delivered.  After a mutator has
    returned normally, the first turn of the event loop that comes 5 ms or
    more later, with nothing queued in between, delivers the whole pending
    batch in one piece and leaves the batch empty and no timer armed; a turn
    that comes sooner delivers nothing. *)
Theorem mutator_records_delivered (c : MutatorCall) (st st' : IcrFS) (dt : Z) :
  single_timer st = true ->
  run_mutator c st = (Return tt, st') ->
  (5 <= dt ->
   fired (run_timers (elapse dt st')) = fired st ++ [_bufferedEvents st'] /\
   _bufferedEvents (run_timers (elapse dt st')) = [] /\
   timers (run_timers (elapse dt st')) = []) /\
  (dt < 5 ->
   fired (run_timers (elapse dt st')) = fired st /\
   _bufferedEvents (run_timers (elapse dt st')) = _bufferedEvents st') /\
  _bufferedEvents st' <> [].
Proof.
  intros Hs Hr.
  assert (Harm : armed st' /\ fired st' = fired st /\ _bufferedEvents st' <> []).
  { pose proof (run_mutator_shape c st) as Hshape. rewrite Hr in Hshape. cbn [snd] in Hshape.
    assert (Hev : forall s evs, evs <> [] -> _bufferedEvents (snd (_fireSoon evs s)) <> []).
    { intros s evs Hne. rewrite _fireSoon_eq. cbn. intros E.
      apply app_eq_nil in E. tauto. }
    destruct c as [path|path content create overwrite|oldPath newPath overwrite|path];
      cbn [run_mutator] in Hr.
    - destruct (_lookupAsDirectory (Path.dirname path) false st) as [[parent|e0] st1] eqn:Hl.
      + destruct (_lookupAsDirectory_Return _ _ _ _ Hl) as (-> & _ & _).
        rewrite (createDirectory_Return _ _ _ Hl) in Hr. injection Hr as <-.
        split; [now apply fireSoon_armed|]. split; [now rewrite _fireSoon_eq|].
        apply Hev. discriminate.
      + unfold createDirectory in Hr. unfold bind at 1 in Hr. rewrite Hl in Hr. discriminate.
    - destruct (cacheRule_Return_batch _ _ _ _ _ _ Hs Hr)
        as (Ha & _ & Hf & records & Hb & Hin & Hlen).
      split; [exact Ha|]. split; [exact Hf|]. rewrite Hb. intros E.
      apply app_eq_nil in E. destruct E as [_ ->]. cbn in Hlen. lia.
    - rewrite rename_eq in Hr.
      destruct (if negb overwrite then resolve (heap st) newPath else None); [discriminate|].
      destruct (resolve (heap st) oldPath); [|discriminate].
      destruct (resolve_dir (heap st) (Path.dirname oldPath)); [|discriminate].
      destruct (resolve_dir (heap st) (Path.dirname newPath)); [|discriminate].
      injection Hr as <-.
      split; [now apply fireSoon_armed|]. split; [now rewrite _fireSoon_eq|].
      apply Hev. discriminate.
    - destruct (_lookupAsDirectory (Path.dirname path) false st) as [[parent|e0] st1] eqn:Hl.
      + destruct (_lookupAsDirectory_Return _ _ _ _ Hl) as (-> & _ & _).
        destruct (delete_heap _ _ _ _ Hl Hr) as (Hhas & _).
        rewrite (delete_Return _ _ _ Hl Hhas) in Hr. injection Hr as <-.
        split; [now apply fireSoon_armed|]. split; [now rewrite _fireSoon_eq|].
        apply Hev. discriminate.
      + unfold delete in Hr. unfold bind at 1 in Hr. rewrite Hl in Hr. discriminate. }
  destruct Harm as (Harm & Hf & Hne). split; [|split; [|exact Hne]].
  - intros Hdt. destruct (run_timers_armed_due st' dt Harm Hdt) as (-> & -> & ->).
    now rewrite Hf.
  - intros Hdt. destruct (run_timers_armed_early st' dt Harm Hdt) as (-> & ->).
    now rewrite Hf.
Qed.

Lemma mutator_records_delivered_witness :
  fired (run_timers (elapse 5 (snd (run_mutator (Delete "/Common") connected_fs)))) =
  fired connected_fs ++ [_bufferedEvents (snd (run_mutator (Delete "/Common") connected_fs))].
Proof.
  apply (proj1 (mutator_records_delivered (Delete "/Common") connected_fs
                  (snd (run_mutator (Delete "/Common") connected_fs)) 5 eq_refl eq_refl)).
  lia.
Defined.

(** ** writeFile and the cache *)

(** X19. [writeFile] is write-through only.  On an instance that was never
    connected it throws a TypeError and issues no request.  On a connected
    instance it issues its request whether or not the path exists in the
    tree, and the tree does not take the new content: every reader returns
    after the save what it returned before. *)
Theorem writeFile_leaves_cache
  (st : IcrFS) (path : string) (content : list Byte.byte) (create overwrite : bool) :
  (options st = None ->
   writeFile path content create overwrite st = (Throw TypeError, st)) /\
  (forall o,
      options st = Some o ->
      fst (writeFile path content create overwrite st) = Return tt /\
      forall p,
        fst (readFile p (snd (writeFile path content create overwrite st))) = fst (readFile p st) /\
        fst (stat p (snd (writeFile path content create overwrite st))) = fst (stat p st) /\
        fst (readDirectory p (snd (writeFile path content create overwrite st)))
          = fst (readDirectory p st)).
Proof.
  split.
  - intros Ho. unfold writeFile, the_options. unfold_monad. now rewrite Ho.
  - intros o Ho. unfold writeFile, the_options, set_options, request. unfold_monad.
    rewrite Ho. cbn [fst snd]. split; [reflexivity|]. intros p.
    rewrite !readFile_eq, !stat_eq, !readDirectory_eq. cbn [fst heap]. auto.
Qed.

Lemma writeFile_leaves_cache_witness :
  fst (readFile "/Common/test.irul"
         (snd (writeFile "/Common/test.irul" (Buffer_from "new text") false true connected_fs)))
  = fst (readFile "/Common/test.irul" connected_fs) /\
  writeFile "/x.irul" [] true true (IcrFS_new 0) = (Throw TypeError, IcrFS_new 0).
Proof.
  split.
  - exact (proj1 (proj2 (proj2 (writeFile_leaves_cache connected_fs "/Common/test.irul"
                                  (Buffer_from "new text") false true)
                           connected_options eq_refl) "/Common/test.irul")).
  - apply (proj1 (writeFile_leaves_cache (IcrFS_new 0) "/x.irul" [] true true)). reflexivity.
Defined.

(** X20. The options object is shared between saving and population.  When
    a save happens before the folder response of a connect arrives, the rule
    request that the folder callback issues goes out with the save's method
    and body: a PUT carrying the saved content, to [apiUrl/ltm/rule]. *)
Theorem save_leaks_into_population
  (st : IcrFS) (path : string) (content : list Byte.byte) (create overwrite : bool)
  (apiUrl : string) (items : list Item) (o : Options) :
  options st = Some o ->
  exists st' o',
    folder_callback apiUrl (ResponseItems items)
      (snd (writeFile path content create overwrite st)) = (Return tt, st') /\
    List.last (requests st') (mkRequest "" o SaveCallback)
      = mkRequest (apiUrl ++ "/ltm/rule")%string o' RuleCallback /\
    method o' = PUT /\
    body o' = Some content /\
    json o' = true.
Proof.
  intros Ho.
  assert (Hw : exists ow, options (snd (writeFile path content create overwrite st)) = Some ow /\
                          method ow = PUT /\ body ow = Some content /\ json ow = true).
  { unfold writeFile, the_options, set_options, request. unfold_monad. rewrite Ho. cbn.
    eexists. split; [reflexivity|]. auto. }
  destruct Hw as (ow & Hw & Hm & Hb & Hj).
  unfold folder_callback. unfold bind at 1.
  destruct (population_items
              (fun item => CreateDirectory (Uri_parse_path (fullPath item ++ "/"))) items
              (snd (writeFile path content create overwrite st)))
    as (st1 & Hf & Ho1 & Hq1 & _).
  cbn [run_mutator] in Hf. rewrite Hf.
  unfold the_options, set_options, request. unfold_monad. rewrite Ho1, Hw.
  eexists. eexists. split; [reflexivity|]. cbn [requests].
  rewrite last_last. split; [reflexivity|]. cbn. auto.
Qed.

Lemma save_leaks_into_population_witness :
  exists st' o',
    folder_callback "https://bigip/mgmt/tm" (ResponseItems [mkItem "/Common" ""])
      (snd (writeFile "/Common/test.irul" (Buffer_from "when") false true connected_fs))
      = (Return tt, st') /\
    List.last (requests st') (mkRequest "" connected_options SaveCallback)
      = mkRequest "https://bigip/mgmt/tm/ltm/rule" o' RuleCallback /\
    method o' = PUT /\
    body o' = Some (Buffer_from "when") /\
    json o' = true.
Proof.
  exact (save_leaks_into_population connected_fs "/Common/test.irul" (Buffer_from "when")
           false true "https://bigip/mgmt/tm" [mkItem "/Common" ""] connected_options eq_refl).
Defined.

(** ** Names of nodes and keys of mappings *)

Lemma named_heap_spec h : named_heap h = true <-> heap_named h.
Proof.
  unfold named_heap, heap_named. rewrite forallb_forall. split.
  - intros H e He kv Hkv. specialize (H e He). rewrite forallb_forall in H.
    specialize (H kv Hkv). now apply String.eqb_eq in H.
  - intros H e He. rewrite forallb_forall. intros kv Hkv.
    apply String.eqb_eq. now apply (H e He).
Qed.

Lemma name_of_alter f (r0 c : ref) (h : list Entry) :
  (forall e, Entry_name (f e) = Entry_name e) ->
  name_of (alter f r0 h) c = name_of h c.
Proof.
  intros Hf. unfold name_of. rewrite list_lookup_alter.
  destruct (decide (r0 = c)) as [->|]; [|reflexivity].
  destruct (h !! c); cbn; [apply Hf | reflexivity].
Qed.

Lemma heap_named_alter f (r : ref) (h : list Entry) :
  heap_named h ->
  (forall e, Entry_name (f e) = Entry_name e) ->
  (forall e kv, In kv (Entry_entries (f e)) ->
                In kv (Entry_entries e) \/ name_of h (snd kv) = fst kv) ->
  heap_named (alter f r h).
Proof.
  intros Hn Hname Hf e' He' kv Hkv. rewrite name_of_alter by exact Hname.
  apply list_elem_of_In, list_elem_of_lookup_1 in He'. destruct He' as (i & Hi).
  rewrite list_lookup_alter in Hi. destruct (decide (r = i)) as [->|Hne].
  - destruct (h !! i) as [e|] eqn:Hei; [|discriminate]. cbn in Hi. injection Hi as <-.
    destruct (Hf e kv Hkv) as [H|H]; [|exact H].
    exact (Hn e (lookup_In _ _ _ Hei) kv H).
  - exact (Hn e' (lookup_In _ _ _ Hi) kv Hkv).
Qed.

Lemma heap_named_alter_keep f (r : ref) (h : list Entry) :
  (forall e, Entry_name (f e) = Entry_name e) ->
  (forall e, Entry_entries (f e) = Entry_entries e) ->
  heap_named h -> heap_named (alter f r h).
Proof.
  intros Hname Hent Hn. apply heap_named_alter; [exact Hn | exact Hname |].
  intros e kv Hkv. left. now rewrite Hent in Hkv.
Qed.

Lemma name_of_app_l (h : list Entry) e (c : ref) :
  (c < List.length h)%nat -> name_of (h ++ [e]) c = name_of h c.
Proof. intros Hlt. unfold name_of. now rewrite lookup_app_l. Qed.

Lemma name_of_app_new (h : list Entry) e : name_of (h ++ [e]) (List.length h) = Entry_name e.
Proof. unfold name_of. rewrite lookup_app_r by lia. now rewrite Nat.sub_diag. Qed.

Lemma heap_named_app e (h : list Entry) :
  heap_closed h -> heap_named h -> Entry_entries e = [] -> heap_named (h ++ [e]).
Proof.
  intros Hc Hn He e' He' kv Hkv.
  apply in_app_or in He'. destruct He' as [H|[<-|[]]].
  - rewrite name_of_app_l by exact (Hc e' H kv Hkv). exact (Hn e' H kv Hkv).
  - rewrite He in Hkv. destruct Hkv.
Qed.

Lemma Entry_name_set_mtime t e : Entry_name (Entry_set_mtime t e) = Entry_name e.
Proof. destruct e; reflexivity. Qed.

Lemma Entry_name_set_size s e : Entry_name (Entry_set_size s e) = Entry_name e.
Proof. destruct e; reflexivity. Qed.

Lemma Entry_name_set_data c e : Entry_name (Entry_set_data c e) = Entry_name e.
Proof. destruct e; reflexivity. Qed.

Lemma heap_named_store_payload content t (entry : ref) (h : list Entry) :
  heap_named h -> heap_named (store_payload content t entry h).
Proof.
  intros Hn. unfold store_payload.
  apply heap_named_alter_keep; [apply Entry_name_set_data | apply Entry_entries_set_data |].
  apply heap_named_alter_keep; [apply Entry_name_set_size | apply Entry_entries_set_size |].
  apply heap_named_alter_keep; [apply Entry_name_set_mtime | apply Entry_entries_set_mtime |].
  exact Hn.
Qed.

Lemma heap_named_alloc e (b : string) (parent : ref) (h : list Entry) :
  heap_closed h -> heap_named h -> Entry_entries e = [] -> Entry_name e = b ->
  heap_named (alter (Entry_set_entries (JsMap.set b (List.length h))) parent (h ++ [e])).
Proof.
  intros Hc Hn He Hb. apply heap_named_alter.
  - now apply heap_named_app.
  - apply Entry_name_set_entries.
  - intros e0 kv Hkv. apply Entry_entries_set_entries, JsMap_In_set in Hkv.
    destruct Hkv as [->|H]; [right | now left]. cbn. now rewrite name_of_app_new.
Qed.

Lemma heap_named_remove (b : string) (parent : ref) (h : list Entry) :
  heap_named h -> heap_named (alter (Entry_set_entries (JsMap.delete b)) parent h).
Proof.
  intros Hn. apply heap_named_alter; [exact Hn | apply Entry_name_set_entries |].
  intros e kv Hkv. apply Entry_entries_set_entries, JsMap_In_delete in Hkv. now left.
Qed.

(** X21. Keys and names agree.  In a new instance, and after any call of
    [createDirectory], [cacheRule] or [delete] on an instance where it holds
    and no reference dangles, every node is registered in its containers
    under its own [name]. *)
Theorem named_heap_invariant :
  (forall t, named_heap (heap (IcrFS_new t)) = true) /\
  (forall c st,
      is_rename c = false ->
      closed_heap (heap st) = true ->
      named_heap (heap st) = true ->
      named_heap (heap (snd (run_mutator c st))) = true).
Proof.
  split; [reflexivity|].
  intros c st Hren Hc Hn. destruct (run_mutator c st) as [[[]|e] st'] eqn:Hr; cbn [snd].
  2:{ destruct c; cbn [run_mutator] in Hr.
      - now rewrite (createDirectory_Throw _ _ _ _ Hr).
      - now rewrite (cacheRule_Throw _ _ _ _ _ _ _ Hr).
      - now rewrite (rename_Throw _ _ _ _ _ _ Hr).
      - now rewrite (delete_Throw _ _ _ _ Hr). }
  apply named_heap_spec. apply named_heap_spec in Hn. apply closed_heap_spec in Hc.
  destruct c as [path|path content create overwrite|oldPath newPath overwrite|path];
    cbn [run_mutator] in Hr; [| |discriminate Hren|].
  - destruct (_lookupAsDirectory (Path.dirname path) false st) as [[parent|e0] st1] eqn:Hl.
    + destruct (_lookupAsDirectory_Return _ _ _ _ Hl) as (-> & _ & _).
      rewrite (createDirectory_Return _ _ _ Hl) in Hr. injection Hr as <-.
      cbn [snd]. rewrite heap_fireSoon, heap_set_heap.
      apply heap_named_alter_keep; [apply Entry_name_set_size | apply Entry_entries_set_size |].
      apply heap_named_alter_keep; [apply Entry_name_set_mtime | apply Entry_entries_set_mtime |].
      now apply heap_named_alloc.
    + unfold createDirectory in Hr. unfold bind at 1 in Hr. rewrite Hl in Hr. discriminate.
  - destruct (_lookupParentDirectory path st) as [[parent|e0] st1] eqn:Hl.
    + destruct (_lookupAsDirectory_Return _ _ _ _ Hl) as (-> & _ & _).
      destruct (JsMap.get (Path.basename path) (entries_of (heap st) parent))
        as [entry|] eqn:Hget.
      * destruct (is_Directory (heap st) entry) eqn:Hd.
        { rewrite (cacheRule_Throw_directory _ _ _ _ _ _ _ Hl Hget Hd) in Hr. discriminate. }
        destruct (create && negb overwrite) eqn:Hco.
        { apply andb_prop in Hco. destruct Hco as [-> Ho].
          apply negb_true_iff in Ho. subst overwrite.
          rewrite (cacheRule_Throw_exists _ _ _ _ _ Hl Hget Hd) in Hr. discriminate. }
        rewrite (cacheRule_Return_updated _ _ _ _ _ _ _ Hl Hget Hd Hco) in Hr.
        injection Hr as <-. cbn [snd]. rewrite heap_fireSoon, heap_set_heap.
        now apply heap_named_store_payload.
      * destruct create.
        2:{ rewrite (cacheRule_Throw_absent _ _ _ _ _ Hl Hget) in Hr. discriminate. }
        rewrite (cacheRule_Return_created _ _ _ _ _ Hl Hget) in Hr.
        injection Hr as <-. cbn [snd]. rewrite heap_fireSoon, heap_set_heap.
        apply heap_named_store_payload. now apply heap_named_alloc.
    + unfold cacheRule in Hr. unfold bind at 1 in Hr. rewrite Hl in Hr. discriminate.
  - destruct (_lookupAsDirectory (Path.dirname path) false st) as [[parent|e0] st1] eqn:Hl.
    + destruct (_lookupAsDirectory_Return _ _ _ _ Hl) as (-> & _ & _).
      destruct (delete_heap _ _ _ _ Hl Hr) as (_ & ->).
      apply heap_named_alter_keep; [apply Entry_name_set_size | apply Entry_entries_set_size |].
      apply heap_named_alter_keep; [apply Entry_name_set_mtime | apply Entry_entries_set_mtime |].
      now apply heap_named_remove.
    + unfold delete in Hr. unfold bind at 1 in Hr. rewrite Hl in Hr. discriminate.
Qed.

Lemma named_heap_invariant_witness :
  named_heap (heap (snd (run_mutator (CreateDirectory "/Common") connected_fs))) = true.
Proof.
  apply (proj2 named_heap_invariant (CreateDirectory "/Common") connected_fs); reflexivity.
Defined.

(** ** connect: from the command to a failed population phase *)





